(** * NeuralRAG backend: chunker, similarity index and knowledge graph

  A shallow embedding of [backend/app/rag_engine.py],
  [backend/app/vector_store.py], [backend/app/knowledge_graph.py], the
  endpoints of [backend/main.py] and the data utilities of
  [data_utils.py] and [train.py], with the properties of their
  specification and further properties of the code stated over it. *)

From Stdlib Require Import ZArith NArith List String Ascii Bool Lia.
From Stdlib Require Import Permutation Sorted SpecFloat DecimalString.
From stdpp Require Import base option list gmap sets strings.

Local Open Scope Z_scope.

(* ===================================================================== *)
(** * Python built-ins used by the code                                    *)
(* ===================================================================== *)

(** A Python [str] is a sequence of code points.  The model keeps the code
  points U+0000..U+00FF (one [ascii] each, read as Latin-1), on which the
  character classes below follow CPython's Unicode tables. *)
Module Py.

Abbreviation str := (list ascii).

Definition lit (s : string) : str := list_ascii_of_string s.

Definition cp (c : ascii) : N := N_of_ascii c.

Definition between (lo hi : N) (c : ascii) : bool :=
  ((lo <=? cp c) && (cp c <=? hi))%N.

(** [str.isspace] on one character, which is also the class [\s] of [re]
    on [str] patterns: TAB..CR, FS..US, SPACE, NEL and NBSP. *)
Definition isspace (c : ascii) : bool :=
  between 9 13 c || between 28 32 c || (cp c =? 133)%N || (cp c =? 160)%N.

(** The classes [[A-Z]], [[a-z]] and [[a-zA-Z]]. *)
Definition is_AZ (c : ascii) : bool := between 65 90 c.
Definition is_az (c : ascii) : bool := between 97 122 c.
Definition is_azAZ (c : ascii) : bool := is_az c || is_AZ c.

(** [str.isalnum] on one character. *)
Definition isalnum (c : ascii) : bool :=
  between 48 57 c || is_AZ c || is_az c
  || (cp c =? 170)%N || between 178 179 c || (cp c =? 181)%N
  || between 185 186 c || between 188 190 c
  || between 192 214 c || between 216 246 c || between 248 255 c.

(** The class [\w] of [re]. *)
Definition is_word (c : ascii) : bool := isalnum c || (cp c =? 95)%N.

(** Upper-case letters: the characters on which [str.isupper] is true. *)
Definition isupper_char (c : ascii) : bool :=
  is_AZ c || between 192 214 c || between 216 222 c.

Definition shift (c : ascii) (d : Z) : ascii :=
  ascii_of_N (Z.to_N (Z.of_N (cp c) + d)).

Definition lower_char (c : ascii) : ascii :=
  if isupper_char c then shift c 32 else c.

(** The upper-case form of one character, where it is again a single
    code point below U+0100 (it is not for U+00B5, U+00DF and U+00FF,
    which are left alone here). *)
Definition upper_char (c : ascii) : ascii :=
  if is_az c || between 224 246 c || between 248 254 c
  then shift c (-32) else c.

(** [s.lower()] *)
Definition lower (s : str) : str := map lower_char s.

(** [s.capitalize()] *)
Definition capitalize (s : str) : str :=
  match s with
  | [] => []
  | c :: s' => upper_char c :: lower s'
  end.

(** [s[0].isupper()]; indexing an empty string raises [IndexError]. *)
Definition first_isupper (s : str) : option bool :=
  match s with
  | [] => None
  | c :: _ => Some (isupper_char c)
  end.

Definition len (s : str) : Z := Z.of_nat (length s).

(** [s.lstrip()], [s.rstrip()] and [s.strip()] *)
Fixpoint lstrip (s : str) : str :=
  match s with
  | c :: s' => if isspace c then lstrip s' else s
  | [] => []
  end.

Definition rstrip (s : str) : str := rev (lstrip (rev s)).

Definition strip (s : str) : str := rstrip (lstrip s).

(** A slice bound as Python clamps it: a negative bound counts from the
    end, and every bound is brought into [0..n]. *)
Definition clamp (n i : Z) : Z :=
  if i <? 0 then Z.max 0 (i + n) else Z.min i n.

(** [s[i:j]] *)
Definition slice (s : str) (i j : Z) : str :=
  let lo := clamp (len s) i in
  let hi := clamp (len s) j in
  firstn (Z.to_nat (hi - lo)) (skipn (Z.to_nat lo) s).

Fixpoint startswith (sub s : str) : bool :=
  match sub, s with
  | [], _ => true
  | _ :: _, [] => false
  | a :: sub', b :: s' => Ascii.eqb a b && startswith sub' s'
  end.

(** [s.rfind(sub)]: the highest index at which [sub] occurs, or [-1]. *)
Fixpoint rfind_from (sub s : str) (i last : Z) : Z :=
  match s with
  | [] => if startswith sub [] then i else last
  | _ :: s' => rfind_from sub s' (i + 1) (if startswith sub s then i else last)
  end.

Definition rfind (s sub : str) : Z := rfind_from sub s 0 (-1).

End Py.

(* ===================================================================== *)
(** * The fragment of [re] used by the code                                *)
(* ===================================================================== *)

(** Patterns are matched as [re] does, by backtracking with greedy
  repetition; a match is reported by the position where it ends. *)
Module Re.
Import Py.

Inductive regex : Type :=
| Cls (p : ascii -> bool)       (* a character class *)
| WordB                         (* \b *)
| Cat (r1 r2 : regex)           (* r1 r2 *)
| Star (r : regex).             (* (?:r)*, greedy *)

(** [r+] is [r r*] and [r{n,}] is [n] copies of [r] followed by [r*]. *)
Definition Plus (r : regex) : regex := Cat r (Star r).

Fixpoint AtLeast (n : nat) (r : regex) : regex :=
  match n with
  | O => Star r
  | S n' => Cat r (AtLeast n' r)
  end.

Definition word_at (s : str) (pos : nat) : bool :=
  match nth_error s pos with
  | Some c => is_word c
  | None => false
  end.

(** [\b] holds at [pos] when exactly one of the characters before and
    after [pos] is a word character. *)
Definition at_boundary (s : str) (pos : nat) : bool :=
  xorb (match pos with O => false | S p => word_at s p end) (word_at s pos).

(** [rmatch s r k pos]: match [r] at [pos], then hand the end position to
    the continuation [k]; [None] makes the matcher backtrack.  A
    repetition stops when an iteration matches the empty string. *)
Fixpoint rmatch (s : str) (r : regex) (k : nat -> option nat) (pos : nat)
  {struct r} : option nat :=
  match r with
  | Cls p =>
      match nth_error s pos with
      | Some c => if p c then k (S pos) else None
      | None => None
      end
  | WordB => if at_boundary s pos then k pos else None
  | Cat r1 r2 => rmatch s r1 (rmatch s r2 k) pos
  | Star r1 =>
      (fix iter (fuel : nat) (pos : nat) {struct fuel} : option nat :=
         match fuel with
         | O => k pos
         | S fuel' =>
             match rmatch s r1
                     (fun pos' => if (pos <? pos')%nat
                                  then iter fuel' pos' else None) pos with
             | Some e => Some e
             | None => k pos
             end
         end) (S (length s - pos)) pos
  end.

(** [pattern.match(s, pos)], as the end of the match. *)
Definition match_at (r : regex) (s : str) (pos : nat) : option nat :=
  rmatch s r Some pos.

(** The scan of [re.finditer]: the leftmost match from [pos] on, then the
    scan goes on where it ended (one further when it was empty). *)
Fixpoint scan (r : regex) (s : str) (fuel pos : nat) : list (nat * nat) :=
  match fuel with
  | O => []
  | S fuel' =>
      if (length s <? pos)%nat then []
      else match match_at r s pos with
           | Some e =>
               (pos, e) :: scan r s fuel' (if (pos <? e)%nat then e else S pos)
           | None => scan r s fuel' (S pos)
           end
  end.

Definition finditer (r : regex) (s : str) : list (nat * nat) :=
  scan r s (S (length s)) O.

Definition span (s : str) (m : nat * nat) : str :=
  firstn (snd m - fst m) (skipn (fst m) s).

(** [re.findall(r, s)] for a pattern without groups. *)
Definition findall (r : regex) (s : str) : list str :=
  map (span s) (finditer r s).

(** [re.sub(r, repl, s)]: the text between the matches is kept and
    every match is replaced by [repl]. *)
Fixpoint splice (s repl : str) (pos : nat) (ms : list (nat * nat)) : str :=
  match ms with
  | [] => skipn pos s
  | m :: ms' =>
      firstn (fst m - pos) (skipn pos s) ++ repl ++ splice s repl (snd m) ms'
  end.

Definition sub (r : regex) (repl s : str) : str :=
  splice s repl O (finditer r s).

End Re.

(* ===================================================================== *)
(** * rag_engine.py: the chunker                                           *)
(* ===================================================================== *)

Module RAGEngine.
Import Py Re.

(** The attributes set by [__init__] that [chunk_text] reads. *)
Record t : Type := mk { chunk_size : Z; chunk_overlap : Z }.

(** [RAGEngine()] *)
Definition init : t := {| chunk_size := 500; chunk_overlap := 50 |}.

(** [\s+] *)
Definition whitespace_run : regex := Plus (Cls isspace).

(** [re.sub(r'\s+', ' ', text).strip()] *)
Definition clean (text : str) : str :=
  strip (sub whitespace_run (lit " ") text).

(** The three [rfind] calls and their [max]. *)
Definition last_period (chunk : str) : Z :=
  Z.max (Z.max (rfind chunk (lit ". ")) (rfind chunk (lit "! ")))
        (rfind chunk (lit "? ")).

(** The value of [end] when the chunk is cut, lines 77-90.  The test
    [last_period > self.chunk_size * 0.5] compares an integer with a
    float exactly, so it is [chunk_size < 2 * last_period]. *)
Definition window_end (self : t) (text : str) (start : Z) : Z :=
  let end_ := start + chunk_size self in
  if end_ <? len text then
    let chunk := slice text start end_ in
    if chunk_size self <? 2 * last_period chunk
    then start + last_period chunk + 1
    else end_
  else end_.

(** Line 96: the start of the next window. *)
Definition next_start (self : t) (text : str) (start : Z) : Z :=
  window_end self text start - chunk_overlap self.

(** Lines 92-94: the chunk is appended unless it strips to nothing. *)
Definition emit (chunks : list str) (chunk : str) : list str :=
  match chunk with
  | [] => chunks
  | _ :: _ => chunks ++ [chunk]
  end.

(** The [while] loop, lines 76-96, on the cleaned text.  [fuel] bounds the
    number of iterations; [None] is a loop that has not ended by then. *)
Fixpoint chunk_loop (fuel : nat) (self : t) (text : str)
         (chunks : list str) (start : Z) : option (list str) :=
  if start <? len text then
    match fuel with
    | O => None
    | S fuel' =>
        let end_ := window_end self text start in
        let chunk := strip (slice text start end_) in
        chunk_loop fuel' self text (emit chunks chunk)
                   (end_ - chunk_overlap self)
    end
  else Some chunks.

(** [chunk_text(self, text)] *)
Definition chunk_text (fuel : nat) (self : t) (text : str)
  : option (list str) :=
  let text := clean text in
  if len text =? 0 then Some [] else chunk_loop fuel self text [] 0.

End RAGEngine.


(* ===================================================================== *)
(** * vector_store.py: the similarity index                                *)
(* ===================================================================== *)

(** [numpy.float32] arithmetic: IEEE 754 binary32, rounding to nearest
    even. *)
Module F32.

Abbreviation f32 := spec_float.

Definition prec : Z := 24.
Definition emax : Z := 128.

Definition add : f32 -> f32 -> f32 := SFadd prec emax.
Definition sub : f32 -> f32 -> f32 := SFsub prec emax.
Definition mul : f32 -> f32 -> f32 := SFmul prec emax.
Definition div : f32 -> f32 -> f32 := SFdiv prec emax.
Definition ltb : f32 -> f32 -> bool := SFltb.

Definition zero : f32 := S754_zero false.
Definition one : f32 := S754_finite false 8388608 (-23).

(** [2^e] for [e] in the normal range. *)
Definition pow2 (e : Z) : f32 := S754_finite false 8388608 (e - 23).


End F32.

Module VectorStore.
Import Py.

Abbreviation vector := (list spec_float).

(** The values held by a metadata dict. *)
Inductive value : Type :=
| VStr (s : str)
| VInt (n : Z).

#[global] Instance value_eq_dec : EqDecision value.
Proof. solve_decision. Defined.

Abbreviation meta := (gmap (list ascii) value).

(** [l[i]] on a Python list: a negative index counts from the end, and an
    index out of range raises [IndexError] ([None]). *)
Definition getitem {A : Type} (l : list A) (i : Z) : option A :=
  let n := Z.of_nat (length l) in
  if (i <? - n) || (n <=? i) then None
  else nth_error l (Z.to_nat (if i <? 0 then i + n else i)).

(** Modelled from the spec: [faiss.IndexFlatL2], the exact linear index on
    squared Euclidean distance.  The library is not part of the
    repository; the index is its dimension and the rows added so far. *)
Record IndexFlatL2 : Type := mkIndex { d : Z; xb : list vector }.

(** Modelled from the spec: [faiss.IndexFlatL2(dimension)], the index with
    no rows. *)
Definition IndexFlatL2_new (dimension : Z) : IndexFlatL2 :=
  {| d := dimension; xb := [] |}.

(** Modelled from the spec: [index.ntotal], the number of rows. *)
Definition ntotal (index : IndexFlatL2) : Z := Z.of_nat (length (xb index)).

(** Modelled from the spec: [index.add(x)].  The rows are appended in
    order; a row of another dimension is refused ([None]). *)
Definition index_add (index : IndexFlatL2) (x : list vector)
  : option IndexFlatL2 :=
  if forallb (fun v => Z.of_nat (length v) =? d index) x
  then Some {| d := d index; xb := xb index ++ x |}
  else None.

(** Modelled from the spec: the squared L2 distance of the index, summed
    coordinate by coordinate in binary32. *)
Definition L2sqr (x y : vector) : spec_float :=
  fold_left (fun acc p => F32.add acc (F32.mul (F32.sub (fst p) (snd p))
                                               (F32.sub (fst p) (snd p))))
            (combine x y) F32.zero.

(** Modelled from the spec: the ranking of the index.  A hit is a distance
    and the row it belongs to; [insert_hit] puts a hit before the first one
    that is not strictly closer, so rows at the same distance stay in
    insertion order. *)
Fixpoint insert_hit (h : spec_float * Z) (hits : list (spec_float * Z))
  : list (spec_float * Z) :=
  match hits with
  | [] => [h]
  | h' :: hits' =>
      if F32.ltb (fst h') (fst h) then h' :: insert_hit h hits' else h :: hits
  end.

(** Modelled from the spec: all hits, ranked. *)
Definition rank_hits (hits : list (spec_float * Z)) : list (spec_float * Z) :=
  fold_right insert_hit [] hits.

(** Modelled from the spec: the distance of every row to the query. *)
Definition all_hits (index : IndexFlatL2) (q : vector)
  : list (spec_float * Z) :=
  imap (fun i v => (L2sqr q v, Z.of_nat i)) (xb index).

(** Modelled from the spec: [index.search(q, k)] for one query row, the
    [k] closest rows by ascending distance, for [k >= 1].  A query of
    another dimension is refused ([None]); so is a [k] below 1, which the
    library rejects and of which the spec of the index says nothing. *)
Definition index_search (index : IndexFlatL2) (q : vector) (k : Z)
  : option (list (spec_float * Z)) :=
  if negb (Z.of_nat (length q) =? d index) || (k <? 1) then None
  else Some (firstn (Z.to_nat k) (rank_hits (all_hits index q))).

(** The store: the attributes of [VectorStore] that live in memory. *)
Record t : Type := mk {
  dimension : Z;
  index : IndexFlatL2;
  chunks_metadata : list meta;
  chunk_texts : list str
}.

(** What [_load_index] can find under [index_path]: a file is missing,
    unreadable (reading it raises), or holds a value. *)
Inductive file (A : Type) : Type :=
| Missing
| Unreadable
| Holds (a : A).
Arguments Missing {A}.
Arguments Unreadable {A}.
Arguments Holds {A} a.

Record disk : Type := mkDisk {
  faiss_file : file IndexFlatL2;            (* <index_path>.faiss *)
  pkl_file : file (list meta * list str)    (* <index_path>.pkl *)
}.

(** [_load_index], lines 23-34.  [self.index] is assigned as soon as the
    index file is read; when the pickle cannot be read afterwards the
    exception is caught and printed, and the two lists stay as they
    were. *)
Definition _load_index (self : t) (fs : disk) : t :=
  match faiss_file fs with
  | Missing => self
  | Unreadable => self
  | Holds ix =>
      let self1 := {| dimension := dimension self; index := ix;
                      chunks_metadata := chunks_metadata self;
                      chunk_texts := chunk_texts self |} in
      match pkl_file fs with
      | Holds (metadata, texts) =>
          {| dimension := dimension self1; index := index self1;
             chunks_metadata := metadata; chunk_texts := texts |}
      | _ => self1
      end
  end.

(** [_save_index] when both writes succeed; a failure is caught and
    printed, and the store in memory is the same either way. *)
Definition _save_index (self : t) : disk :=
  {| faiss_file := Holds (index self);
     pkl_file := Holds (chunks_metadata self, chunk_texts self) |}.

(** [VectorStore(dimension)], lines 8-21. *)
Definition init (dimension : Z) (fs : disk) : t :=
  _load_index {| dimension := dimension;
                 index := IndexFlatL2_new dimension;
                 chunks_metadata := [];
                 chunk_texts := [] |} fs.

(** [get_size] *)
Definition get_size (self : t) : Z := ntotal (index self).

(** [clear] *)
Definition clear (self : t) : t :=
  {| dimension := dimension self;
     index := IndexFlatL2_new (dimension self);
     chunks_metadata := [];
     chunk_texts := [] |}.

(** One entry of the list returned by [similarity_search]. *)
Record result : Type := mkResult {
  r_text : str;
  r_metadata : meta;
  r_score : spec_float;
  r_rank : Z
}.

(** Line 93: [1 / (1 + distance)] on a [numpy.float32]. *)
Definition score (distance : spec_float) : spec_float :=
  F32.div F32.one (F32.add F32.one distance).

Section WithEncoder.

(** The embedding model, [SentenceTransformer.encode] on one text; it is
    injected and not part of the repository. *)
Variable encode : str -> vector.

(** [RAGEngine().generate_embeddings(texts)] *)
Definition generate_embeddings (texts : list str) : list vector :=
  map encode texts.

(** [add_chunks], lines 48-71: the new store and the ids of the chunks, or
    [None] when [index.add] raises. *)
Definition add_chunks (self : t) (chunks : list str) (metadata : list meta)
           (embeddings : option (list vector)) : option (t * list Z) :=
  let embeddings :=
    match embeddings with
    | None => generate_embeddings chunks
    | Some e => e
    end in
  let start_id := Z.of_nat (length (chunk_texts self)) in
  match index_add (index self) embeddings with
  | None => None
  | Some ix =>
      Some ({| dimension := dimension self;
               index := ix;
               chunks_metadata := chunks_metadata self ++ metadata;
               chunk_texts := chunk_texts self ++ chunks |},
            map (fun i => start_id + Z.of_nat i) (seq 0 (length chunks)))
  end.

(** Lines 89-100: the loop over the hits.  [i] is the position of the hit
    in the answer of the index. *)
Fixpoint format_results (self : t) (i : Z) (hits : list (spec_float * Z))
  : option (list result) :=
  match hits with
  | [] => Some []
  | (distance, idx) :: hits' =>
      if idx <? Z.of_nat (length (chunk_texts self)) then
        match getitem (chunk_texts self) idx,
              getitem (chunks_metadata self) idx,
              format_results self (i + 1) hits' with
        | Some text, Some m, Some rest =>
            Some ({| r_text := text; r_metadata := m;
                     r_score := score distance; r_rank := i + 1 |} :: rest)
        | _, _, _ => None
        end
      else format_results self (i + 1) hits'
  end.

(** The hits that [similarity_search] asks the index for, line 86. *)
Definition search_hits (self : t) (query : str) (top_k : Z)
  : option (list (spec_float * Z)) :=
  index_search (index self) (encode query)
               (Z.min top_k (ntotal (index self))).

(** [similarity_search], lines 73-102; [None] when a call raises. *)
Definition similarity_search (self : t) (query : str) (top_k : Z)
  : option (list result) :=
  if ntotal (index self) =? 0 then Some []
  else match search_hits self query top_k with
       | None => None
       | Some hits => format_results self 0 hits
       end.

(** Lines 107-110: the positions of the passages of other documents. *)
Definition indices_to_keep (self : t) (document_id : str) : list Z :=
  omap (fun p => if decide (snd p !! lit "document_id" = Some (VStr document_id))
                 then None else Some (Z.of_nat (fst p)))
       (imap (fun i m => (i, m)) (chunks_metadata self)).

(** [delete_document], lines 104-137; [None] when a call raises. *)
Definition delete_document (self : t) (document_id : str) : option t :=
  let keep := indices_to_keep self document_id in
  if Z.of_nat (length keep) =? Z.of_nat (length (chunks_metadata self))
  then Some self
  else
    match mapM (getitem (chunk_texts self)) keep,
          mapM (getitem (chunks_metadata self)) keep with
    | Some remaining_texts, Some remaining_metadata =>
        let fresh := IndexFlatL2_new (dimension self) in
        let rebuilt :=
          match remaining_texts with
          | [] => Some fresh
          | _ :: _ => index_add fresh (generate_embeddings remaining_texts)
          end in
        match rebuilt with
        | None => None
        | Some ix =>
            Some {| dimension := dimension self;
                    index := ix;
                    chunks_metadata := remaining_metadata;
                    chunk_texts := remaining_texts |}
        end
    | _, _ => None
    end.

End WithEncoder.

End VectorStore.

(* ===================================================================== *)
(** * knowledge_graph.py: the knowledge graph builder                      *)
(* ===================================================================== *)

(** Python [float] arithmetic: IEEE 754 binary64. *)
Module F64.

Definition prec : Z := 53.
Definition emax : Z := 1024.

Definition add : spec_float -> spec_float -> spec_float := SFadd prec emax.
Definition mul : spec_float -> spec_float -> spec_float := SFmul prec emax.
Definition ltb : spec_float -> spec_float -> bool := SFltb.

(** [float(n)] for an [int] in the range of a float. *)
Definition of_int (n : Z) : spec_float := binary_normalize prec emax n 0 false.

(** The literals [0.3], [0.1] and [1.5]. *)
Definition c0_3 : spec_float := S754_finite false 5404319552844595 (-54).
Definition c0_1 : spec_float := S754_finite false 7205759403792794 (-56).
Definition c1_5 : spec_float := S754_finite false 6755399441055744 (-52).

(** [min(x, y)]: [y] when it is strictly smaller, else [x]. *)
Definition min (x y : spec_float) : spec_float := if ltb y x then y else x.

End F64.

(** [collections.Counter], a dict from keys to counts that remembers the
    order in which the keys came in. *)
Module Counter.

Abbreviation t := (list (list ascii * Z)).

(** [c[k]]: a missing key counts 0 and is not inserted. *)
Fixpoint get (c : t) (k : list ascii) : Z :=
  match c with
  | [] => 0
  | (k', v) :: c' => if decide (k' = k) then v else get c' k
  end.

(** [c[k] += n] *)
Fixpoint incr (c : t) (k : list ascii) (n : Z) : t :=
  match c with
  | [] => [(k, n)]
  | (k', v) :: c' =>
      if decide (k' = k) then (k', v + n) :: c' else (k', v) :: incr c' k n
  end.

(** [Counter(words)] *)
Definition of_list (words : list (list ascii)) : t :=
  fold_left (fun c w => incr c w 1) words [].

(** [sorted(l, key=key, reverse=True)]: descending, and elements with
    equal keys stay in their original order. *)
Fixpoint insert_desc {A : Type} (key : A -> Z) (x : A) (l : list A) : list A :=
  match l with
  | [] => [x]
  | y :: l' =>
      if key x <? key y then y :: insert_desc key x l' else x :: l
  end.

Definition sorted_desc {A : Type} (key : A -> Z) (l : list A) : list A :=
  fold_right (insert_desc key) [] l.

(** [c.most_common(n)] *)
Definition most_common (c : t) (n : nat) : t := firstn n (sorted_desc snd c).

End Counter.

Module KnowledgeGraphBuilder.
Import Py Re.

Record document : Type := mkDocument {
  doc_text : str;
  doc_chunks : list str;
  doc_entities : gset (list ascii)
}.

Record t : Type := mk {
  documents : gmap (list ascii) document;
  entities : gmap (list ascii) (gset (list ascii));   (* defaultdict(set) *)
  relationships : list (list ascii * list ascii * Z);
  entity_frequencies : Counter.t
}.

(** [KnowledgeGraphBuilder()] *)
Definition init : t :=
  {| documents := ∅; entities := ∅; relationships := [];
     entity_frequencies := [] |}.

Definition stopwords : list str :=
  map lit
    ["the"; "a"; "an"; "and"; "or"; "but"; "in"; "on"; "at"; "to"; "for";
     "of"; "with"; "by"; "from"; "as"; "is"; "was"; "are"; "were"; "been";
     "be"; "have"; "has"; "had"; "do"; "does"; "did"; "will"; "would";
     "could"; "should"; "may"; "might"; "can"; "this"; "that"; "these";
     "those"; "i"; "you"; "he"; "she"; "it"; "we"; "they"; "them"; "their"]%string.

(** [\b[A-Z][a-z]+(?:\s+[A-Z][a-z]+)*\b] *)
Definition capitalized_pattern : regex :=
  Cat WordB
   (Cat (Cls is_AZ)
    (Cat (Plus (Cls is_az))
     (Cat (Star (Cat (Plus (Cls isspace))
                 (Cat (Cls is_AZ) (Plus (Cls is_az)))))
      WordB))).

(** [\b[a-zA-Z]{4,}\b] *)
Definition word_pattern : regex :=
  Cat WordB (Cat (AtLeast 4 (Cls is_azAZ)) WordB).

(** Lines 51-53: the capitalized sequences that are kept. *)
Definition kept_matches (text : str) : list str :=
  filter (fun m => (lower m ∉ stopwords) ∧ 2 < len m)
         (findall capitalized_pattern text).

(** Lines 56-61: the frequent words, capitalized. *)
Definition frequent_terms (text : str) : list str :=
  let words := findall word_pattern (lower text) in
  let word_freq := Counter.of_list words in
  map (fun p => capitalize (fst p))
      (filter (fun p => 3 ≤ snd p ∧ (fst p ∉ stopwords)) word_freq).

(** [_extract_entities], lines 33-63. *)
Definition _extract_entities (text : str) : gset (list ascii) :=
  list_to_set (kept_matches text) ∪ list_to_set (frequent_terms text).

(** [d[k]] on a [defaultdict(set)]: a missing key is inserted with an
    empty set. *)
Definition defaultdict_get (m : gmap (list ascii) (gset (list ascii)))
           (k : str) : gset (list ascii) * gmap (list ascii) (gset (list ascii)) :=
  match m !! k with
  | Some v => (v, m)
  | None => (∅, <[k := ∅]> m)
  end.

(** Lines 26-28: the three updates made for one entity of the document. *)
Definition note_entity (doc_id : str) (self : t) (entity : str) : t :=
  let (docs, ents) := defaultdict_get (entities self) entity in
  {| documents :=
       alter (fun doc => {| doc_text := doc_text doc;
                            doc_chunks := doc_chunks doc;
                            doc_entities := doc_entities doc ∪ {[entity]} |})
             doc_id (documents self);
     entities := <[entity := docs ∪ {[doc_id]}]> ents;
     relationships := relationships self;
     entity_frequencies := Counter.incr (entity_frequencies self) entity 1 |}.

(** Lines 73-80: the body of the inner loop of [_build_relationships]. *)
Definition relate (entity1 : str) (self : t) (entity2 : str) : t :=
  let (docs1, ents1) := defaultdict_get (entities self) entity1 in
  let (docs2, ents2) := defaultdict_get ents1 entity2 in
  let shared_docs := docs1 ∩ docs2 in
  {| documents := documents self;
     entities := ents2;
     relationships :=
       if decide (shared_docs = ∅) then relationships self
       else relationships self
              ++ [(entity1, entity2, Z.of_nat (size shared_docs))];
     entity_frequencies := entity_frequencies self |}.

(** [_build_relationships], lines 65-80, on [entities_list]. *)
Fixpoint _build_relationships (self : t) (entities_list : list str) : t :=
  match entities_list with
  | [] => self
  | entity1 :: rest =>
      _build_relationships (fold_left (relate entity1) rest self) rest
  end.

Record node : Type := mkNode {
  n_id : Z;
  n_label : str;
  n_type : string;
  n_size : spec_float;
  n_color : string;
  n_connections : Z;
  n_frequency : Z
}.

Record edge : Type := mkEdge {
  e_source : Z;
  e_target : Z;
  e_weight : Z
}.

(** The values of the dict returned by [build_graph]. *)
Inductive view_value : Type :=
| Nodes (l : list node)
| Edges (l : list edge)
| Int (n : Z).

(** The returned dict, as its items in the order of the literal. *)
Abbreviation view := (list (string * view_value)).

Definition view_keys (v : view) : list string := map fst v.

Definition colors : list string :=
  ["#00d4ff"; "#ff00ff"; "#00ff88"; "#ffaa00"; "#ff0080"; "#00ffff"]%string.

(** Lines 85-87. *)
Definition top_entities (self : t) : list str :=
  map fst (Counter.most_common (entity_frequencies self) 30).

(** Line 109, for all the selected entities: [entity_to_index[entity] = i]. *)
Definition index_entities (top : list str) : gmap (list ascii) Z :=
  fold_left (fun m p => <[snd p := Z.of_nat (fst p)]> m)
            (imap (fun i e => (i, e)) top) ∅.

(** Lines 112-114. *)
Definition node_size (freq : Z) : spec_float :=
  F64.min (F64.add F64.c0_3 (F64.mul (F64.of_int freq) F64.c0_1)) F64.c1_5.

(** Lines 117-120; [entity[0]] raises on an empty string ([None]). *)
Definition entity_type (entity : str) : option string :=
  match first_isupper entity with
  | None => None
  | Some true => Some "Proper Noun"%string
  | Some false => Some "Concept"%string
  end.

(** Line 128. *)
Definition connections (self : t) (entity : str) : Z :=
  Z.of_nat (length (filter (fun r => entity = r.1.1 ∨ entity = r.1.2)
                           (relationships self))).

(** Lines 108-130: the node made for the entity at position [i]. *)
Definition make_node (self : t) (i : nat) (entity : str) : option node :=
  match entity_type entity with
  | None => None
  | Some ty =>
      Some {| n_id := Z.of_nat i;
              n_label := entity;
              n_type := ty;
              n_size := node_size (Counter.get (entity_frequencies self) entity);
              n_color := nth (i mod length colors) colors ""%string;
              n_connections := connections self entity;
              n_frequency := Counter.get (entity_frequencies self) entity |}
  end.

(** [tuple(sorted([idx1, idx2]))] *)
Definition edge_key (idx1 idx2 : Z) : Z * Z :=
  (Z.min idx1 idx2, Z.max idx1 idx2).

(** Lines 136-149: the body of the loop over the relationships. *)
Definition add_edge (entity_to_index : gmap (list ascii) Z)
           (acc : list edge * gset (Z * Z)) (r : list ascii * list ascii * Z)
  : list edge * gset (Z * Z) :=
  let '(entity1, entity2, weight) := r in
  match entity_to_index !! entity1, entity_to_index !! entity2 with
  | Some idx1, Some idx2 =>
      if decide ((edge_key idx1 idx2 ∉ acc.2) ∧ 1 ≤ weight)
      then (acc.1 ++ [{| e_source := idx1; e_target := idx2;
                         e_weight := weight |}],
            acc.2 ∪ {[edge_key idx1 idx2]})
      else acc
  | _, _ => acc
  end.

Definition make_edges (entity_to_index : gmap (list ascii) Z)
           (rels : list (list ascii * list ascii * Z)) : list edge :=
  (fold_left (add_edge entity_to_index) rels ([], ∅)).1.

(** [build_graph], lines 82-156; [None] when it raises. *)
Definition build_graph (self : t) : option view :=
  let top := top_entities self in
  match top with
  | [] => Some [("nodes"%string, Nodes []); ("edges"%string, Edges [])]
  | _ :: _ =>
      match mapM (fun p => make_node self (fst p) (snd p))
                 (imap (fun i e => (i, e)) top) with
      | None => None
      | Some nodes =>
          Some [("nodes"%string, Nodes nodes);
                ("edges"%string,
                 Edges (make_edges (index_entities top) (relationships self)));
                ("total_entities"%string,
                 Int (Z.of_nat (size (entities self))));
                ("total_documents"%string,
                 Int (Z.of_nat (size (documents self))))]
      end
  end.

(** [get_node_count] *)
Definition get_node_count (self : t) : Z := Z.of_nat (size (entities self)).

Record detail : Type := mkDetail {
  det_entity : str;
  det_frequency : Z;
  det_documents : list str;
  det_related : list (list ascii * Z)   (* {'entity': .., 'weight': ..} *)
}.

(** Lines 170-175: the rows of the relationships that mention [entity]. *)
Definition related_rows (self : t) (entity : str) : list (list ascii * Z) :=
  omap (fun r : list ascii * list ascii * Z =>
          let '(e1, e2, weight) := r in
          if decide (e1 = entity) then Some (e2, weight)
          else if decide (e2 = entity) then Some (e1, weight)
          else None)
       (relationships self).

Section WithSetOrder.

(** The order in which Python goes through a [set] is not fixed by the
    language; it is taken as given, and lists every element once. *)
Variable set_iter : gset (list ascii) -> list (list ascii).
Hypothesis set_iter_perm : forall X, set_iter X ≡ₚ elements X.

(** [add_document], lines 14-31. *)
Definition add_document (self : t) (doc_id text : str) (chunks : list str) : t :=
  let self0 :=
    {| documents :=
         <[doc_id := {| doc_text := text; doc_chunks := chunks;
                        doc_entities := ∅ |}]> (documents self);
       entities := entities self;
       relationships := relationships self;
       entity_frequencies := entity_frequencies self |} in
  let entities := set_iter (_extract_entities text) in
  _build_relationships (fold_left (note_entity doc_id) entities self0) entities.

(** [get_entity_details], lines 162-184; [None] is the [None] that the
    method returns for an entity it does not know. *)
Definition get_entity_details (self : t) (entity : str) : option detail :=
  match entities self !! entity with
  | None => None
  | Some doc_ids =>
      Some {| det_entity := entity;
              det_frequency := Counter.get (entity_frequencies self) entity;
              det_documents := set_iter doc_ids;
              det_related :=
                firstn 5 (Counter.sorted_desc snd (related_rows self entity)) |}
  end.

(** The builder after the documents of [docs] were added in turn. *)
Definition ingest (self : t) (docs : list (list ascii * list ascii * list str)) : t :=
  fold_left (fun s d => add_document s d.1.1 d.1.2 d.2) docs self.

End WithSetOrder.

End KnowledgeGraphBuilder.

(* ===================================================================== *)
(** * Vocabulary of the statements, and the scenarios they are run on     *)
(* ===================================================================== *)

(** The vocabulary of the facts about binary32 arithmetic. *)
Module FloatTerms.






(** A value in units of [2^-149] as binary32 holds it: from [2^277] on
    it is [+inf]. *)
Definition clip (v : Z) : Z := if v <? 2 ^ 277 then v else 2 ^ 300.



End FloatTerms.

Module StoreVocabulary.
Import Py VectorStore.

(** The index invariant: as many rows as passage texts as metadata
    entries. *)
Definition well_formed (self : t) : Prop :=
  length (xb (index self)) = length (chunk_texts self) /\
  length (chunks_metadata self) = length (chunk_texts self).

(** The passages of the store: text and metadata, position by position. *)
Definition passages (self : t) : list (list ascii * gmap (list ascii) value) :=
  zip (chunk_texts self) (chunks_metadata self).

(** A passage belongs to a document. *)
Definition owned_by (document_id : str) (m : gmap (list ascii) value) : Prop :=
  m !! lit "document_id" = Some (VStr document_id).

#[global] Instance owned_by_dec document_id m : Decision (owned_by document_id m).
Proof. unfold owned_by. apply _. Defined.








(** A one-dimensional store for the examples: the encoder sends every
    text to the vector [[1.0]]. *)
Definition unit_encoder (text : str) : list spec_float := [F32.one].

Definition tag (document_id : string) : gmap (list ascii) value :=
  {[ lit "document_id" := VStr (lit document_id) ]}.

Definition no_files : disk := {| faiss_file := Missing; pkl_file := Missing |}.

(** Three passages of two documents, at the squared distances [0],
    [2^-40] and [1] from the query vector [[1.0]]. *)
Definition sample_rows : list (list spec_float) :=
  [[F32.one]; [F32.add F32.one (F32.pow2 (-20))]; [F32.zero]].

Definition sample_store : t :=
  {| dimension := 1;
     index := {| d := 1; xb := sample_rows |};
     chunks_metadata := [tag "A"; tag "B"; tag "A"];
     chunk_texts := [lit "x"; lit "y"; lit "z"] |}.

End StoreVocabulary.

Module Vocabulary.
Import Py KnowledgeGraphBuilder.

(** A relationship triple joins [a] and [b], in either direction. *)
Definition joins (a b : str) (r : list ascii * list ascii * Z) : Prop :=
  (r.1.1 = a ∧ r.1.2 = b) ∨ (r.1.1 = b ∧ r.1.2 = a).

#[global] Instance joins_dec a b r : Decision (joins a b r).
Proof. unfold joins. apply _. Defined.

(** The documents of an entity, as [entities] has them. *)
Definition docs_of (self : t) (entity : str) : gset (list ascii) :=
  default ∅ (entities self !! entity).

(** A document is in the set of an entity. *)
Definition tracked_in (doc_id : str) (s : t) (e : str) : Prop :=
  exists d, entities s !! e = Some d /\ doc_id ∈ d.

(** The key under which [build_graph] remembers an edge. *)
Definition key_of (e : edge) : Z * Z := edge_key (e_source e) (e_target e).

(** The edge that a relationship triple stands for in the view: both of
    its entities are among the selected ones and its weight is at least
    one. *)
Definition candidate (entity_to_index : gmap (list ascii) Z)
           (r : list ascii * list ascii * Z) : option edge :=
  match entity_to_index !! r.1.1, entity_to_index !! r.1.2 with
  | Some idx1, Some idx2 =>
      if decide (1 ≤ r.2)
      then Some {| e_source := idx1; e_target := idx2; e_weight := r.2 |}
      else None
  | _, _ => None
  end.

Definition candidates (entity_to_index : gmap (list ascii) Z)
           (rels : list (list ascii * list ascii * Z)) : list edge :=
  omap (candidate entity_to_index) rels.

(** [edges] keeps, for every unordered pair, the first of [cands] on that
    pair and nothing else. *)
Definition first_per_pair (cands edges : list edge) : Prop :=
  NoDup (map key_of edges) ∧
  (∀ e, e ∈ edges →
     ∃ pre post, cands = pre ++ e :: post ∧ ∀ c, c ∈ pre → key_of c ≠ key_of e) ∧
  (∀ c, c ∈ cands → ∃ e, e ∈ edges ∧ key_of e = key_of c).

(** The relationship triple [r] names [entity], as its first or as its
    second entity. *)
Definition names (entity : str) (r : list ascii * list ascii * Z) : Prop :=
  r.1.1 = entity ∨ r.1.2 = entity.

#[global] Instance names_dec entity r : Decision (names entity r).
Proof. unfold names. apply _. Defined.

(** The row that stands for the triple [r] in the details of [entity]:
    the other entity of the triple, with the weight of the triple. *)
Definition row_of (entity : str) (r : list ascii * list ascii * Z)
           (row : list ascii * Z) : Prop :=
  row.2 = r.2 ∧
  ((r.1.1 = entity ∧ row.1 = r.1.2) ∨
   (r.1.1 ≠ entity ∧ r.1.2 = entity ∧ row.1 = r.1.1)).

(** The node of the view that stands for [entity] has the id [i]. *)
Definition node_for (nodes : list node) (entity : str) (i : Z) : Prop :=
  ∃ n, n ∈ nodes ∧ n_label n = entity ∧ n_id n = i.

(** The edge [e] is drawn for the triple [r]: from the node of its first
    entity to the node of its second entity, with its weight. *)
Definition drawn (nodes : list node) (r : list ascii * list ascii * Z)
           (e : edge) : Prop :=
  node_for nodes r.1.1 (e_source e) ∧ node_for nodes r.1.2 (e_target e) ∧
  e_weight e = r.2.

(** The two documents of the example scenario. *)
Definition doc_a : str :=
  lit "Alice met Bob in Paris. Alice and Bob discussed Paris often.".
Definition doc_b : str := lit "Bob traveled to Paris again.".

Definition scenario : list (list ascii * list ascii * list str) :=
  [(lit "A", doc_a, [doc_a]); (lit "B", doc_b, [doc_b])].

(** One admissible order of iteration over a set. *)
Definition in_order (X : gset (list ascii)) : list (list ascii) := elements X.

Definition scenario_graph : t := ingest in_order init scenario.

End Vocabulary.
(* ===================================================================== *)
(** * The answer template, the endpoints and the data utilities            *)
(* ===================================================================== *)

Module Response.
Import Py VectorStore.

(** The line feed. *)
Definition nl : ascii := "010"%char.

(** [s.split(sep)] for a separator of one character. *)
Fixpoint split (sep : ascii) (s : str) : list str :=
  match s with
  | [] => [[]]
  | c :: s' =>
      if decide (c = sep) then [] :: split sep s'
      else match split sep s' with
           | h :: t => (c :: h) :: t
           | [] => [[c]]
           end
  end.

(** [sep.join(l)] *)
Fixpoint join (sep : str) (l : list str) : str :=
  match l with
  | [] => []
  | [x] => x
  | x :: l' => x ++ sep ++ join sep l'
  end.

(** [f"{v}"] for a value of a metadata dict. *)
Definition format_value (v : value) : str :=
  match v with
  | VStr s => s
  | VInt n => lit (NilZero.string_of_int (Z.to_int n))
  end.

(** Line 109: the block made for one chunk; a chunk without a
    ['document_name'] raises [KeyError] ([None]). *)
Definition source_block (chunk : result) : option str :=
  match r_metadata chunk !! lit "document_name" with
  | None => None
  | Some name =>
      Some (lit "[Source: " ++ format_value name ++ lit "]" ++ [nl]
            ++ r_text chunk)
  end.

Definition header : str := lit "Based on the provided documents:" ++ [nl; nl].

Definition apology : str :=
  lit "I couldn't find relevant information in the documents to answer your query.".

Definition closing (query : str) : str :=
  [nl; nl] ++ lit "This information is relevant to your query: '"
  ++ query ++ lit "'".

(** Line 126: the sentences that are kept. *)
Definition relevant_sentences (context : str) : list str :=
  firstn 3 (filter (fun s => strip s ≠ [] ∧ 20 < len s) (split nl context)).

(** [_template_response], lines 118-133. *)
Definition _template_response (query context : str) : str :=
  match context with
  | [] => header ++ apology
  | _ :: _ =>
      header ++ join [nl] (firstn 3 (relevant_sentences context))
      ++ closing query
  end.

(** [generate_response], lines 105-116. *)
Definition generate_response (query : str) (context_chunks : list result)
  : option str :=
  match mapM source_block context_chunks with
  | None => None
  | Some blocks => Some (_template_response query (join [nl; nl] blocks))
  end.

End Response.

Module Main.
Import Py VectorStore.

(** A record of [documents_db], lines 92-99. *)
Record doc_record : Type := mkRecord {
  rec_id : str;
  rec_name : str;
  rec_type : str;
  rec_size : Z;
  rec_chunks : Z;
  rec_uploaded_at : str
}.

(** The state that the endpoints share, lines 26-28 and 49. *)
Record app : Type := mkApp {
  documents_db : list doc_record;
  vector_store : VectorStore.t;
  kg_builder : KnowledgeGraphBuilder.t
}.

(** The state when the module is loaded; [fs] is what the constructor of
    the store finds on disk. *)
Definition start (fs : disk) : app :=
  {| documents_db := [];
     vector_store := VectorStore.init 384 fs;
     kg_builder := KnowledgeGraphBuilder.init |}.

(** Line 70: [file.filename.split('.')[-1].lower()] *)
Definition file_extension (filename : str) : str :=
  lower (List.last (Response.split "."%char filename) []).

(** The file types that [extract_text] accepts, lines 20-29. *)
Definition supported : list str := map lit ["pdf"; "txt"; "docx"; "md"]%string.

(** Lines 84-88: the metadata of the chunks of one file. *)
Definition chunk_metadata (file_id filename : str) (n : nat) : list meta :=
  map (fun i => <[lit "document_id" := VStr file_id]>
                (<[lit "document_name" := VStr filename]>
                 (<[lit "chunk_index" := VInt (Z.of_nat i)]> ∅)))
      (seq 0 n).

(** [sum(doc["chunks"] for doc in documents_db)] *)
Definition total_chunks (a : app) : Z :=
  fold_left Z.add (map rec_chunks (documents_db a)) 0.

Section WithServices.
Variable encode : str -> vector.
Variable set_iter : gset (list ascii) -> list (list ascii).

(** The body of the loop of [upload_documents], lines 66-108, for one
    file: [file_id] is the fresh identifier, [text] what [extract_text]
    read and [content_size], [uploaded_at] the size and the time stamp.
    [None] is the answer with status 500, before which nothing of the
    state was changed.  For a text without chunks the encoder is asked
    for an empty batch; what it answers is not part of the repository
    and the upload is let through, so that the states reached here
    include those of the program. *)
Definition upload_one (fuel : nat) (a : app) (file_id filename : str)
           (content_size : Z) (text uploaded_at : str) : option app :=
  if decide (file_extension filename ∈ supported) then
    match RAGEngine.chunk_text fuel RAGEngine.init text with
    | None => None
    | Some chunks =>
        match add_chunks encode (vector_store a) chunks
                (chunk_metadata file_id filename (length chunks)) None with
        | None => None
        | Some (store, _) =>
            Some {| documents_db :=
                      documents_db a ++
                      [{| rec_id := file_id; rec_name := filename;
                          rec_type := file_extension filename;
                          rec_size := content_size;
                          rec_chunks := Z.of_nat (length chunks);
                          rec_uploaded_at := uploaded_at |}];
                    vector_store := store;
                    kg_builder :=
                      KnowledgeGraphBuilder.add_document
                        set_iter (kg_builder a) file_id text chunks |}
        end
    end
  else None.

(** The endpoint [DELETE /documents/{document_id}], lines 124-144, when
    it answers with success; [None] is status 404 for an unknown
    document, or a call that raises. *)
Definition delete_endpoint (a : app) (document_id : str) : option app :=
  match find (fun d => bool_decide (rec_id d = document_id)) (documents_db a) with
  | None => None
  | Some _ =>
      match delete_document encode (vector_store a) document_id with
      | None => None
      | Some store =>
          Some {| documents_db :=
                    filter (fun d => rec_id d ≠ document_id) (documents_db a);
                  vector_store := store;
                  kg_builder := kg_builder a |}
      end
  end.

(** The states that requests to upload and to delete lead to, from a
    start without index files; an upload draws an identifier that no
    record has. *)
Inductive reachable : app -> Prop :=
| reach_start : reachable (start StoreVocabulary.no_files)
| reach_upload (a a' : app) (fuel : nat) (file_id filename : str)
               (content_size : Z) (text uploaded_at : str) :
    reachable a ->
    file_id ∉ map rec_id (documents_db a) ->
    upload_one fuel a file_id filename content_size text uploaded_at = Some a' ->
    reachable a'
| reach_delete (a a' : app) (document_id : str) :
    reachable a ->
    delete_endpoint a document_id = Some a' ->
    reachable a'.

End WithServices.

End Main.

Module MainTerms.
Import Py VectorStore Main.

(** A metadata dict as [upload_documents] writes it. *)
Definition uploaded_meta (ids : list str) (m : meta) : Prop :=
  exists file_id filename i,
    m = <[lit "document_id" := VStr file_id]>
        (<[lit "document_name" := VStr filename]>
         (<[lit "chunk_index" := VInt i]> ∅)) /\
    file_id ∈ ids.

(** What holds of the shared state between two requests. *)
Definition consistent (a : app) : Prop :=
  StoreVocabulary.well_formed (vector_store a) /\
  dimension (vector_store a) = 384 /\
  d (index (vector_store a)) = 384 /\
  NoDup (map rec_id (documents_db a)) /\
  Forall (uploaded_meta (map rec_id (documents_db a)))
         (chunks_metadata (vector_store a)) /\
  Forall (fun r =>
            Z.of_nat (length (filter (StoreVocabulary.owned_by (rec_id r))
                                     (chunks_metadata (vector_store a))))
            = rec_chunks r) (documents_db a) /\
  Forall (fun r => is_Some (KnowledgeGraphBuilder.documents (kg_builder a)
                              !! rec_id r)) (documents_db a) /\
  total_chunks a = get_size (vector_store a).

End MainTerms.

Module DataUtils.
Import Py.

(** [s.split()]: the pieces between runs of white space; [cur] is the
    piece read so far. *)
Fixpoint words (cur : str) (s : str) : list str :=
  match s with
  | [] => match cur with [] => [] | _ :: _ => [cur] end
  | c :: s' =>
      if isspace c
      then match cur with [] => words [] s' | _ :: _ => cur :: words [] s' end
      else words (cur ++ [c]) s'
  end.

Definition split (s : str) : list str := words [] s.

Definition pad : str := lit "<pad>".
Definition unk : str := lit "<unk>".

(** Line 15: [counter.most_common(max_size - 2)]; a number that is not
    positive selects nothing. *)
Definition ranked (text : str) (max_size : Z) : list str :=
  map fst (Counter.most_common (Counter.of_list (split text))
                               (Z.to_nat (max_size - 2))).

(** Line 17: [vocab.update({word: idx+2 ...})]. *)
Definition number (vocab : gmap (list ascii) Z) (ws : list str)
  : gmap (list ascii) Z :=
  fold_left (fun m p => <[snd p := Z.of_nat (fst p) + 2]> m)
            (imap (fun i w => (i, w)) ws) vocab.

(** [create_vocab], lines 12-18. *)
Definition create_vocab (text : str) (max_size : Z) : gmap (list ascii) Z :=
  number (<[unk := 1]> (<[pad := 0]> ∅)) (ranked text max_size).

(** [preprocess], lines 9-10; [vocab['<unk>']] is looked up for every
    token and raises [KeyError] ([None]) when it is missing. *)
Definition preprocess (text : str) (vocab : gmap (list ascii) Z)
  : option (list Z) :=
  mapM (fun token => match vocab !! unk with
                     | None => None
                     | Some u => Some (default u (vocab !! token))
                     end)
       (split text).

(** [torch.tensor(n)] on a Python [int]: a tensor of type int64 that holds
    [n]; for an [int] outside [-2^63 .. 2^63 - 1] the call raises
    [RuntimeError] ([None]). *)
Definition tensor (n : Z) : option Z :=
  if (- 2 ^ 63 <=? n) && (n <? 2 ^ 63) then Some n else None.

(** [TextDataset] of [train.py], lines 6-12, over the list of ids:
    [__len__] and [__getitem__].  The two elements of the returned tuple
    are evaluated from left to right, each an indexing of [self.data]
    ([IndexError] out of range) followed by [torch.tensor]. *)
Definition dataset_len (data : list Z) : Z := Z.of_nat (length data) - 1.

Definition dataset_getitem (data : list Z) (idx : Z) : option (Z * Z) :=
  match VectorStore.getitem data idx with
  | None => None
  | Some a =>
      match tensor a with
      | None => None
      | Some x =>
          match VectorStore.getitem data (idx + 1) with
          | None => None
          | Some b =>
              match tensor b with
              | None => None
              | Some y => Some (x, y)
              end
          end
      end
  end.

End DataUtils.

(* ===================================================================== *)
(** * Vocabulary of the further properties                                 *)
(* ===================================================================== *)

Module ChunkerVocabulary.
Import Py.

(** [c] is a piece of [s]: some characters, then [c], then the rest. *)
Definition excerpt (c s : str) : Prop := exists pre post, s = pre ++ c ++ post.

(** Every character of the string is whitespace. *)
Definition blank (s : str) : Prop := Forall (fun c => isspace c = true) s.

(** The string neither starts nor ends with whitespace. *)
Definition trimmed (s : str) : Prop := strip s = s.

(** Whitespace is single spaces only: every whitespace character is a
    space, and a space is followed by a character that is not whitespace. *)
Fixpoint single_spaced (s : str) : Prop :=
  match s with
  | [] => True
  | c :: s' =>
      (isspace c = true -> c = " "%char /\
         match s' with [] => True | d :: _ => isspace d = false end) /\
      single_spaced s'
  end.

(** What [chunk_text] may emit for the cleaned text [text]: a piece of it
    that is not empty and has no whitespace at its ends, and that is no
    longer than [chunk_size] when that is not negative. *)
Definition good_chunk (self : RAGEngine.t) (text chunk : str) : Prop :=
  chunk <> [] /\ trimmed chunk /\ excerpt chunk text /\
  (0 <= RAGEngine.chunk_size self -> len chunk <= RAGEngine.chunk_size self).

End ChunkerVocabulary.

Module CleanVocabulary.
Import Py.

(** The text with every run of whitespace replaced by one space;
    [in_run] tells that the character before was whitespace. *)
Fixpoint collapse (in_run : bool) (s : str) : str :=
  match s with
  | [] => []
  | c :: s' =>
      if isspace c
      then if in_run then collapse true s' else " "%char :: collapse true s'
      else c :: collapse false s'
  end.

(** The characters of a string that are not whitespace, in order. *)
Definition ink (s : str) : str := filter (fun c => isspace c = false) s.

(** The number of whitespace characters at the start of a string. *)
Fixpoint lead (s : str) : nat :=
  match s with
  | c :: s' => if isspace c then S (lead s') else O
  | [] => O
  end.

(** The character at position [i] of [text] lies inside one of the
    chunks, taken as a piece of [text] at its place. *)
Definition covered (text : str) (chunks : list str) (i : nat) : Prop :=
  exists chunk pre post,
    chunk ∈ chunks /\ text = pre ++ chunk ++ post /\
    (length pre <= i < length pre + length chunk)%nat.

End CleanVocabulary.

Module StoreTerms.
Import Py VectorStore StoreVocabulary.

(** The passages of the store that are not of the document. *)
Definition others (document_id : str) (self : t)
  : list (list ascii * gmap (list ascii) value) :=
  filter (fun p => ~ owned_by document_id (snd p)) (passages self).

(** The entry of the answer for the hit [h] at position [j], when the hit
    is a row of the store. *)
Definition entry (self : t) (j : nat) (h : spec_float * Z) : result :=
  {| r_text := nth (Z.to_nat (snd h)) (chunk_texts self) [];
     r_metadata := nth (Z.to_nat (snd h)) (chunks_metadata self) ∅;
     r_score := score (fst h);
     r_rank := Z.of_nat j + 1 |}.

End StoreTerms.

Module RegexTerms.
Import Py Re.

(** Every character class of the pattern lies within [P]. *)
Fixpoint classes_within (P : ascii -> bool) (r : regex) : Prop :=
  match r with
  | Cls p => forall c, p c = true -> P c = true
  | WordB => True
  | Cat r1 r2 => classes_within P r1 /\ classes_within P r2
  | Star r1 => classes_within P r1
  end.

(** The least number of characters that a match of the pattern takes. *)
Fixpoint min_len (r : regex) : nat :=
  match r with
  | Cls _ => 1
  | WordB => 0
  | Cat r1 r2 => min_len r1 + min_len r2
  | Star _ => 0
  end.

(** A letter of the English alphabet or a white-space character. *)
Definition letter_or_space (c : ascii) : bool := is_azAZ c || isspace c.

End RegexTerms.

Module GraphInvariants.
Import Py KnowledgeGraphBuilder Vocabulary.

(** The entity is a key of [entities]. *)
Definition tracked (s : t) (e : str) : Prop := is_Some (entities s !! e).

(** The tables of the builder tell the same story: the counter has one
    entry per tracked entity, a tracked entity has a positive count and a
    document, every document of an entity is stored, and a stored
    document lists what was extracted from its text. *)
Definition tables_agree (s : t) : Prop :=
  NoDup (map fst (entity_frequencies s)) ∧
  (∀ e, e ∈ map fst (entity_frequencies s) ↔ tracked s e) ∧
  (∀ e, tracked s e →
        1 ≤ Counter.get (entity_frequencies s) e ∧ docs_of s e ≠ ∅) ∧
  (∀ e d, d ∈ docs_of s e → is_Some (documents s !! d)) ∧
  (∀ d doc, documents s !! d = Some doc →
            doc_entities doc = _extract_entities (doc_text doc) ∧
            ∀ e, e ∈ doc_entities doc → d ∈ docs_of s e).

(** Every relationship joins two different tracked entities, and its
    weight is at least one and at most the number of documents that the
    two share now. *)
Definition relationships_sound (s : t) : Prop :=
  ∀ a b w, (a, b, w) ∈ relationships s →
    a ≠ b ∧ tracked s a ∧ tracked s b ∧
    1 ≤ w ≤ Z.of_nat (size (docs_of s a ∩ docs_of s b)).

End GraphInvariants.

Module ViewTerms.
Import Py KnowledgeGraphBuilder Vocabulary.

(** The first relationship recorded for a pair of entities has weight
    one. *)
Definition first_weights_one (s : t) : Prop :=
  ∀ pre r post, relationships s = pre ++ r :: post →
    Forall (λ r', ¬ joins r.1.1 r.1.2 r') pre → r.2 = 1.

(** Two entities that share a document have a relationship. *)
Definition shared_recorded (s : t) : Prop :=
  ∀ a b, a ≠ b → docs_of s a ∩ docs_of s b ≠ ∅ →
         Exists (joins a b) (relationships s).

(** The list under [key] in the view. *)
Definition nodes_of (v : view) (nodes : list node) : Prop :=
  In ("nodes"%string, Nodes nodes) v.
Definition edges_of (v : view) (es : list edge) : Prop :=
  In ("edges"%string, Edges es) v.

End ViewTerms.

(* ===================================================================== *)
(** * Further scenarios                                                    *)
(* ===================================================================== *)

Module Cases.
Import Py VectorStore StoreVocabulary.

(** An engine with short chunks. *)
Definition short_engine : RAGEngine.t :=
  {| RAGEngine.chunk_size := 12; RAGEngine.chunk_overlap := 3 |}.

(** An encoder of the dimension that the store is built with. *)
Definition wide_encoder (text : str) : vector := repeat F32.one 384.

(** A search result that names its document. *)
Definition shown : result :=
  {| r_text := lit "Alice met Bob in Paris last week.";
     r_metadata := {[ lit "document_name" := VStr (lit "trip.txt") ]};
     r_score := F32.one;
     r_rank := 1 |}.

(** The state after one upload. *)
Definition uploaded : option Main.app :=
  Main.upload_one wide_encoder Vocabulary.in_order 100
                  (Main.start no_files) (lit "A") (lit "trip.TXT") 60
                  Vocabulary.doc_a (lit "2024-01-01T00:00:00").

End Cases.

(* ===================================================================== *)
(** * Properties of the chunker                                            *)
(* ===================================================================== *)

Module ChunkerProofs.
Import Py Re RAGEngine.

Lemma lstrip_idem (s : str) : lstrip (lstrip s) = lstrip s.
Proof.
  induction s as [|c s IH]; simpl; [reflexivity|].
  destruct (isspace c) eqn:E; [exact IH|].
  simpl. rewrite E. reflexivity.
Qed.

Lemma lstrip_suffix (s : str) : exists p, s = p ++ lstrip s.
Proof.
  induction s as [|c s [p IH]]; simpl.
  - exists []. reflexivity.
  - destruct (isspace c).
    + exists (c :: p). simpl. congruence.
    + exists []. reflexivity.
Qed.

(** What [lstrip] returns starts with a character that is not a space. *)
Lemma lstrip_head (s : str) (c : ascii) (t : str) :
  lstrip s = c :: t -> isspace c = false.
Proof.
  induction s as [|d s IH]; simpl; [discriminate|].
  destruct (isspace d) eqn:E; [exact IH|].
  intros [= <- _]. exact E.
Qed.

Lemma lstrip_fixed (c : ascii) (t : str) :
  isspace c = false -> lstrip (c :: t) = c :: t.
Proof. intros E. simpl. rewrite E. reflexivity. Qed.

(** [strip] leaves a stripped string alone. *)
Lemma strip_idem (s : str) : strip (strip s) = strip s.
Proof.
  unfold strip, rstrip.
  set (u := lstrip s).
  destruct (lstrip_suffix (rev u)) as [p Hp].
  set (v := lstrip (rev u)) in *.
  assert (Hu : u = rev v ++ rev p).
  { rewrite <- (rev_involutive u), Hp, rev_app_distr. reflexivity. }
  assert (Hl : lstrip (rev v) = rev v).
  { destruct (rev v) as [|c t] eqn:Ev; [reflexivity|].
    apply lstrip_fixed.
    exact (lstrip_head s c (t ++ rev p) Hu). }
  rewrite Hl, rev_involutive.
  unfold v. rewrite lstrip_idem. reflexivity.
Qed.

Lemma len_nonneg (s : str) : 0 <= len s.
Proof. unfold len. lia. Qed.

(** A slice from [0] to a bound at or after the end is the whole string. *)
Lemma slice_whole (s : str) (j : Z) : len s <= j -> slice s 0 j = s.
Proof.
  intros Hj. pose proof (len_nonneg s) as Hn.
  assert (H0 : clamp (len s) 0 = 0) by (unfold clamp; simpl; lia).
  assert (H1 : clamp (len s) j = len s).
  { unfold clamp. destruct (j <? 0) eqn:E; [apply Z.ltb_lt in E|]; lia. }
  unfold slice. rewrite H0, H1, Z.sub_0_r.
  unfold len. rewrite Nat2Z.id. simpl. apply firstn_all.
Qed.

(** One turn of the loop. *)
Lemma chunk_loop_step (fuel : nat) (self : t) (text : str)
      (chunks : list str) (start : Z) :
  start < len text ->
  chunk_loop (S fuel) self text chunks start =
  chunk_loop fuel self text
    (emit chunks (strip (slice text start (window_end self text start))))
    (next_start self text start).
Proof.
  intros H. apply Z.ltb_lt in H. simpl. rewrite H. reflexivity.
Qed.

Lemma chunk_loop_done (fuel : nat) (self : t) (text : str)
      (chunks : list str) (start : Z) :
  len text <= start -> chunk_loop fuel self text chunks start = Some chunks.
Proof.
  intros H. apply Z.ltb_ge in H. destruct fuel; simpl; rewrite H; reflexivity.
Qed.

Lemma chunk_loop_out_of_fuel (self : t) (text : str)
      (chunks : list str) (start : Z) :
  start < len text -> chunk_loop O self text chunks start = None.
Proof. intros H. apply Z.ltb_lt in H. simpl. rewrite H. reflexivity. Qed.

(** A result does not depend on the fuel that was left over. *)
Lemma chunk_loop_fuel_mono (self : t) (text : str) (fuel fuel' : nat) :
  (fuel <= fuel')%nat ->
  forall chunks start r,
    chunk_loop fuel self text chunks start = Some r ->
    chunk_loop fuel' self text chunks start = Some r.
Proof.
  revert fuel'. induction fuel as [|fuel IH]; intros fuel' Hle chunks start r.
  - destruct (Z.lt_ge_cases start (len text)) as [Hlt|Hge].
    + rewrite chunk_loop_out_of_fuel by exact Hlt. discriminate.
    + rewrite !chunk_loop_done by exact Hge. trivial.
  - destruct fuel' as [|fuel']; [lia|].
    destruct (Z.lt_ge_cases start (len text)) as [Hlt|Hge].
    + rewrite !chunk_loop_step by exact Hlt. apply IH. lia.
    + rewrite !chunk_loop_done by exact Hge. trivial.
Qed.

(** Forward progress: a snapped end lies at least [chunk_size / 2 + 2]
    characters after the start (the terminator is at an index above half a
    window, and the end is one past it), so an overlap of at most
    [chunk_size / 2 + 1] cannot undo it. *)
Lemma next_start_progress (self : t) (text : str) (start : Z) :
  chunk_overlap self < chunk_size self ->
  2 * chunk_overlap self <= chunk_size self + 2 ->
  start < next_start self text start.
Proof.
  intros H1 H2. unfold next_start, window_end.
  destruct (start + chunk_size self <? len text); [|lia].
  destruct (chunk_size self <? 2 * last_period _) eqn:E; [|lia].
  apply Z.ltb_lt in E. lia.
Qed.

(** With progress at every turn, the loop ends within as many turns as
    there are characters left. *)
Lemma chunk_loop_enough (self : t) (text : str) :
  (forall start, start < next_start self text start) ->
  forall fuel chunks start,
    (Z.to_nat (len text - start) <= fuel)%nat ->
    exists r, chunk_loop fuel self text chunks start = Some r.
Proof.
  intros Hp. induction fuel as [|fuel IH]; intros chunks start Hf.
  - exists chunks. apply chunk_loop_done. lia.
  - destruct (Z.lt_ge_cases start (len text)) as [Hlt|Hge].
    + rewrite chunk_loop_step by exact Hlt. apply IH.
      specialize (Hp start). lia.
    + exists chunks. apply chunk_loop_done. exact Hge.
Qed.

(** C1 (as amended): a cleaned text that is not empty, shorter than
    [chunk_size] and no longer than [chunk_size - chunk_overlap] gives
    exactly one chunk, the cleaned text itself. *)
Theorem chunk_text_short_single (self : t) (text : str) (fuel : nat) :
  (0 < fuel)%nat ->
  0 < len (clean text) < chunk_size self ->
  len (clean text) <= chunk_size self - chunk_overlap self ->
  chunk_text fuel self text = Some [clean text].
Proof.
  intros Hf [Hpos Hlt] Hov. unfold chunk_text.
  destruct (len (clean text) =? 0) eqn:E; [apply Z.eqb_eq in E; lia|].
  destruct fuel as [|fuel]; [lia|].
  rewrite chunk_loop_step by lia.
  assert (Hend : window_end self (clean text) 0 = chunk_size self).
  { unfold window_end. rewrite Z.add_0_l.
    destruct (chunk_size self <? len (clean text)) eqn:E'; [|reflexivity].
    apply Z.ltb_lt in E'. lia. }
  unfold next_start. rewrite Hend.
  rewrite slice_whole by lia.
  assert (Hs : strip (clean text) = clean text) by apply strip_idem.
  rewrite Hs.
  rewrite chunk_loop_done by lia.
  destruct (clean text) as [|c s] eqn:Ec; [unfold len in Hpos; simpl in Hpos; lia|].
  reflexivity.
Qed.

(** The statement of C1 on a text with runs of spaces. *)
Lemma chunk_text_short_single_witness :
  chunk_text 1 init (lit "  Alice met   Bob. ") = Some [lit "Alice met Bob."].
Proof.
  apply (chunk_text_short_single init (lit "  Alice met   Bob. ") 1).
  - lia.
  - vm_compute. split; reflexivity.
  - vm_compute. discriminate.
Defined.

(** C1 fails as stated: under the configuration of [__init__], a cleaned
    text of 460 characters is shorter than [chunk_size] and comes back as
    two chunks, the text and its last ten characters again. *)
Lemma chunk_text_short_two_chunks :
  let text := repeat "a"%char 460 in
  (0 < len (clean text) < chunk_size init) /\
  chunk_text 2 init text = Some [clean text; repeat "a"%char 10] /\
  forall fuel, chunk_text fuel init text <> Some [clean text].
Proof.
  intros text. split; [vm_compute; split; reflexivity|].
  assert (H2 : chunk_text 2 init text = Some [clean text; repeat "a"%char 10])
    by (vm_compute; reflexivity).
  split; [exact H2|].
  intros fuel.
  destruct fuel as [|[|fuel]]; [vm_compute; discriminate ..|].
  unfold chunk_text in *.
  destruct (len (clean text) =? 0); [discriminate|].
  rewrite (chunk_loop_fuel_mono init (clean text) 2 (S (S fuel)) ltac:(lia) _ _ _ H2).
  intros [= H].
Qed.

(** A window that starts again where it started keeps the loop from
    ending. *)
Lemma chunk_loop_stalls (self : t) (text : str) (start : Z) :
  start < len text ->
  next_start self text start = start ->
  forall fuel chunks, chunk_loop fuel self text chunks start = None.
Proof.
  intros Hlt Hs. induction fuel as [|fuel IH]; intros chunks.
  - apply chunk_loop_out_of_fuel, Hlt.
  - rewrite chunk_loop_step by exact Hlt. rewrite Hs. apply IH.
Qed.

(** C2 (as amended): when [chunk_overlap < chunk_size] and
    [2 * chunk_overlap <= chunk_size + 2], as under the configuration of
    [__init__], every turn of the loop moves the start of the window
    strictly forward, also after the end was snapped back to a sentence
    terminator, and [chunk_text] returns: as many turns as the cleaned text
    has characters are enough. *)
Theorem chunk_text_progress_terminates (self : t) (text : str) :
  chunk_overlap self < chunk_size self ->
  2 * chunk_overlap self <= chunk_size self + 2 ->
  (forall start, start < next_start self (clean text) start) /\
  exists chunks, forall fuel,
    (length (clean text) <= fuel)%nat ->
    chunk_text fuel self text = Some chunks.
Proof.
  intros H1 H2.
  assert (Hp : forall start, start < next_start self (clean text) start)
    by (intros; apply next_start_progress; assumption).
  split; [exact Hp|].
  unfold chunk_text.
  destruct (len (clean text) =? 0); [exists []; reflexivity|].
  destruct (chunk_loop_enough self (clean text) Hp
              (length (clean text)) [] 0) as [r Hr]; [unfold len; lia|].
  exists r. intros fuel Hf.
  exact (chunk_loop_fuel_mono _ _ _ _ Hf _ _ _ Hr).
Qed.

(** C2 fails as stated, and the bound above is the first that works: with
    [chunk_size = 10] and [chunk_overlap = 7], and with [chunk_size = 11]
    and [chunk_overlap = 7], the overlap is smaller than the window and
    [2 * chunk_overlap = chunk_size + 4] or [chunk_size + 3]; on the text
    below the first window is snapped back to end at 7, right after the
    terminator at index 6, the next window starts at 0 again, and
    [chunk_text] never returns. *)
Lemma chunk_text_overlap_loops :
  let text := lit "aaaaaa. aaaaaaaaaaaa" in
  let even := {| chunk_size := 10; chunk_overlap := 7 |} in
  let odd := {| chunk_size := 11; chunk_overlap := 7 |} in
  clean text = text /\
  (chunk_overlap even < chunk_size even /\
   window_end even text 0 = 7 /\
   next_start even text 0 = 0 /\
   forall fuel, chunk_text fuel even text = None) /\
  (chunk_overlap odd < chunk_size odd /\
   window_end odd text 0 = 7 /\
   next_start odd text 0 = 0 /\
   forall fuel, chunk_text fuel odd text = None).
Proof.
  intros text even odd.
  assert (Hc : clean text = text) by (vm_compute; reflexivity).
  assert (Hl : len text = 20) by (vm_compute; reflexivity).
  assert (Hloop : forall self, next_start self text 0 = 0 ->
                  forall fuel, chunk_text fuel self text = None).
  { intros self Hs fuel. unfold chunk_text. rewrite Hc, Hl.
    simpl (20 =? 0). apply chunk_loop_stalls; [lia | exact Hs]. }
  split; [exact Hc|].
  split; (split; [reflexivity|]; split; [vm_compute; reflexivity|];
          split; [vm_compute; reflexivity|]; apply Hloop;
          vm_compute; reflexivity).
Qed.

End ChunkerProofs.
(* ===================================================================== *)
(** * binary32 arithmetic: rounding, [1 + d] and [1 / x]                   *)
(* ===================================================================== *)

Module FloatFacts.
Import FloatTerms.



(** ** The number of binary digits *)





(** ** The numbers of binary32 *)






(** ** Rounding to the nearest, ties to even *)







(** ** Shifting a mantissa to the right *)








(** ** [binary_round_aux] *)












(** ** Rounding to 24 digits *)




Lemma clip_mono (v1 v2 : Z) : v1 <= v2 -> clip v1 <= clip v2.
Proof.
  intros H. unfold clip.
  destruct (Z.ltb_spec v1 (2 ^ 277)); destruct (Z.ltb_spec v2 (2 ^ 277)); lia.
Qed.

Lemma clip_upper (v : Z) : clip v <= 2 ^ 300.
Proof. unfold clip. destruct (Z.ltb_spec v (2 ^ 277)); lia. Qed.

Lemma clip_lower (a v : Z) : a <= v -> a <= 2 ^ 277 -> a <= clip v.
Proof. unfold clip. destruct (Z.ltb_spec v (2 ^ 277)); lia. Qed.

(** ** [1 + d] *)





(** ** [1 / x] *)









(** ** The sum [1 + d] as a value *)






End FloatFacts.

(* ===================================================================== *)
(** * The score of a distance                                              *)
(* ===================================================================== *)

Module ScoreFacts.
Import VectorStore StoreVocabulary FloatTerms FloatFacts.










End ScoreFacts.


(* ===================================================================== *)
(** * Properties of the similarity index                                   *)
(* ===================================================================== *)

Module StoreProofs.
Import Py VectorStore StoreVocabulary.

(** ** The invariant *)

Lemma index_add_rows (ix ix' : IndexFlatL2) (x : list (list spec_float)) :
  index_add ix x = Some ix' -> d ix' = d ix /\ xb ix' = xb ix ++ x.
Proof.
  unfold index_add. destruct (forallb _ x); [|discriminate].
  intros [= <-]. split; reflexivity.
Qed.

Lemma index_add_ok (ix : IndexFlatL2) (x : list (list spec_float)) :
  Forall (fun v => Z.of_nat (length v) = d ix) x ->
  index_add ix x = Some {| d := d ix; xb := xb ix ++ x |}.
Proof.
  intros H. unfold index_add.
  assert (E : forallb (fun v => Z.of_nat (length v) =? d ix) x = true).
  { apply forallb_forall. intros v Hv. apply Z.eqb_eq.
    rewrite Forall_forall in H. apply H, list_elem_of_In, Hv. }
  rewrite E. reflexivity.
Qed.

Lemma init_no_files (dimension : Z) : well_formed (init dimension no_files).
Proof. split; reflexivity. Qed.

Lemma clear_well_formed (self : t) : well_formed (clear self).
Proof. split; reflexivity. Qed.

(** A store that was saved comes back as it was. *)
Lemma init_saved (self : t) :
  init (dimension self) (_save_index self) =
  {| dimension := dimension self; index := index self;
     chunks_metadata := chunks_metadata self; chunk_texts := chunk_texts self |}.
Proof. reflexivity. Qed.

Lemma add_chunks_well_formed (encode : list ascii -> list spec_float)
      (self self' : t) (chunks : list str)
      (metadata : list (gmap (list ascii) value))
      (embeddings : option (list (list spec_float))) (ids : list Z) :
  well_formed self ->
  length metadata = length chunks ->
  (forall e, embeddings = Some e -> length e = length chunks) ->
  add_chunks encode self chunks metadata embeddings = Some (self', ids) ->
  well_formed self' /\
  get_size self' = get_size self + Z.of_nat (length chunks) /\
  chunk_texts self' = chunk_texts self ++ chunks /\
  chunks_metadata self' = chunks_metadata self ++ metadata /\
  exists rows, xb (index self') = xb (index self) ++ rows /\
               length rows = length chunks.
Proof.
  intros [Hx Hm] Hlen Hemb. unfold add_chunks.
  set (rows := match embeddings with
               | Some e => e
               | None => generate_embeddings encode chunks
               end).
  assert (Hrows : length rows = length chunks).
  { unfold rows. destruct embeddings as [e|]; [apply Hemb; reflexivity|].
    unfold generate_embeddings. apply length_map. }
  destruct (index_add (index self) rows) as [ix|] eqn:E; [|discriminate].
  intros [= <- <-]. apply index_add_rows in E as [_ E].
  unfold well_formed, get_size, ntotal. simpl. rewrite E, !length_app.
  repeat split; try lia.
  exists rows. split; [reflexivity|exact Hrows].
Qed.

(** C5, on the store made when [<index_path>.faiss] can be read and
    [<index_path>.pkl] cannot: [_load_index] has put the index read from
    the file in place when the pickle fails, so [get_size] is the number of
    its rows while the two lists are empty. *)
Theorem init_without_pickle (dimension : Z) (ix : IndexFlatL2) :
  let self := init dimension {| faiss_file := Holds ix;
                                pkl_file := Unreadable |} in
  get_size self = ntotal ix /\
  chunk_texts self = [] /\ chunks_metadata self = [].
Proof. repeat split. Qed.

(** ** Deleting a document *)

Lemma getitem_of_nat {A : Type} (l : list A) (i : nat) :
  getitem l (Z.of_nat i) = nth_error l i.
Proof.
  unfold getitem.
  destruct (Z.of_nat i <? - Z.of_nat (length l)) eqn:E1;
    [apply Z.ltb_lt in E1; lia|].
  destruct (Z.of_nat (length l) <=? Z.of_nat i) eqn:E2; simpl.
  - apply Z.leb_le in E2. symmetry. apply nth_error_None. lia.
  - destruct (Z.of_nat i <? 0) eqn:E3; [apply Z.ltb_lt in E3; lia|].
    rewrite Nat2Z.id. reflexivity.
Qed.

Lemma getitem_after {A : Type} (pre : list A) (x : A) (l : list A) :
  getitem (pre ++ x :: l) (Z.of_nat (length pre)) = Some x.
Proof.
  rewrite getitem_of_nat, nth_error_app2 by lia.
  rewrite Nat.sub_diag. reflexivity.
Qed.

Section Delete.
Variable document_id : list ascii.

(** Lines 107-110, on the metadata from position [off] on. *)
Let keep_from (off : nat) (ms : list (gmap (list ascii) value)) : list Z :=
  omap (fun p => if decide (snd p !! lit "document_id" = Some (VStr document_id))
                 then None else Some (Z.of_nat (fst p)))
       (imap (fun i m => ((off + i)%nat, m)) ms).

Lemma keep_from_cons (off : nat) (m : gmap (list ascii) value)
      (ms : list (gmap (list ascii) value)) :
  keep_from off (m :: ms) =
  (if decide (owned_by document_id m) then [] else [Z.of_nat off])
  ++ keep_from (S off) ms.
Proof.
  unfold keep_from. rewrite imap_cons. simpl. rewrite Nat.add_0_r.
  rewrite (imap_ext _ (fun i m => ((S off + i)%nat, m)))
    by (intros i x _; simpl; f_equal; lia).
  unfold owned_by. destruct (decide _); reflexivity.
Qed.

Lemma keep_from_length (off : nat) (ms : list (gmap (list ascii) value)) :
  length (keep_from off ms) =
  length (filter (fun m => ~ owned_by document_id m) ms).
Proof.
  revert off. induction ms as [|m ms IH]; intros off; [reflexivity|].
  rewrite keep_from_cons, length_app, IH, filter_cons.
  destruct (decide (owned_by document_id m)) as [Ho|Ho].
  - destruct (decide (~ owned_by document_id m)); [contradiction|reflexivity].
  - destruct (decide (~ owned_by document_id m)); [reflexivity|contradiction].
Qed.

(** Lines 118-119: the texts and the metadata at the kept positions are
    those of the passages of other documents, in their order. *)
Lemma keep_from_items (ms : list (gmap (list ascii) value)) :
  forall (ts pre : list str) (mpre : list (gmap (list ascii) value)),
    length ts = length ms -> length pre = length mpre ->
    mapM (getitem (pre ++ ts)) (keep_from (length pre) ms) =
      Some (map fst (filter (fun p => ~ owned_by document_id (snd p)) (zip ts ms)))
    /\
    mapM (getitem (mpre ++ ms)) (keep_from (length pre) ms) =
      Some (map snd (filter (fun p => ~ owned_by document_id (snd p)) (zip ts ms))).
Proof.
  induction ms as [|m ms IH]; intros ts pre mpre Hlen Hpre.
  - destruct ts; [|discriminate]. split; reflexivity.
  - destruct ts as [|t ts]; [discriminate|]. injection Hlen as Hlen.
    rewrite keep_from_cons.
    destruct (IH ts (pre ++ [t]) (mpre ++ [m]) Hlen) as [IH1 IH2];
      [rewrite !length_app; simpl; lia|].
    rewrite length_app in IH1, IH2. simpl in IH1, IH2.
    rewrite Nat.add_1_r, <- app_assoc in IH1, IH2. simpl in IH1, IH2.
    change (zip (t :: ts) (m :: ms)) with ((t, m) :: zip ts ms).
    rewrite filter_cons. simpl.
    destruct (decide (owned_by document_id m)) as [Ho|Ho].
    + destruct (decide (~ owned_by document_id m)); [contradiction|].
      simpl. split; assumption.
    + destruct (decide (~ owned_by document_id m)); [|contradiction].
      split.
      * apply mapM_Some_2. simpl. constructor; [apply getitem_after|].
        apply mapM_Some_1, IH1.
      * apply mapM_Some_2. simpl. constructor;
          [rewrite Hpre; apply getitem_after|].
        apply mapM_Some_1, IH2.
Qed.

Lemma indices_to_keep_from (self : t) :
  indices_to_keep self document_id = keep_from O (chunks_metadata self).
Proof. reflexivity. Qed.

Lemma filter_split_length {A : Type} (P : A -> Prop)
      `{!forall x, Decision (P x)} (l : list A) :
  (length (filter (fun x => ~ P x) l) + length (filter P l))%nat = length l.
Proof.
  induction l as [|x l IH]; [reflexivity|].
  rewrite !filter_cons.
  destruct (decide (P x)); destruct (decide (~ P x)); simpl; try lia; tauto.
Qed.

Lemma zip_fst_snd_map {A B : Type} (l : list (A * B)) :
  zip (map fst l) (map snd l) = l.
Proof. induction l as [|[a b] l IH]; simpl; [reflexivity|]. f_equal. exact IH. Qed.

Lemma filter_snd_zip {A B : Type} (P : B -> Prop)
      (HP : forall x, Decision (P x))
      (HQ : forall p : A * B, Decision (P (snd p)))
      (ts : list A) (ms : list B) :
  length ts = length ms ->
  length (@filter _ _ _ (fun p => P (snd p)) HQ (zip ts ms))
  = length (@filter _ _ _ P HP ms).
Proof.
  revert ts. induction ms as [|m ms IH]; intros [|t ts] Hlen;
    try discriminate; [reflexivity|].
  injection Hlen as Hlen.
  change (zip (t :: ts) (m :: ms)) with ((t, m) :: zip ts ms).
  rewrite !filter_cons. unfold decide. simpl.
  destruct (HQ (t, m)) as [Hq|Hq]; destruct (HP m) as [Hp|Hp]; simpl;
    try rewrite (IH ts Hlen); try reflexivity; simpl in Hq; contradiction.
Qed.

Variable encode : list ascii -> list spec_float.

(** A document with a passage leaves fewer positions to keep than there
    are passages. *)
Lemma keep_fewer (ms : list (gmap (list ascii) value)) :
  Exists (owned_by document_id) ms ->
  (Z.of_nat (length (keep_from O ms)) =? Z.of_nat (length ms)) = false.
Proof.
  intros Hex. apply Z.eqb_neq. rewrite keep_from_length.
  pose proof (filter_split_length (owned_by document_id) ms) as Hsplit.
  assert (Hlt : (0 < length (filter (owned_by document_id) ms))%nat).
  { clear -Hex. induction Hex as [m ms Ho|m ms Hex IH]; rewrite filter_cons.
    - destruct (decide _); [simpl; lia|contradiction].
    - destruct (decide _); simpl; lia. }
  lia.
Qed.

(** C4 (as amended): on every store, when no passage belongs to the
    document, [delete_document] returns the store as it is.  When some
    do, the store is one whose counts agree and the encoder gives vectors
    of its dimension, the passages of the new store are the passages of
    the other documents in their order, [get_size] goes down by the number
    of passages removed, the counts of rows, texts and metadata agree
    again, and when no passage is left the index is the empty index of
    the store's dimension.  On every store, a deletion that removes a
    document and leaves no text resets the index to the empty index of
    the store's dimension. *)
Theorem delete_document_spec (self : t) :
  (Forall (fun m => ~ owned_by document_id m) (chunks_metadata self) ->
   delete_document encode self document_id = Some self) /\
  (well_formed self ->
   (forall text, Z.of_nat (length (encode text)) = dimension self) ->
   Exists (owned_by document_id) (chunks_metadata self) ->
   exists self',
     delete_document encode self document_id = Some self' /\
     passages self' =
       filter (fun p => ~ owned_by document_id (snd p)) (passages self) /\
     well_formed self' /\
     dimension self' = dimension self /\
     get_size self' =
       get_size self
       - Z.of_nat (length (filter (fun p => owned_by document_id (snd p))
                                  (passages self))) /\
     (passages self' = [] -> index self' = IndexFlatL2_new (dimension self))) /\
  (forall self',
     Exists (owned_by document_id) (chunks_metadata self) ->
     delete_document encode self document_id = Some self' ->
     chunk_texts self' = [] ->
     index self' = IndexFlatL2_new (dimension self) /\
     dimension self' = dimension self).
Proof.
  pose proof (keep_from_length O (chunks_metadata self)) as Hk.
  pose proof (filter_split_length (owned_by document_id) (chunks_metadata self))
    as Hsplit.
  split; [|split].
  - intros Hall. unfold delete_document. rewrite indices_to_keep_from, Hk.
    assert (E : filter (fun m => ~ owned_by document_id m) (chunks_metadata self)
                = chunks_metadata self).
    { clear -Hall. induction Hall as [|m ms Hm Hall IH]; [reflexivity|].
      rewrite filter_cons. destruct (decide _); [|contradiction].
      f_equal. exact IH. }
    rewrite E, Z.eqb_refl. reflexivity.
  - intros [Hx Hm] Hdim Hex. unfold delete_document.
    rewrite indices_to_keep_from. cbv zeta.
    pose proof (keep_fewer _ Hex) as E.
    assert (Hlt : (0 < length (filter (owned_by document_id)
                                      (chunks_metadata self)))%nat).
    { apply Z.eqb_neq in E. lia. }
    rewrite E.
    destruct (keep_from_items (chunks_metadata self) (chunk_texts self) [] [])
      as [H1 H2]; [symmetry; exact Hm | reflexivity |].
    simpl in H1, H2. rewrite H1, H2.
    remember (filter (fun p => ~ owned_by document_id (snd p))
                     (zip (chunk_texts self) (chunks_metadata self)))
      as L eqn:EL.
    assert (HL : length L = length (filter (fun m => ~ owned_by document_id m)
                                           (chunks_metadata self))).
    { rewrite EL.
      apply (filter_snd_zip (fun m => ~ owned_by document_id m) _ _).
      symmetry. exact Hm. }
    assert (Hrem : length (filter (fun p => owned_by document_id (snd p))
                                  (passages self))
                   = length (filter (owned_by document_id) (chunks_metadata self))).
    { unfold passages. apply (filter_snd_zip (owned_by document_id) _ _).
      symmetry. exact Hm. }
    assert (Hsize : Z.of_nat (length L) =
                    get_size self
                    - Z.of_nat (length (filter (fun p => owned_by document_id (snd p))
                                               (passages self)))).
    { unfold get_size, ntotal. lia. }
    destruct L as [|[t m] L'].
    + simpl. eexists. split; [reflexivity|].
      unfold passages at 1 2, well_formed. simpl. rewrite <- EL.
      simpl in Hsize. repeat split; try reflexivity. exact Hsize.
    + simpl map. cbv iota. rewrite index_add_ok.
      2:{ apply Forall_forall. intros v Hv.
          apply list_elem_of_In, in_map_iff in Hv as (x & <- & _).
          apply Hdim. }
      eexists. split; [reflexivity|].
      unfold passages at 1 2, well_formed, generate_embeddings. simpl.
      rewrite <- EL.
      repeat split.
      * f_equal. apply zip_fst_snd_map.
      * rewrite !length_map. reflexivity.
      * rewrite !length_map. reflexivity.
      * unfold get_size, ntotal in *. simpl. rewrite !length_map.
        simpl in Hsize. lia.
      * discriminate.
  - intros self' Hex. unfold delete_document.
    rewrite indices_to_keep_from. cbv zeta. rewrite (keep_fewer _ Hex).
    destruct (mapM _ _) as [texts|]; [|discriminate].
    destruct (mapM _ _) as [ms|]; [|discriminate].
    destruct texts as [|text texts].
    + intros [= <-] _. split; reflexivity.
    + destruct (index_add _ _); [|discriminate].
      intros [= <-]. discriminate.
Qed.

End Delete.

(** ** The order of the floats *)






(** ** The answer of the index *)

Lemma insert_hit_perm (h : spec_float * Z) (l : list (spec_float * Z)) :
  insert_hit h l ≡ₚ h :: l.
Proof.
  induction l as [|h' l IH]; simpl; [reflexivity|].
  destruct (F32.ltb (fst h') (fst h)); [|reflexivity].
  rewrite IH. apply perm_swap.
Qed.

Lemma rank_hits_perm (l : list (spec_float * Z)) : rank_hits l ≡ₚ l.
Proof.
  induction l as [|h l IH]; simpl; [reflexivity|].
  rewrite insert_hit_perm, IH. reflexivity.
Qed.



(** The hits before they are ranked: row [i] with its distance, in the
    order of the rows. *)
Lemma hits_from (q : list spec_float) (rows : list (list spec_float)) (off : nat) :
  let hits := imap (fun i v => (L2sqr q v, Z.of_nat (off + i))) rows in
  StronglySorted (fun h1 h2 => snd h1 < snd h2) hits /\
  Forall (fun h => exists i row, snd h = Z.of_nat (off + i) /\
                                 nth_error rows i = Some row /\
                                 fst h = L2sqr q row) hits.
Proof.
  revert off. induction rows as [|v rows IH]; intros off; simpl.
  - split; constructor.
  - rewrite (imap_ext _ (fun i v => (L2sqr q v, Z.of_nat (S off + i))))
      by (intros i x _; simpl; do 2 f_equal; lia).
    destruct (IH (S off)) as [IHs IHf]. split.
    + constructor; [exact IHs|].
      rewrite Forall_forall in IHf |- *. intros h Hh.
      destruct (IHf h Hh) as (i & row & -> & _). simpl. lia.
    + constructor.
      * exists O, v. simpl. rewrite Nat.add_0_r. auto.
      * rewrite Forall_forall in IHf |- *. intros h Hh.
        destruct (IHf h Hh) as (i & row & Hi & Hrow & Hd).
        exists (S i), row. rewrite Hi. repeat split; [f_equal; lia | exact Hrow | exact Hd].
Qed.

Lemma all_hits_facts (ix : IndexFlatL2) (q : list spec_float) :
  StronglySorted (fun h1 h2 => snd h1 < snd h2) (all_hits ix q) /\
  Forall (fun h => 0 <= snd h < ntotal ix /\
                   exists row, getitem (xb ix) (snd h) = Some row /\
                               fst h = L2sqr q row) (all_hits ix q) /\
  length (all_hits ix q) = length (xb ix).
Proof.
  destruct (hits_from q (xb ix) O) as [Hs Hf]. simpl in Hs, Hf.
  split; [exact Hs|]. split; [|apply length_imap].
  unfold all_hits. rewrite Forall_forall in Hf |- *. intros h Hh.
  destruct (Hf h Hh) as (i & row & Hi & Hrow & Hd).
  assert (i < length (xb ix))%nat by (apply nth_error_Some; congruence).
  unfold ntotal. split; [lia|].
  exists row. rewrite Hi, getitem_of_nat. auto.
Qed.

(** ** The search *)







(** C4 fails as stated.  On the store that [_load_index] leaves when the
    index file holds one row and the pickle is missing, one passage of
    document [B] is added and [B] is deleted: one passage is removed and
    [get_size] goes from 2 to 0.  And on the sample store, whose counts
    agree, with an encoder that gives vectors of two coordinates for a
    store of dimension 1, deleting [B] raises. *)
Lemma delete_document_miscounts :
  let loaded := init 1 {| faiss_file := Holds {| d := 1; xb := [[F32.zero]] |};
                          pkl_file := Missing |} in
  (exists added ids self',
     add_chunks unit_encoder loaded [lit "y"] [tag "B"] None = Some (added, ids) /\
     passages added = [(lit "y", tag "B")] /\
     get_size added = 2 /\
     length (filter (fun p => owned_by (lit "B") (snd p)) (passages added)) = 1%nat /\
     delete_document unit_encoder added (lit "B") = Some self' /\
     passages self' = [] /\
     get_size self' = 0) /\
  (well_formed sample_store /\
   Exists (owned_by (lit "B")) (chunks_metadata sample_store) /\
   delete_document (fun _ => [F32.zero; F32.zero]) sample_store (lit "B") = None).
Proof.
  intros loaded. split.
  - eexists. eexists. eexists.
    split; [vm_compute; reflexivity|].
    split; [vm_compute; reflexivity|].
    split; [vm_compute; reflexivity|].
    split; [vm_compute; reflexivity|].
    split; [vm_compute; reflexivity|].
    split; vm_compute; reflexivity.
  - split; [split; reflexivity|]. split.
    + apply Exists_cons_tl, Exists_cons_hd. vm_compute. reflexivity.
    + vm_compute. reflexivity.
Qed.

End StoreProofs.

(* ===================================================================== *)
(** * Properties of the knowledge graph builder                            *)
(* ===================================================================== *)

Module SortFacts.
Import Counter.

Section Desc.
Context {A : Type} (key : A -> Z).

Lemma insert_desc_perm (x : A) (l : list A) : insert_desc key x l ≡ₚ x :: l.
Proof.
  induction l as [|y l IH]; simpl; [reflexivity|].
  destruct (key x <? key y); [|reflexivity].
  rewrite IH. apply perm_swap.
Qed.

Lemma sorted_desc_perm (l : list A) : sorted_desc key l ≡ₚ l.
Proof.
  induction l as [|x l IH]; simpl; [reflexivity|].
  rewrite insert_desc_perm, IH. reflexivity.
Qed.

Let desc (a b : A) : Prop := key b ≤ key a.

Lemma insert_desc_sorted (x : A) (l : list A) :
  StronglySorted desc l -> StronglySorted desc (insert_desc key x l).
Proof.
  induction 1 as [|y l Hs IH Hy]; simpl.
  - repeat constructor.
  - destruct (key x <? key y) eqn:E.
    + apply Z.ltb_lt in E. constructor; [exact IH|].
      rewrite Forall_forall. intros z Hz.
      rewrite insert_desc_perm in Hz.
      apply elem_of_cons in Hz as [->|Hz]; [unfold desc; lia|].
      rewrite Forall_forall in Hy. apply Hy, Hz.
    + apply Z.ltb_ge in E. constructor; [constructor; assumption|].
      constructor; [exact E|].
      rewrite Forall_forall in Hy |- *. intros z Hz.
      specialize (Hy z Hz). unfold desc in *. lia.
Qed.

Lemma sorted_desc_sorted (l : list A) : StronglySorted desc (sorted_desc key l).
Proof.
  induction l as [|x l IH]; simpl; [constructor|].
  apply insert_desc_sorted, IH.
Qed.

End Desc.
End SortFacts.

Module GraphProofs.
Import Py Re KnowledgeGraphBuilder Vocabulary.

(** C6, on the builder that tracks no entity (whatever documents it has
    ingested): the view that [build_graph] returns has the keys [nodes]
    and [edges] only; [total_entities] and [total_documents], which the
    other return statement reports, are missing. *)
Theorem build_graph_no_entities_keys
        (docs : gmap (list ascii) document)
        (ents : gmap (list ascii) (gset (list ascii)))
        (rels : list (list ascii * list ascii * Z)) :
  option_map view_keys
    (build_graph {| documents := docs; entities := ents;
                    relationships := rels; entity_frequencies := [] |})
  = Some ["nodes"; "edges"]%string.
Proof. reflexivity. Qed.

(** When some entity is tracked, the view has the four keys, and the two
    totals are the numbers of tracked entities and of documents. *)
Lemma build_graph_some_entities (self : t) (v : view) :
  entity_frequencies self <> [] ->
  build_graph self = Some v ->
  exists nodes edges,
    v = [("nodes", Nodes nodes); ("edges", Edges edges);
         ("total_entities", Int (get_node_count self));
         ("total_documents", Int (Z.of_nat (size (documents self))))]%string.
Proof.
  intros Hne. unfold build_graph.
  destruct (top_entities self) as [|e top] eqn:Et.
  - exfalso. apply Hne.
    unfold top_entities, Counter.most_common in Et.
    destruct (entity_frequencies self) as [|p c]; [reflexivity|].
    pose proof (SortFacts.sorted_desc_perm snd (p :: c)) as Hp.
    destruct (Counter.sorted_desc snd (p :: c)) as [|q l]; [|discriminate].
    apply Permutation_nil in Hp. discriminate.
  - destruct (mapM _ _) as [nodes|]; [|discriminate].
    intros [= <-]. eauto.
Qed.

(** Lines 170-175: one row for every triple that names the entity, in
    the order of the triples. *)
Lemma related_rows_named (self : t) (entity : str) :
  Forall2 (row_of entity) (filter (names entity) (relationships self))
          (related_rows self entity).
Proof.
  unfold related_rows.
  induction (relationships self) as [|[[e1 e2] w] rels IH]; [constructor|].
  rewrite filter_cons. simpl.
  destruct (decide (e1 = entity)) as [->|H1].
  - destruct (decide (names entity (entity, e2, w))) as [_|Hn];
      [|exfalso; apply Hn; left; reflexivity].
    constructor; [|exact IH]. split; [reflexivity|]. left. auto.
  - destruct (decide (e2 = entity)) as [->|H2].
    + destruct (decide (names entity (e1, entity, w))) as [_|Hn];
        [|exfalso; apply Hn; right; reflexivity].
      constructor; [|exact IH]. split; [reflexivity|]. right. auto.
    + destruct (decide (names entity (e1, e2, w))) as [[Hn|Hn]|_];
        [contradiction|contradiction|exact IH].
Qed.

Lemma Forall2_row_in (entity : str) (named : list (list ascii * list ascii * Z))
      (rows : list (list ascii * Z)) (r : list ascii * list ascii * Z) :
  Forall2 (row_of entity) named rows -> r ∈ named ->
  exists row, row ∈ rows /\ row_of entity r row.
Proof.
  intros HF Hr. apply list_elem_of_lookup_1 in Hr as [i Hi].
  destruct (Forall2_lookup_l _ _ _ _ _ HF Hi) as (row & Hrow & H).
  exists row. split; [eapply list_elem_of_lookup_2, Hrow | exact H].
Qed.

(** C9: for an entity that is not a key of [entities] the method returns
    [None] and does not raise; for a tracked entity it returns its
    frequency, the ids of its documents, and the first five of its rows in
    descending order of weight.  The rows are one for every triple of
    [relationships] that names the entity, in either place, each row with
    the other entity of its triple and the weight of the triple; rows for
    the same related entity are not merged, so there are as many rows as
    such triples, and the list returned has five of them or all. *)
Theorem get_entity_details_spec
        (set_iter : gset (list ascii) -> list (list ascii))
        (Hiter : forall X, set_iter X ≡ₚ elements X)
        (self : t) (entity : str) :
  (entities self !! entity = None ->
   get_entity_details set_iter self entity = None) /\
  (forall doc_ids, entities self !! entity = Some doc_ids ->
   exists det unsorted rows,
     get_entity_details set_iter self entity = Some det /\
     det_entity det = entity /\
     det_frequency det = Counter.get (entity_frequencies self) entity /\
     det_documents det ≡ₚ elements doc_ids /\
     Forall2 (row_of entity)
             (filter (names entity) (relationships self)) unsorted /\
     rows ≡ₚ unsorted /\
     StronglySorted (fun a b => snd b ≤ snd a) rows /\
     det_related det = firstn 5 rows /\
     length (det_related det)
     = Nat.min 5 (length (filter (names entity) (relationships self))) /\
     (forall e2 w, (entity, e2, w) ∈ relationships self -> (e2, w) ∈ rows) /\
     (forall e1 w, (e1, entity, w) ∈ relationships self -> (e1, w) ∈ rows)).
Proof.
  split.
  - intros H. unfold get_entity_details. rewrite H. reflexivity.
  - intros doc_ids H. unfold get_entity_details. rewrite H.
    pose proof (related_rows_named self entity) as HF.
    pose proof (SortFacts.sorted_desc_perm snd (related_rows self entity)) as Hp.
    eexists. exists (related_rows self entity),
               (Counter.sorted_desc snd (related_rows self entity)).
    split; [reflexivity|].
    cbn [det_entity det_frequency det_documents det_related].
    split; [reflexivity|]. split; [reflexivity|].
    split; [apply Hiter|]. split; [exact HF|]. split; [exact Hp|].
    split; [apply (SortFacts.sorted_desc_sorted snd)|].
    split; [reflexivity|]. split; [|split].
    + rewrite length_firstn, (Permutation_length Hp).
      rewrite (Forall2_length _ _ _ HF). reflexivity.
    + intros e2 w Hr.
      destruct (Forall2_row_in entity _ _ (entity, e2, w) HF)
        as ([x w'] & Hrow & Hw & Hx).
      { apply list_elem_of_filter. split; [left; reflexivity | exact Hr]. }
      simpl in Hw, Hx. subst w'.
      rewrite Hp. destruct Hx as [[_ ->]|[Hne _]]; [exact Hrow|congruence].
    + intros e1 w Hr.
      destruct (Forall2_row_in entity _ _ (e1, entity, w) HF)
        as ([x w'] & Hrow & Hw & Hx).
      { apply list_elem_of_filter. split; [right; reflexivity | exact Hr]. }
      simpl in Hw, Hx. subst w'.
      rewrite Hp. destruct Hx as [[-> ->]|(_ & _ & ->)]; exact Hrow.
Qed.

(** ** The counters *)

Lemma get_incr (c : Counter.t) (k k' : str) (n : Z) :
  Counter.get (Counter.incr c k n) k' =
  Counter.get c k' + (if decide (k = k') then n else 0).
Proof.
  induction c as [|[k0 v] c IH]; simpl.
  - destruct (decide (k = k')); lia.
  - destruct (decide (k0 = k)) as [->|Hne]; simpl.
    + destruct (decide (k = k')); lia.
    + destruct (decide (k0 = k')) as [->|Hne'].
      * destruct (decide (k = k')); [congruence|lia].
      * exact IH.
Qed.

Lemma incr_keys (c : Counter.t) (k : str) (n : Z) (x : str) :
  x ∈ map fst (Counter.incr c k n) <-> x = k \/ x ∈ map fst c.
Proof.
  induction c as [|[k0 v] c IH]; simpl.
  - rewrite list_elem_of_singleton, elem_of_nil. tauto.
  - destruct (decide (k0 = k)) as [->|Hne]; simpl.
    + rewrite !elem_of_cons. tauto.
    + rewrite !elem_of_cons, IH. tauto.
Qed.

(** [relate] and [_build_relationships] leave documents and counters
    alone. *)
Lemma relate_frame (e1 e2 : str) (s : t) :
  documents (relate e1 s e2) = documents s /\
  entity_frequencies (relate e1 s e2) = entity_frequencies s.
Proof.
  unfold relate.
  destruct (defaultdict_get (entities s) e1) as [d1 m1].
  destruct (defaultdict_get m1 e2) as [d2 m2]. split; reflexivity.
Qed.

Lemma fold_relate_frame (e1 : str) (l : list str) (s : t) :
  documents (fold_left (relate e1) l s) = documents s /\
  entity_frequencies (fold_left (relate e1) l s) = entity_frequencies s.
Proof.
  revert s. induction l as [|e2 l IH]; intros s; simpl; [split; reflexivity|].
  destruct (IH (relate e1 s e2)) as [-> ->]. apply relate_frame.
Qed.

Lemma build_relationships_frame (l : list str) (s : t) :
  documents (_build_relationships s l) = documents s /\
  entity_frequencies (_build_relationships s l) = entity_frequencies s.
Proof.
  revert s. induction l as [|e1 l IH]; intros s; simpl; [split; reflexivity|].
  destruct (IH (fold_left (relate e1) l s)) as [-> ->].
  apply fold_relate_frame.
Qed.

(** The entities of a document are noted by one increment each. *)
Lemma fold_note_frequencies (doc_id : str) (l : list str) (s : t) :
  entity_frequencies (fold_left (note_entity doc_id) l s) =
  fold_left (fun c e => Counter.incr c e 1) l (entity_frequencies s).
Proof.
  revert s. induction l as [|e l IH]; intros s; simpl; [reflexivity|].
  rewrite IH. unfold note_entity.
  destruct (defaultdict_get (entities s) e). reflexivity.
Qed.

Lemma get_fold_incr (l : list str) (c : Counter.t) (e : str) :
  NoDup l ->
  Counter.get (fold_left (fun c e => Counter.incr c e 1) l c) e =
  Counter.get c e + (if decide (e ∈ l) then 1 else 0).
Proof.
  intros Hnd. revert c. induction Hnd as [|x l Hx Hnd IH]; intros c; simpl.
  - destruct (decide (e ∈ [])) as [H|_]; [inversion H|lia].
  - rewrite IH, get_incr.
    destruct (decide (x = e)) as [->|Hne].
    + destruct (decide (e ∈ l)); [contradiction|].
      destruct (decide (e ∈ e :: l)) as [_|H]; [lia|].
      exfalso. apply H. left.
    + destruct (decide (e ∈ l)) as [Hin|Hnin].
      * destruct (decide (e ∈ x :: l)) as [_|H]; [lia|].
        exfalso. apply H. right. exact Hin.
      * destruct (decide (e ∈ x :: l)) as [H|_]; [|lia].
        apply elem_of_cons in H as [->|H]; contradiction.
Qed.

Section SetOrder.
Variable set_iter : gset (list ascii) -> list (list ascii).
Hypothesis set_iter_perm : forall X, set_iter X ≡ₚ elements X.

Lemma set_iter_NoDup (X : gset (list ascii)) : NoDup (set_iter X).
Proof using set_iter_perm. rewrite set_iter_perm. apply NoDup_elements. Qed.

Lemma set_iter_elem (X : gset (list ascii)) (x : str) :
  x ∈ set_iter X <-> x ∈ X.
Proof using set_iter_perm. rewrite set_iter_perm. apply elem_of_elements. Qed.

Lemma add_document_frequencies (self : t) (doc_id text : str)
      (chunks : list str) (e : str) :
  Counter.get
    (entity_frequencies (add_document set_iter self doc_id text chunks)) e =
  Counter.get (entity_frequencies self) e
  + (if decide (e ∈ _extract_entities text) then 1 else 0).
Proof using set_iter_perm.
  unfold add_document.
  destruct (build_relationships_frame
              (set_iter (_extract_entities text))
              (fold_left (note_entity doc_id) (set_iter (_extract_entities text))
                 {| documents :=
                      <[doc_id := {| doc_text := text; doc_chunks := chunks;
                                     doc_entities := ∅ |}]> (documents self);
                    entities := entities self;
                    relationships := relationships self;
                    entity_frequencies := entity_frequencies self |}))
    as [_ ->].
  rewrite fold_note_frequencies. simpl.
  rewrite get_fold_incr by apply set_iter_NoDup.
  destruct (decide (e ∈ set_iter (_extract_entities text))) as [H|H];
    destruct (decide (e ∈ _extract_entities text)) as [H'|H'];
    try reflexivity; rewrite set_iter_elem in H; contradiction.
Qed.

Lemma ingest_app (self : t) (docs1 docs2 : list (list ascii * list ascii * list str)) :
  ingest set_iter self (docs1 ++ docs2) =
  ingest set_iter (ingest set_iter self docs1) docs2.
Proof. unfold ingest. apply fold_left_app. Qed.

Lemma ingest_frequencies (docs : list (list ascii * list ascii * list str))
      (self : t) (e : str) :
  Counter.get (entity_frequencies (ingest set_iter self docs)) e =
  Counter.get (entity_frequencies self) e
  + Z.of_nat (length (filter (fun d => e ∈ _extract_entities d.1.2) docs)).
Proof using set_iter_perm.
  revert self. induction docs as [|[[doc_id text] chunks] docs IH];
    intros self; simpl; [lia|].
  unfold ingest in *. simpl. rewrite IH, add_document_frequencies.
  rewrite filter_cons. simpl.
  destruct (decide (e ∈ _extract_entities text)); simpl; lia.
Qed.

End SetOrder.

(** ** The document sets and the relationships *)

Lemma note_entity_entities (doc_id : str) (s : t) (e : str) :
  entities (note_entity doc_id s e) =
  <[e := docs_of s e ∪ {[doc_id]}]> (entities s).
Proof.
  unfold note_entity, defaultdict_get, docs_of.
  destruct (entities s !! e) as [d|] eqn:E; simpl; [reflexivity|].
  apply insert_insert_eq.
Qed.

Lemma note_entity_relationships (doc_id : str) (s : t) (e : str) :
  relationships (note_entity doc_id s e) = relationships s.
Proof.
  unfold note_entity. destruct (defaultdict_get (entities s) e). reflexivity.
Qed.

Lemma fold_note_relationships (doc_id : str) (l : list str) (s : t) :
  relationships (fold_left (note_entity doc_id) l s) = relationships s.
Proof.
  revert s. induction l as [|e l IH]; intros s; simpl; [reflexivity|].
  rewrite IH. apply note_entity_relationships.
Qed.

(** After the loop of lines 25-28, the entities of the document have the
    document in their set, and the other sets are as before. *)
Lemma fold_note_entities (doc_id : str) (l : list str) (s : t) (x : str) :
  NoDup l ->
  entities (fold_left (note_entity doc_id) l s) !! x =
  if decide (x ∈ l) then Some (docs_of s x ∪ {[doc_id]})
  else entities s !! x.
Proof.
  intros Hnd. revert s. induction Hnd as [|e l He Hnd IH]; intros s; simpl.
  - destruct (decide (x ∈ [])) as [H|_]; [inversion H|reflexivity].
  - rewrite IH. unfold docs_of. rewrite note_entity_entities.
    destruct (decide (x = e)) as [->|Hne].
    + destruct (decide (e ∈ l)); [contradiction|].
      destruct (decide (e ∈ e :: l)) as [_|H]; [|exfalso; apply H; left].
      apply lookup_insert_eq.
    + rewrite lookup_insert_ne by congruence.
      destruct (decide (x ∈ l)) as [Hin|Hnin].
      * destruct (decide (x ∈ e :: l)) as [_|H]; [reflexivity|].
        exfalso. apply H. right. exact Hin.
      * destruct (decide (x ∈ e :: l)) as [H|_]; [|reflexivity].
        apply elem_of_cons in H as [->|H]; contradiction.
Qed.

Lemma relate_tracked (doc_id e1 e2 : str) (s : t) :
  tracked_in doc_id s e1 -> tracked_in doc_id s e2 ->
  entities (relate e1 s e2) = entities s /\
  relationships (relate e1 s e2) =
  relationships s ++ [(e1, e2, Z.of_nat (size (docs_of s e1 ∩ docs_of s e2)))].
Proof.
  intros (d1 & H1 & Hd1) (d2 & H2 & Hd2).
  unfold relate, defaultdict_get, docs_of. rewrite H1, H2. simpl.
  split; [reflexivity|].
  destruct (decide (d1 ∩ d2 = ∅)) as [E|_]; [|reflexivity].
  exfalso. assert (doc_id ∈ d1 ∩ d2) as Hin by set_solver.
  rewrite E in Hin. set_solver.
Qed.

Lemma fold_relate_tracked (doc_id e1 : str) (rest : list str) (s : t) :
  tracked_in doc_id s e1 ->
  (forall e2, e2 ∈ rest -> tracked_in doc_id s e2) ->
  entities (fold_left (relate e1) rest s) = entities s /\
  relationships (fold_left (relate e1) rest s) =
  relationships s
  ++ map (fun e2 => (e1, e2, Z.of_nat (size (docs_of s e1 ∩ docs_of s e2)))) rest.
Proof.
  revert s. induction rest as [|e2 rest IH]; intros s H1 Hrest; simpl.
  - rewrite app_nil_r. split; reflexivity.
  - destruct (relate_tracked doc_id e1 e2 s H1) as [He Hr];
      [apply Hrest; left|].
    assert (Hd : forall x, docs_of (relate e1 s e2) x = docs_of s x)
      by (intros x; unfold docs_of; rewrite He; reflexivity).
    assert (Ht : forall x, tracked_in doc_id s x ->
                           tracked_in doc_id (relate e1 s e2) x)
      by (intros x; unfold tracked_in; rewrite He; trivial).
    destruct (IH (relate e1 s e2)) as [He' Hr'];
      [apply Ht, H1 | intros x Hx; apply Ht, Hrest; right; exact Hx |].
    rewrite He', Hr', He, Hr, <- app_assoc. split; [reflexivity|].
    simpl. do 2 f_equal. apply map_ext. intros x. rewrite !Hd. reflexivity.
Qed.

Lemma length_filter_none {A : Type} (P : A -> Prop) `{!forall x, Decision (P x)}
      (l : list A) :
  (forall x, x ∈ l -> ~ P x) -> length (filter P l) = O.
Proof.
  induction l as [|x l IH]; intros Hall; [reflexivity|].
  rewrite filter_cons. destruct (decide (P x)) as [Hp|_].
  - exfalso. apply (Hall x); [left|exact Hp].
  - apply IH. intros y Hy. apply Hall. right. exact Hy.
Qed.

Lemma length_filter_app {A : Type} (P : A -> Prop) `{!forall x, Decision (P x)}
      (l1 l2 : list A) :
  length (filter P (l1 ++ l2)) = (length (filter P l1) + length (filter P l2))%nat.
Proof. rewrite filter_app, length_app. reflexivity. Qed.

(** The triples made for [e1] and the entities after it: exactly one of
    them joins [e1] and a given [b] of the rest. *)
Lemma joins_head_once (e1 b : str) (w : list ascii -> Z) (rest : list str) :
  NoDup rest -> b ∈ rest -> e1 ∉ rest ->
  length (filter (joins e1 b) (map (fun e2 => (e1, e2, w e2)) rest)) = 1%nat /\
  length (filter (joins b e1) (map (fun e2 => (e1, e2, w e2)) rest)) = 1%nat.
Proof.
  intros Hnd. induction Hnd as [|x rest Hx Hnd IH]; intros Hb He1.
  - inversion Hb.
  - simpl. rewrite !filter_cons.
    assert (He1x : e1 <> x) by (intros ->; apply He1; left).
    assert (He1r : e1 ∉ rest) by (intros H; apply He1; right; exact H).
    apply elem_of_cons in Hb as [->|Hb].
    + assert (Hz : forall a c, (a = e1 /\ c = x) \/ (a = x /\ c = e1) ->
                length (filter (joins a c) (map (fun e2 => (e1, e2, w e2)) rest)) = O).
      { intros a c Hac. apply length_filter_none. intros r Hr.
        apply list_elem_of_In, in_map_iff in Hr as (y & <- & Hy).
        apply list_elem_of_In in Hy.
        unfold joins. simpl. intros [[_ ->]|[-> H]].
        - destruct Hac as [[_ ->]|[_ ->]]; contradiction.
        - destruct Hac as [[_ ->]|[-> _]]; try contradiction. congruence. }
      destruct (decide (joins e1 x (e1, x, w x))) as [_|H];
        [|exfalso; apply H; left; split; reflexivity].
      destruct (decide (joins x e1 (e1, x, w x))) as [_|H];
        [|exfalso; apply H; right; split; reflexivity].
      simpl. rewrite !Hz by tauto. split; reflexivity.
    + assert (Hbx : b <> x) by (intros ->; contradiction).
      destruct (decide (joins e1 b (e1, x, w x))) as [[[_ H]|[H _]]|_];
        simpl in *; try congruence.
      destruct (decide (joins b e1 (e1, x, w x))) as [[[H _]|[_ H]]|_];
        simpl in *; try congruence.
      apply IH; assumption.
Qed.

(** [_build_relationships] on entities that all have the document in
    their sets: [entities] is not changed, and the triples that are
    appended are one for every pair of different entities of the list,
    weighted by the number of documents that the two share. *)
Lemma build_relationships_tracked (doc_id : str) (l : list str) (s : t) :
  NoDup l ->
  (forall e, e ∈ l -> tracked_in doc_id s e) ->
  entities (_build_relationships s l) = entities s /\
  exists new,
    relationships (_build_relationships s l) = relationships s ++ new /\
    (forall a b w, (a, b, w) ∈ new ->
       a ∈ l /\ b ∈ l /\ a <> b /\
       w = Z.of_nat (size (docs_of s a ∩ docs_of s b))) /\
    (forall a b, a ∈ l -> b ∈ l -> a <> b ->
       length (filter (joins a b) new) = 1%nat).
Proof.
  intros Hnd. revert s. induction Hnd as [|e1 rest He1 Hnd IH]; intros s Ht; simpl.
  - split; [reflexivity|]. exists []. rewrite app_nil_r.
    split; [reflexivity|]. split.
    + intros a b w H. inversion H.
    + intros a b H. inversion H.
  - destruct (fold_relate_tracked doc_id e1 rest s) as [He Hr];
      [apply Ht; left | intros x Hx; apply Ht; right; exact Hx |].
    set (s1 := fold_left (relate e1) rest s) in *.
    assert (Hd : forall x, docs_of s1 x = docs_of s x)
      by (intros x; unfold docs_of; rewrite He; reflexivity).
    destruct (IH s1) as (He' & new2 & Hr' & Hp1 & Hp2).
    { intros x Hx. unfold tracked_in. rewrite He. apply Ht. right. exact Hx. }
    split; [rewrite He', He; reflexivity|].
    set (new1 := map (fun e2 => (e1, e2, Z.of_nat (size (docs_of s e1 ∩ docs_of s e2)))) rest) in *.
    exists (new1 ++ new2).
    split; [rewrite Hr', Hr, <- app_assoc; reflexivity|].
    assert (Hn1 : forall a b w, (a, b, w) ∈ new1 ->
              a = e1 /\ b ∈ rest /\ w = Z.of_nat (size (docs_of s a ∩ docs_of s b))).
    { intros a b w H. apply list_elem_of_In, in_map_iff in H as (y & [= <- <- <-] & Hy).
      apply list_elem_of_In in Hy. auto. }
    split.
    + intros a b w H. apply elem_of_app in H as [H|H].
      * destruct (Hn1 a b w H) as (-> & Hb & ->).
        repeat split; [left | right; exact Hb | intros ->; contradiction].
      * destruct (Hp1 a b w H) as (Ha & Hb & Hab & ->).
        rewrite !Hd. repeat split; [right; exact Ha | right; exact Hb | exact Hab].
    + intros a b Ha Hb Hab. rewrite length_filter_app.
      assert (Hz2 : forall c, length (filter (joins e1 c) new2) = O /\
                              length (filter (joins c e1) new2) = O).
      { intros c. split; apply length_filter_none; intros [[x y] w] Hr2;
          destruct (Hp1 x y w Hr2) as (Hx & Hy & _);
          unfold joins; simpl; intros [[? ?]|[? ?]]; subst; contradiction. }
      assert (Hz1 : a <> e1 -> b <> e1 -> length (filter (joins a b) new1) = O).
      { intros Hae Hbe. apply length_filter_none. intros [[x y] w] Hr1.
        destruct (Hn1 x y w Hr1) as (-> & _).
        unfold joins; simpl; intros [[H _]|[H _]]; congruence. }
      apply elem_of_cons in Ha as [->|Ha]; apply elem_of_cons in Hb as [->|Hb].
      * congruence.
      * unfold new1. destruct (joins_head_once e1 b
                    (fun e2 => Z.of_nat (size (docs_of s e1 ∩ docs_of s e2)))
                    rest Hnd Hb He1) as [-> _].
        destruct (Hz2 b) as [-> _]. reflexivity.
      * unfold new1. destruct (joins_head_once e1 a
                    (fun e2 => Z.of_nat (size (docs_of s e1 ∩ docs_of s e2)))
                    rest Hnd Ha He1) as [_ ->].
        destruct (Hz2 a) as [_ ->]. reflexivity.
      * rewrite Hz1 by (intros ->; contradiction).
        rewrite (Hp2 a b Ha Hb Hab). reflexivity.
Qed.

(** ** The edges of the view *)

Lemma add_edge_candidate (idx : gmap (list ascii) Z)
      (acc : list edge * gset (Z * Z)) (r : list ascii * list ascii * Z) :
  add_edge idx acc r =
  match candidate idx r with
  | Some c =>
      if decide (key_of c ∈ acc.2) then acc
      else (acc.1 ++ [c], acc.2 ∪ {[key_of c]})
  | None => acc
  end.
Proof.
  destruct r as [[e1 e2] w]. unfold add_edge, candidate. simpl.
  destruct (idx !! e1) as [i|]; [|reflexivity].
  destruct (idx !! e2) as [j|]; [|reflexivity].
  destruct (decide (1 ≤ w)) as [Hw|Hw].
  - unfold key_of. simpl.
    destruct (decide (edge_key i j ∈ acc.2)) as [Hk|Hk].
    + destruct (decide _) as [[H _]|_]; [contradiction|reflexivity].
    + destruct (decide _) as [_|H]; [reflexivity|]. exfalso. apply H. auto.
  - destruct (decide _) as [[_ H]|_]; [contradiction|reflexivity].
Qed.

(** The loop of lines 136-149, started with some edges already made. *)
Lemma fold_add_edge (idx : gmap (list ascii) Z)
      (rels : list (list ascii * list ascii * Z))
      (es0 : list edge) (K0 : gset (Z * Z)) :
  (forall k, k ∈ K0 <-> k ∈ map key_of es0) ->
  NoDup (map key_of es0) ->
  exists added K,
    fold_left (add_edge idx) rels (es0, K0) = (es0 ++ added, K) /\
    (forall k, k ∈ K <-> k ∈ map key_of (es0 ++ added)) /\
    NoDup (map key_of (es0 ++ added)) /\
    (forall e, e ∈ added ->
       (key_of e ∉ K0) /\
       exists pre post, candidates idx rels = pre ++ e :: post /\
                        forall c, c ∈ pre -> key_of c <> key_of e) /\
    (forall c, c ∈ candidates idx rels -> key_of c ∈ K).
Proof.
  revert es0 K0. induction rels as [|r rels IH]; intros es0 K0 HK Hnd.
  - exists [], K0. simpl. rewrite app_nil_r.
    repeat split; try apply HK; try assumption.
    + inversion H.
    + inversion H.
    + intros c H. inversion H.
  - simpl. rewrite add_edge_candidate. unfold candidates. simpl.
    destruct (candidate idx r) as [c|] eqn:Ec; simpl.
    + destruct (decide (key_of c ∈ K0)) as [Hin|Hnin].
      * destruct (IH es0 K0 HK Hnd) as (added & K & Hf & HK' & Hnd' & Ha & Hc).
        exists added, K. split; [exact Hf|]. split; [exact HK'|].
        split; [exact Hnd'|]. split.
        -- intros e He. destruct (Ha e He) as (Hk & pre & post & Hs & Hp).
           split; [exact Hk|]. exists (c :: pre), post.
           split; [unfold candidates in Hs; rewrite Hs; reflexivity|].
           intros c' Hc'. apply elem_of_cons in Hc' as [->|Hc'];
             [intros E; rewrite E in Hin; contradiction | apply Hp, Hc'].
        -- intros c' Hc'. apply elem_of_cons in Hc' as [->|Hc']; [|apply Hc, Hc'].
           apply HK'. rewrite map_app, elem_of_app. left. apply HK, Hin.
      * destruct (IH (es0 ++ [c]) (K0 ∪ {[key_of c]}))
          as (added & K & Hf & HK' & Hnd' & Ha & Hc).
        { intros k. rewrite map_app, elem_of_app, elem_of_union, HK. simpl.
          rewrite list_elem_of_singleton, elem_of_singleton. tauto. }
        { rewrite map_app. simpl. apply NoDup_app. split; [exact Hnd|].
          split; [|apply NoDup_singleton].
          intros k Hk Hk'. apply list_elem_of_singleton in Hk' as ->.
          apply Hnin, HK, Hk. }
        rewrite <- app_assoc in Hf, HK', Hnd'. simpl in Hf, HK', Hnd'.
        exists (c :: added), K. split; [exact Hf|]. split; [exact HK'|].
        split; [exact Hnd'|]. split.
        -- intros e He. apply elem_of_cons in He as [->|He].
           ++ split; [exact Hnin|]. exists [], (omap (candidate idx) rels).
              split; [reflexivity|]. intros c' H. inversion H.
           ++ destruct (Ha e He) as (Hk & pre & post & Hs & Hp).
              split; [intros Hin; apply Hk, elem_of_union; left; exact Hin|].
              exists (c :: pre), post.
              split; [unfold candidates in Hs; rewrite Hs; reflexivity|].
              intros c' Hc'. apply elem_of_cons in Hc' as [->|Hc'];
                [intros E; apply Hk; rewrite E; apply elem_of_union; right;
                 apply elem_of_singleton; reflexivity | apply Hp, Hc'].
        -- intros c' Hc'. apply elem_of_cons in Hc' as [->|Hc']; [|apply Hc, Hc'].
           apply HK'. rewrite map_app, elem_of_app. right. simpl. left.
    + destruct (IH es0 K0 HK Hnd) as (added & K & Hf & HK' & Hnd' & Ha & Hc).
      exists added, K. auto.
Qed.

(** The edges of the view are the first candidates of their pairs. *)
Lemma make_edges_first (idx : gmap (list ascii) Z)
      (rels : list (list ascii * list ascii * Z)) :
  first_per_pair (candidates idx rels) (make_edges idx rels).
Proof.
  destruct (fold_add_edge idx rels [] ∅) as (added & K & Hf & HK & Hnd & Ha & Hc).
  { intros k. simpl. rewrite elem_of_nil. set_solver. }
  { constructor. }
  simpl in *. unfold make_edges. rewrite Hf. simpl.
  split; [exact Hnd|]. split.
  - intros e He. destruct (Ha e He) as (_ & H). exact H.
  - intros c Hc'. specialize (Hc c Hc'). apply HK in Hc.
    apply list_elem_of_In, in_map_iff in Hc as (e & He & Hin).
    exists e. split; [apply list_elem_of_In, Hin | exact He].
Qed.

(** Whatever path [build_graph] takes, its edges are those of
    [make_edges]. *)
Lemma build_graph_edges (self : t) (v : view) (es : list edge) :
  build_graph self = Some v ->
  In ("edges"%string, Edges es) v ->
  es = make_edges (index_entities (top_entities self)) (relationships self).
Proof.
  unfold build_graph.
  destruct (top_entities self) as [|e top] eqn:Et.
  - intros [= <-] [H|[H|[]]]; [discriminate|].
    injection H as <-.
    unfold make_edges.
    assert (Hacc : forall rels acc,
              fold_left (add_edge (index_entities [])) rels acc = acc).
    { induction rels as [|[[a b] w] rels IH]; intros acc; simpl; [reflexivity|].
      rewrite IH. unfold index_entities. simpl. rewrite lookup_empty. reflexivity. }
    rewrite Hacc. reflexivity.
  - destruct (mapM _ _) as [nodes|]; [|discriminate].
    intros [= <-] [H|[H|[H|[H|[]]]]]; try discriminate.
    injection H as <-. reflexivity.
Qed.

Section AddDocument.
Variable set_iter : gset (list ascii) -> list (list ascii).
Hypothesis set_iter_perm : forall X, set_iter X ≡ₚ elements X.

(** What [add_document] does to the sets of documents and to the
    relationships. *)
Lemma add_document_shape (self : t) (doc_id text : str) (chunks : list str) :
  (forall x,
     entities (add_document set_iter self doc_id text chunks) !! x =
     if decide (x ∈ _extract_entities text)
     then Some (docs_of self x ∪ {[doc_id]})
     else entities self !! x) /\
  exists new,
    relationships (add_document set_iter self doc_id text chunks) =
    relationships self ++ new /\
    (forall a b w, (a, b, w) ∈ new ->
       a ∈ _extract_entities text /\ b ∈ _extract_entities text /\ a <> b /\
       w = Z.of_nat (size (docs_of (add_document set_iter self doc_id text chunks) a
                           ∩ docs_of (add_document set_iter self doc_id text chunks) b))) /\
    (forall a b, a ∈ _extract_entities text -> b ∈ _extract_entities text ->
       a <> b -> length (filter (joins a b) new) = 1%nat).
Proof using set_iter_perm.
  unfold add_document.
  set (l := set_iter (_extract_entities text)).
  set (s0 := {| documents := _; entities := entities self;
                relationships := relationships self;
                entity_frequencies := entity_frequencies self |}).
  set (s1 := fold_left (note_entity doc_id) l s0).
  assert (Hnd : NoDup l) by apply set_iter_NoDup, set_iter_perm.
  assert (Hl : forall x, x ∈ l <-> x ∈ _extract_entities text)
    by (intros x; apply set_iter_elem, set_iter_perm).
  assert (H1 : forall x, entities s1 !! x =
             if decide (x ∈ _extract_entities text)
             then Some (docs_of self x ∪ {[doc_id]})
             else entities self !! x).
  { intros x. unfold s1. rewrite fold_note_entities by exact Hnd.
    destruct (decide (x ∈ l)) as [H|H];
      destruct (decide (x ∈ _extract_entities text)) as [H'|H'];
      try reflexivity; rewrite Hl in H; contradiction. }
  destruct (build_relationships_tracked doc_id l s1 Hnd)
    as (He & new & Hr & Hp1 & Hp2).
  { intros e He. exists (docs_of self e ∪ {[doc_id]}).
    rewrite H1. apply Hl in He.
    destruct (decide (e ∈ _extract_entities text)); [|contradiction].
    split; [reflexivity|]. apply elem_of_union. right. apply elem_of_singleton.
    reflexivity. }
  split; [intros x; rewrite He; apply H1|].
  exists new. split.
  { rewrite Hr. unfold s1. rewrite fold_note_relationships. reflexivity. }
  split.
  - intros a b w H. destruct (Hp1 a b w H) as (Ha & Hb & Hab & ->).
    rewrite Hl in Ha, Hb. repeat split; try assumption.
    unfold docs_of. rewrite He. reflexivity.
  - intros a b Ha Hb Hab. apply Hp2; [apply Hl, Ha | apply Hl, Hb | exact Hab].
Qed.

Lemma add_document_docs_of (self : t) (doc_id text : str) (chunks : list str)
      (x : str) :
  docs_of (add_document set_iter self doc_id text chunks) x =
  if decide (x ∈ _extract_entities text)
  then docs_of self x ∪ {[doc_id]} else docs_of self x.
Proof using set_iter_perm.
  destruct (add_document_shape self doc_id text chunks) as [H _].
  unfold docs_of at 1. rewrite H.
  destruct (decide (x ∈ _extract_entities text)); reflexivity.
Qed.

(** The triples that [add_document] appends: one for every unordered pair
    of different entities of the document, weighted by the number of
    documents that the two share once the document is counted. *)
Lemma add_document_triples (self : t) (doc_id text : str) (chunks : list str) :
  exists new,
    relationships (add_document set_iter self doc_id text chunks) =
    relationships self ++ new /\
    (forall a b w, (a, b, w) ∈ new ->
       a ∈ _extract_entities text /\ b ∈ _extract_entities text /\ a <> b /\
       w = Z.of_nat (size (docs_of (add_document set_iter self doc_id text chunks) a
                           ∩ docs_of (add_document set_iter self doc_id text chunks) b)) /\
       doc_id ∈ docs_of (add_document set_iter self doc_id text chunks) a
                ∩ docs_of (add_document set_iter self doc_id text chunks) b /\
       1 <= w) /\
    (forall a b, a ∈ _extract_entities text -> b ∈ _extract_entities text ->
       a <> b -> length (filter (joins a b) new) = 1%nat).
Proof using set_iter_perm.
  destruct (add_document_shape self doc_id text chunks)
    as (_ & new & Hr & Hp1 & Hp2).
  exists new. split; [exact Hr|]. split; [|exact Hp2].
  intros a b w H. destruct (Hp1 a b w H) as (Ha & Hb & Hab & Hw).
  assert (Hin : doc_id ∈ docs_of (add_document set_iter self doc_id text chunks) a
                         ∩ docs_of (add_document set_iter self doc_id text chunks) b).
  { rewrite !add_document_docs_of.
    destruct (decide (a ∈ _extract_entities text)); [|contradiction].
    destruct (decide (b ∈ _extract_entities text)); [|contradiction].
    apply elem_of_intersection; split; apply elem_of_union; right;
      apply elem_of_singleton; reflexivity. }
  repeat split; try assumption.
  rewrite Hw.
  assert (size (docs_of (add_document set_iter self doc_id text chunks) a
                ∩ docs_of (add_document set_iter self doc_id text chunks) b) <> O).
  { apply size_non_empty_iff. intros E. rewrite E in Hin.
    apply elem_of_empty in Hin. exact Hin. }
  lia.
Qed.

End AddDocument.

Section Ingest.
Variable set_iter : gset (list ascii) -> list (list ascii).
Hypothesis set_iter_perm : forall X, set_iter X ≡ₚ elements X.

(** The documents of an entity grow by one with every new document that
    mentions it. *)
Lemma ingest_docs_size (docs : list (list ascii * list ascii * list str))
      (self : t) (e : str) :
  NoDup (map (fun d => d.1.1) docs) ->
  (forall x d, d ∈ docs_of self x -> d ∉ map (fun d => d.1.1) docs) ->
  size (docs_of (ingest set_iter self docs) e) =
  (size (docs_of self e)
   + length (filter (fun d => e ∈ _extract_entities d.1.2) docs))%nat.
Proof using set_iter_perm.
  revert self. induction docs as [|[[doc_id text] chunks] docs IH];
    intros self Hnd Hfresh; simpl.
  - unfold ingest. simpl. lia.
  - simpl in Hnd. apply NoDup_cons in Hnd as [Hid Hnd].
    change (ingest set_iter self ((doc_id, text, chunks) :: docs))
      with (ingest set_iter (add_document set_iter self doc_id text chunks) docs).
    rewrite IH; [|exact Hnd|].
    + rewrite add_document_docs_of by exact set_iter_perm.
      rewrite filter_cons. simpl.
      destruct (decide (e ∈ _extract_entities text)); simpl; [|lia].
      rewrite size_union, size_singleton; [lia|].
      intros d Hd Hd'. apply elem_of_singleton in Hd' as ->.
      apply (Hfresh e doc_id Hd). simpl. left.
    + intros x d. rewrite add_document_docs_of by exact set_iter_perm.
      intros Hd Hin.
      destruct (decide (x ∈ _extract_entities text)).
      * apply elem_of_union in Hd as [Hd|Hd].
        -- apply (Hfresh x d Hd). simpl. right. exact Hin.
        -- apply elem_of_singleton in Hd as ->. contradiction.
      * apply (Hfresh x d Hd). simpl. right. exact Hin.
Qed.

(** C8: a call of [add_document] adds exactly 1 to the counter of every
    entity in the set extracted from the text, however often the text
    mentions it, and leaves the other counters alone; so after documents
    with pairwise different ids were added to a new builder, the counter
    of an entity is the number of those documents whose extracted set has
    the entity, which is also the size of its set of documents. *)
Theorem entity_frequency_counts :
  (forall (self : t) (doc_id text : str) (chunks : list str) (e : str),
     Counter.get
       (entity_frequencies (add_document set_iter self doc_id text chunks)) e =
     Counter.get (entity_frequencies self) e
     + (if decide (e ∈ _extract_entities text) then 1 else 0)) /\
  (forall (docs : list (list ascii * list ascii * list str)) (e : str),
     NoDup (map (fun d => d.1.1) docs) ->
     Counter.get (entity_frequencies (ingest set_iter init docs)) e =
       Z.of_nat (length (filter (fun d => e ∈ _extract_entities d.1.2) docs)) /\
     Counter.get (entity_frequencies (ingest set_iter init docs)) e =
       Z.of_nat (size (docs_of (ingest set_iter init docs) e))).
Proof using set_iter_perm.
  split.
  - intros. apply add_document_frequencies, set_iter_perm.
  - intros docs e Hnd.
    rewrite ingest_frequencies by exact set_iter_perm.
    rewrite ingest_docs_size; [| exact Hnd |].
    + assert (H0 : size (docs_of init e) = O).
      { unfold docs_of. simpl. rewrite lookup_empty. apply size_empty. }
      rewrite H0. simpl. split; reflexivity.
    + intros x d. unfold docs_of. simpl. rewrite lookup_empty. simpl.
      intros H. apply elem_of_empty in H. contradiction.
Qed.

End Ingest.


(** ** What the patterns match *)

(** A match ends where its continuation accepted, not before where it
    started. *)
Lemma rmatch_ge (s : list ascii) (r : regex) :
  forall (k : nat -> option nat) (pos e : nat),
    rmatch s r k pos = Some e ->
    exists pos', (pos <= pos')%nat /\ k pos' = Some e.
Proof.
  induction r as [p| |r1 IH1 r2 IH2|r1 IH1]; intros k pos e.
  - simpl. destruct (nth_error s pos) as [c|]; [|discriminate].
    destruct (p c); [|discriminate]. intros H. exists (S pos). split; [lia|exact H].
  - simpl. destruct (at_boundary s pos); [|discriminate]. intros H. exists pos. auto.
  - simpl. intros H. apply IH1 in H as (p1 & Hp1 & H). apply IH2 in H as (p2 & Hp2 & H).
    exists p2. split; [lia|exact H].
  - pose (iter :=
            fix iter (fuel pos : nat) {struct fuel} : option nat :=
              match fuel with
              | O => k pos
              | S fuel' =>
                  match rmatch s r1
                          (fun pos' => if (pos <? pos')%nat
                                       then iter fuel' pos' else None) pos with
                  | Some e => Some e
                  | None => k pos
                  end
              end).
    assert (Hi : forall fuel p0, iter fuel p0 = Some e ->
                 exists pos', (p0 <= pos')%nat /\ k pos' = Some e).
    { induction fuel as [|fuel IHf]; intros p0 H.
      - exists p0. split; [lia | exact H].
      - change (match rmatch s r1
                        (fun pos' => if (p0 <? pos')%nat
                                     then iter fuel pos' else None) p0 with
                | Some e => Some e
                | None => k p0
                end = Some e) in H.
        destruct (rmatch s r1 _ p0) as [e'|] eqn:E.
        + injection H as ->. apply IH1 in E as (p1 & Hp1 & E).
          destruct (p0 <? p1)%nat; [|discriminate].
          apply IHf in E as (p2 & Hp2 & E). exists p2. split; [lia|exact E].
        + exists p0. split; [lia | exact H]. }
    intros H. exact (Hi (S (length s - pos)) pos H).
Qed.

(** A match of a pattern that begins with [\b] and a class begins with a
    character of the class, and is not empty. *)
Lemma match_at_first (p : ascii -> bool) (rest : regex) (s : str) (pos e : nat) :
  match_at (Cat WordB (Cat (Cls p) rest)) s pos = Some e ->
  exists c, nth_error s pos = Some c /\ p c = true /\ (pos < e)%nat.
Proof.
  unfold match_at. simpl.
  destruct (at_boundary s pos); [|discriminate].
  destruct (nth_error s pos) as [c|]; [|discriminate].
  destruct (p c) eqn:Ep; [|discriminate].
  intros H. apply rmatch_ge in H as (pos' & Hle & [= <-]).
  exists c. repeat split; [exact Ep | lia].
Qed.

Lemma scan_match (r : regex) (s : str) (fuel pos : nat) (m : nat * nat) :
  In m (scan r s fuel pos) -> match_at r s (fst m) = Some (snd m).
Proof.
  revert pos. induction fuel as [|fuel IH]; intros pos; simpl; [tauto|].
  destruct (length s <? pos)%nat; [simpl; tauto|].
  destruct (match_at r s pos) as [e|] eqn:E.
  - intros [<-|H]; [exact E | exact (IH _ H)].
  - apply IH.
Qed.

Lemma span_first (s : str) (a b : nat) (c : ascii) :
  nth_error s a = Some c -> (a < b)%nat -> exists t, span s (a, b) = c :: t.
Proof.
  intros Hn Hlt. unfold span. simpl.
  assert (Hs : exists t, skipn a s = c :: t).
  { clear Hlt. revert a Hn. induction s as [|x s IH]; intros [|a] Hn; simpl in *;
      try discriminate.
    - injection Hn as ->. eauto.
    - apply (IH a Hn). }
  destruct Hs as [t ->].
  destruct (b - a)%nat as [|n] eqn:E; [lia|]. simpl. eauto.
Qed.

(** The same for [\b[a-zA-Z]{4,}\b], whose first character is inside the
    repetition. *)
Lemma match_at_first_rep (p : ascii -> bool) (r1 r2 : regex) (s : str)
      (pos e : nat) :
  match_at (Cat WordB (Cat (Cat (Cls p) r1) r2)) s pos = Some e ->
  exists c, nth_error s pos = Some c /\ p c = true /\ (pos < e)%nat.
Proof.
  unfold match_at. simpl.
  destruct (at_boundary s pos); [|discriminate].
  destruct (nth_error s pos) as [c|]; [|discriminate].
  destruct (p c) eqn:Ep; [|discriminate].
  intros H. apply rmatch_ge in H as (p1 & Hle1 & H).
  apply rmatch_ge in H as (p2 & Hle2 & [= <-]).
  exists c. repeat split; [exact Ep | lia].
Qed.

(** Every string that [findall] returns for such a pattern begins with a
    character of the class, taken from the text. *)
Lemma findall_first (p : ascii -> bool) (r : regex) (s w : str) :
  (forall pos e, match_at r s pos = Some e ->
     exists c, nth_error s pos = Some c /\ p c = true /\ (pos < e)%nat) ->
  In w (findall r s) ->
  exists c t, w = c :: t /\ p c = true /\ In c s.
Proof.
  unfold findall, finditer. intros Hr H.
  apply in_map_iff in H as ([a b] & <- & H).
  apply scan_match in H. simpl in H.
  apply Hr in H as (c & Hn & Hp & Hlt).
  destruct (span_first s a b c Hn Hlt) as [t Ht].
  exists c, t. repeat split; [exact Ht | exact Hp | exact (nth_error_In _ _ Hn)].
Qed.

Lemma lower_char_not_AZ (c : ascii) : is_AZ (lower_char c) = false.
Proof. destruct c as [[] [] [] [] [] [] [] []]; reflexivity. Qed.

Lemma upper_char_of_az (c : ascii) :
  is_az c = true -> isupper_char (upper_char c) = true.
Proof.
  destruct c as [[] [] [] [] [] [] [] []]; vm_compute; intros H;
    first [reflexivity | discriminate H].
Qed.

Lemma of_list_keys (words : list str) (w : str) :
  In w (map fst (Counter.of_list words)) -> In w words.
Proof.
  unfold Counter.of_list.
  assert (H : forall c, In w (map fst (fold_left (fun c w => Counter.incr c w 1) words c)) ->
                        In w (map fst c) \/ In w words).
  { induction words as [|x words IH]; intros c; simpl; [tauto|].
    intros H. apply IH in H as [H|H]; [|tauto].
    apply list_elem_of_In, incr_keys in H as [->|H]; [tauto|].
    left. apply list_elem_of_In, H. }
  intros Hin. apply H in Hin as [[]|Hin]. exact Hin.
Qed.

(** Every extracted entity begins with an upper-case letter. *)
Lemma extract_entities_upper (text e : str) :
  e ∈ _extract_entities text -> first_isupper e = Some true.
Proof.
  unfold _extract_entities. rewrite elem_of_union, !elem_of_list_to_set.
  intros [H|H].
  - unfold kept_matches in H. apply list_elem_of_filter in H as [_ H].
    apply list_elem_of_In in H.
    apply (findall_first is_AZ) in H as (c & t & -> & Hc & _);
      [|intros pos e0; apply match_at_first].
    simpl. unfold isupper_char. rewrite Hc. reflexivity.
  - unfold frequent_terms in H.
    apply list_elem_of_In, in_map_iff in H as ([w n] & <- & H).
    apply list_elem_of_In, list_elem_of_filter in H as [_ H].
    assert (Hw : In w (findall word_pattern (lower text))).
    { apply of_list_keys, in_map_iff. exists (w, n).
      split; [reflexivity | apply list_elem_of_In, H]. }
    apply (findall_first is_azAZ) in Hw as (c & t & -> & Hc & Hin);
      [|intros pos e0; apply match_at_first_rep].
    unfold lower in Hin. apply in_map_iff in Hin as (c0 & <- & _).
    unfold is_azAZ in Hc. rewrite lower_char_not_AZ, orb_false_r in Hc.
    simpl. rewrite (upper_char_of_az _ Hc). reflexivity.
Qed.

(** ** The nodes of the view *)

Lemma fold_incr_keys (l : list str) (c : Counter.t) (x : str) :
  x ∈ map fst (fold_left (fun c e => Counter.incr c e 1) l c) ->
  x ∈ map fst c \/ x ∈ l.
Proof.
  revert c. induction l as [|e l IH]; intros c; simpl; [tauto|].
  intros H. apply IH in H as [H|H].
  - apply incr_keys in H as [->|H]; [right; left | left; exact H].
  - right. right. exact H.
Qed.

Lemma top_entities_keys (self : t) (x : str) :
  x ∈ top_entities self -> x ∈ map fst (entity_frequencies self).
Proof.
  unfold top_entities, Counter.most_common. intros H.
  apply list_elem_of_In, in_map_iff in H as (p & <- & H).
  apply list_elem_of_In, subseteq_take in H.
  rewrite SortFacts.sorted_desc_perm in H.
  apply list_elem_of_In, in_map, list_elem_of_In, H.
Qed.

(** When every selected entity begins with an upper-case letter, every
    node is made, and is a proper noun. *)
Lemma make_nodes_proper (self : t) (ps : list (nat * list ascii)) :
  (forall p, p ∈ ps -> first_isupper (snd p) = Some true) ->
  exists nodes,
    mapM (fun p => make_node self (fst p) (snd p)) ps = Some nodes /\
    Forall (fun n => n_type n = "Proper Noun"%string) nodes.
Proof.
  induction ps as [|[i e] ps IH]; intros H.
  - exists []. split; [reflexivity|constructor].
  - destruct IH as (nodes & Hm & Hf); [intros p Hp; apply H; right; exact Hp|].
    assert (He : first_isupper e = Some true) by (apply (H (i, e)); left).
    assert (Hn : exists n, make_node self i e = Some n /\
                           n_type n = "Proper Noun"%string).
    { unfold make_node, entity_type. rewrite He. eexists. split; reflexivity. }
    destruct Hn as (n & Hn & Hty).
    exists (n :: nodes). split; [|constructor; assumption].
    apply mapM_Some_2. constructor; [exact Hn|]. apply mapM_Some_1, Hm.
Qed.

Lemma build_graph_proper (self : t) :
  (forall x, x ∈ map fst (entity_frequencies self) ->
             first_isupper x = Some true) ->
  exists v, build_graph self = Some v /\
    forall nodes, In ("nodes"%string, Nodes nodes) v ->
                  Forall (fun n => n_type n = "Proper Noun"%string) nodes.
Proof.
  intros H. unfold build_graph.
  destruct (top_entities self) as [|e top] eqn:Et.
  - eexists. split; [reflexivity|].
    intros nodes [Hn|[Hn|[]]]; [|discriminate]. injection Hn as <-. constructor.
  - destruct (make_nodes_proper self (imap (fun i e => (i, e)) (e :: top)))
      as (nodes & Hm & Hf).
    { intros p Hp. apply elem_of_lookup_imap in Hp as (i & x & -> & Hx).
      simpl. apply H, top_entities_keys. rewrite Et.
      apply list_elem_of_lookup_2 in Hx. exact Hx. }
    rewrite Hm. eexists. split; [reflexivity|].
    intros nodes' [Hn|[Hn|[Hn|[Hn|[]]]]]; try discriminate.
    injection Hn as <-. exact Hf.
Qed.

Section Reachable.
Variable set_iter : gset (list ascii) -> list (list ascii).
Hypothesis set_iter_perm : forall X, set_iter X ≡ₚ elements X.

Lemma add_document_keys (self : t) (doc_id text : str) (chunks : list str)
      (x : str) :
  x ∈ map fst (entity_frequencies (add_document set_iter self doc_id text chunks)) ->
  x ∈ map fst (entity_frequencies self) \/ x ∈ _extract_entities text.
Proof using set_iter_perm.
  unfold add_document.
  destruct (build_relationships_frame
              (set_iter (_extract_entities text))
              (fold_left (note_entity doc_id) (set_iter (_extract_entities text))
                 {| documents :=
                      <[doc_id := {| doc_text := text; doc_chunks := chunks;
                                     doc_entities := ∅ |}]> (documents self);
                    entities := entities self;
                    relationships := relationships self;
                    entity_frequencies := entity_frequencies self |}))
    as [_ ->].
  rewrite fold_note_frequencies. simpl.
  intros H. apply fold_incr_keys in H as [H|H]; [left; exact H|].
  right. apply (set_iter_elem set_iter set_iter_perm), H.
Qed.

Lemma ingest_keys_upper (docs : list (list ascii * list ascii * list str))
      (self : t) :
  (forall x, x ∈ map fst (entity_frequencies self) ->
             first_isupper x = Some true) ->
  forall x, x ∈ map fst (entity_frequencies (ingest set_iter self docs)) ->
            first_isupper x = Some true.
Proof using set_iter_perm.
  revert self. induction docs as [|[[doc_id text] chunks] docs IH];
    intros self H; [exact H|].
  change (ingest set_iter self ((doc_id, text, chunks) :: docs))
    with (ingest set_iter (add_document set_iter self doc_id text chunks) docs).
  apply IH. intros x Hx. apply add_document_keys in Hx as [Hx|Hx].
  - apply H, Hx.
  - apply (extract_entities_upper text), Hx.
Qed.

(** C10: every entity that the extraction returns begins with an
    upper-case letter; so for a builder that got its entities from
    [add_document], [build_graph] gives every node the type
    ["Proper Noun"], and never ["Concept"]. *)
Theorem nodes_are_proper_nouns :
  (forall (text e : str),
     e ∈ _extract_entities text ->
     first_isupper e = Some true /\ entity_type e = Some "Proper Noun"%string) /\
  (forall docs : list (list ascii * list ascii * list str),
     exists v, build_graph (ingest set_iter init docs) = Some v /\
       forall nodes, In ("nodes"%string, Nodes nodes) v ->
         Forall (fun n => n_type n = "Proper Noun"%string) nodes).
Proof using set_iter_perm.
  split.
  - intros text e H. apply extract_entities_upper in H.
    unfold entity_type. rewrite H. split; reflexivity.
  - intros docs. apply build_graph_proper.
    apply ingest_keys_upper. simpl. intros x Hx. inversion Hx.
Qed.

End Reachable.

End GraphProofs.
(* ===================================================================== *)
(** * Further properties of the chunker                                    *)
(* ===================================================================== *)

Module ChunkerExtras.
Import Py Re RAGEngine ChunkerProofs ChunkerVocabulary.

Lemma lstrip_split (s : str) : exists p, s = p ++ lstrip s /\ blank p.
Proof.
  induction s as [|c s (p & IH & Hp)]; simpl.
  - exists []. split; [reflexivity|constructor].
  - destruct (isspace c) eqn:E.
    + exists (c :: p). split; [simpl; congruence|constructor; assumption].
    + exists []. split; [reflexivity|constructor].
Qed.

Lemma blank_rev (s : str) : blank s -> blank (rev s).
Proof. apply Forall_rev. Qed.

(** [strip] removes whitespace at both ends and nothing else. *)
Lemma strip_split (s : str) :
  exists a b, s = a ++ strip s ++ b /\ blank a /\ blank b.
Proof.
  destruct (lstrip_split s) as (a & Ha & Hba).
  destruct (lstrip_split (rev (lstrip s))) as (b & Hb & Hbb).
  exists a, (rev b). unfold strip, rstrip.
  split; [|split; [exact Hba|apply blank_rev, Hbb]].
  rewrite <- rev_app_distr, <- Hb, rev_involutive. exact Ha.
Qed.

Lemma strip_excerpt (s : str) : excerpt (strip s) s.
Proof. destruct (strip_split s) as (a & b & H & _). exists a, b. exact H. Qed.

Lemma strip_length (s : str) : (length (strip s) <= length s)%nat.
Proof.
  destruct (strip_split s) as (a & b & H & _).
  rewrite H at 2. rewrite !length_app. lia.
Qed.

Lemma slice_excerpt (s : str) (i j : Z) : excerpt (slice s i j) s.
Proof.
  unfold slice. set (lo := Z.to_nat (clamp (len s) i)).
  set (n := Z.to_nat (clamp (len s) j - clamp (len s) i)).
  exists (firstn lo s), (skipn n (skipn lo s)).
  rewrite firstn_skipn, firstn_skipn. reflexivity.
Qed.

(** A slice between two bounds in order is no longer than their
    distance.  (With [j < 0 <= i] it can be: [s[0:-1]] is all of [s] but
    its last character.) *)
Lemma slice_length (s : str) (i j : Z) :
  i <= j -> len (slice s i j) <= j - i.
Proof.
  intros Hij. unfold slice, len. rewrite length_firstn.
  pose proof (Nat.le_min_l (Z.to_nat (clamp (Z.of_nat (length s)) j
                                      - clamp (Z.of_nat (length s)) i))
                           (length (skipn (Z.to_nat (clamp (Z.of_nat (length s)) i)) s))) as H.
  unfold len in *. unfold clamp in *.
  destruct (i <? 0) eqn:Ei; destruct (j <? 0) eqn:Ej;
    [apply Z.ltb_lt in Ei | apply Z.ltb_lt in Ei | apply Z.ltb_ge in Ei | apply Z.ltb_ge in Ei];
    [apply Z.ltb_lt in Ej | apply Z.ltb_ge in Ej | apply Z.ltb_lt in Ej | apply Z.ltb_ge in Ej];
    lia.
Qed.

Lemma excerpt_trans (a b c : str) : excerpt a b -> excerpt b c -> excerpt a c.
Proof.
  intros (p1 & q1 & ->) (p2 & q2 & ->).
  exists (p2 ++ p1), (q1 ++ q2). rewrite <- !app_assoc. reflexivity.
Qed.

Lemma startswith_length (sub s : str) :
  startswith sub s = true -> (length sub <= length s)%nat.
Proof.
  revert s. induction sub as [|a sub IH]; intros [|b s]; simpl; try lia; try discriminate.
  intros H. apply andb_prop in H as [_ H]. apply IH in H. lia.
Qed.

(** [rfind] returns [-1], or an index at which [sub] fits in the string. *)
Lemma rfind_from_bound (sub s : str) (i last : Z) :
  rfind_from sub s i last = last \/
  (i <= rfind_from sub s i last /\
   rfind_from sub s i last + len sub <= i + len s).
Proof.
  revert i last. induction s as [|c s IH]; intros i last; simpl.
  - destruct sub; simpl; [right; unfold len; simpl; lia | left; reflexivity].
  - destruct (startswith sub (c :: s)) eqn:E.
    + destruct (IH (i + 1) i) as [H|H].
      * right. rewrite H. apply startswith_length in E. unfold len. simpl length in *. lia.
      * right. unfold len in *. simpl length. lia.
    + destruct (IH (i + 1) last) as [H|H]; [left; exact H|].
      right. unfold len in *. simpl length. lia.
Qed.

Lemma rfind_bound (s sub : str) :
  rfind s sub = -1 \/ (0 <= rfind s sub /\ rfind s sub + len sub <= len s).
Proof.
  unfold rfind. destruct (rfind_from_bound sub s 0 (-1)) as [H|H]; [left; exact H|right; lia].
Qed.

Lemma last_period_bound (chunk : str) :
  last_period chunk = -1 \/ (0 <= last_period chunk /\ last_period chunk + 2 <= len chunk).
Proof.
  unfold last_period.
  destruct (rfind_bound chunk (lit ". ")) as [H1|H1];
  destruct (rfind_bound chunk (lit "! ")) as [H2|H2];
  destruct (rfind_bound chunk (lit "? ")) as [H3|H3];
  change (len (lit ". ")) with 2 in *; change (len (lit "! ")) with 2 in *;
  change (len (lit "? ")) with 2 in *; lia.
Qed.

(** With [chunk_size >= 0] a window ends at or after its start and is
    never longer than [chunk_size]: the snapped end lies inside the raw
    window. *)
Lemma window_end_bound (self : t) (text : str) (start : Z) :
  0 <= chunk_size self ->
  0 <= window_end self text start - start <= chunk_size self.
Proof.
  intros Hs. unfold window_end.
  destruct (start + chunk_size self <? len text); [|lia].
  destruct (chunk_size self <? 2 * last_period _) eqn:E; [|lia].
  apply Z.ltb_lt in E.
  pose proof (slice_length text start (start + chunk_size self)) as Hl.
  destruct (last_period_bound (slice text start (start + chunk_size self))) as [H|H]; lia.
Qed.

Lemma emit_good (self : t) (text : str) (chunks : list str) (start : Z) :
  Forall (good_chunk self text) chunks ->
  Forall (good_chunk self text)
    (emit chunks (strip (slice text start (window_end self text start)))).
Proof.
  intros H. unfold emit.
  destruct (strip _) as [|c s] eqn:E; [exact H|].
  apply Forall_app. split; [exact H|]. constructor; [|constructor].
  rewrite <- E. split; [rewrite E; discriminate|].
  split; [apply strip_idem|]. split.
  - eapply excerpt_trans; [apply strip_excerpt|apply slice_excerpt].
  - intros Hs.
    pose proof (strip_length (slice text start (window_end self text start))) as H1.
    pose proof (window_end_bound self text start Hs) as H3.
    pose proof (slice_length text start (window_end self text start)) as H2.
    assert (1 <= len (strip (slice text start (window_end self text start))))
      by (rewrite E; unfold len; simpl; lia).
    unfold len in *. lia.
Qed.

Lemma chunk_loop_good (self : t) (text : str) (fuel : nat) :
  forall chunks start r,
    Forall (good_chunk self text) chunks ->
    chunk_loop fuel self text chunks start = Some r ->
    Forall (good_chunk self text) r.
Proof.
  induction fuel as [|fuel IH]; intros chunks start r Hc.
  - destruct (Z.lt_ge_cases start (len text)).
    + rewrite chunk_loop_out_of_fuel by assumption. discriminate.
    + rewrite chunk_loop_done by assumption. intros [= <-]. exact Hc.
  - destruct (Z.lt_ge_cases start (len text)).
    + rewrite chunk_loop_step by assumption. apply IH, emit_good, Hc.
    + rewrite chunk_loop_done by assumption. intros [= <-]. exact Hc.
Qed.

(** X1: every chunk that [chunk_text] returns is not empty, has no white
    space at either end, is a contiguous piece of the cleaned text and,
    when [chunk_size] is not negative, has at most [chunk_size]
    characters. *)
Theorem chunk_text_chunks_shape (fuel : nat) (self : t) (text : str)
        (chunks : list str) :
  chunk_text fuel self text = Some chunks ->
  Forall (good_chunk self (clean text)) chunks.
Proof.
  unfold chunk_text. destruct (len (clean text) =? 0).
  - intros [= <-]. constructor.
  - apply (chunk_loop_good self (clean text) fuel [] 0). constructor.
Qed.

End ChunkerExtras.

Module CleanExtras.
Import Py Re RAGEngine ChunkerProofs ChunkerVocabulary CleanVocabulary ChunkerExtras.

Lemma skipn_nth {A : Type} (s : list A) (p : nat) (c : A) :
  nth_error s p = Some c -> skipn p s = c :: skipn (S p) s.
Proof.
  revert p. induction s as [|x s IH]; intros [|p] H; simpl in *; try discriminate.
  - injection H as ->. reflexivity.
  - apply IH, H.
Qed.

Lemma skipn_none {A : Type} (s : list A) (p : nat) :
  nth_error s p = None -> skipn p s = [].
Proof. intros H. apply skipn_all2, nth_error_None, H. Qed.

Lemma lead_length (s : str) : (lead s <= length s)%nat.
Proof. induction s as [|c s IH]; simpl; [lia|]. destruct (isspace c); simpl; lia. Qed.

(** [\s*] from [pos] on takes all the whitespace there is. *)
Lemma star_space (s : str) (pos : nat) :
  rmatch s (Star (Cls isspace)) Some pos = Some (pos + lead (skipn pos s))%nat.
Proof.
  pose (iter :=
          fix iter (fuel pos : nat) {struct fuel} : option nat :=
            match fuel with
            | O => Some pos
            | S fuel' =>
                match rmatch s (Cls isspace)
                        (fun pos' => if (pos <? pos')%nat
                                     then iter fuel' pos' else None) pos with
                | Some e => Some e
                | None => Some pos
                end
            end).
  assert (Hi : forall fuel p, (length s - p < fuel)%nat ->
               iter fuel p = Some (p + lead (skipn p s))%nat).
  { induction fuel as [|fuel IH]; intros p Hf; [lia|].
    change (iter (S fuel) p) with
      (match rmatch s (Cls isspace)
               (fun pos' => if (p <? pos')%nat then iter fuel pos' else None) p with
       | Some e => Some e
       | None => Some p
       end).
    simpl. destruct (nth_error s p) as [c|] eqn:En.
    - rewrite (skipn_nth s p c En). simpl. destruct (isspace c).
      + assert ((p <? S p)%nat = true) as -> by (apply Nat.ltb_lt; lia).
        assert (p < length s)%nat by (apply nth_error_Some; congruence).
        rewrite IH by lia. f_equal. lia.
      + f_equal. lia.
    - rewrite (skipn_none s p En). simpl. f_equal. lia. }
  exact (Hi (S (length s - pos)) pos ltac:(lia)).
Qed.

(** [\s+] matches at a whitespace character, up to the end of the run. *)
Lemma match_whitespace_run (s : str) (pos : nat) :
  match_at whitespace_run s pos =
  match nth_error s pos with
  | Some c => if isspace c
              then Some (S pos + lead (skipn (S pos) s))%nat else None
  | None => None
  end.
Proof.
  unfold match_at, whitespace_run, Plus.
  change (rmatch s (Cat (Cls isspace) (Star (Cls isspace))) Some pos)
    with (rmatch s (Cls isspace) (rmatch s (Star (Cls isspace)) Some) pos).
  change (rmatch s (Cls isspace) (rmatch s (Star (Cls isspace)) Some) pos)
    with (match nth_error s pos with
          | Some c => if isspace c
                      then rmatch s (Star (Cls isspace)) Some (S pos) else None
          | None => None
          end).
  destruct (nth_error s pos) as [c|]; [|reflexivity].
  destruct (isspace c); [|reflexivity]. apply star_space.
Qed.

Lemma scan_ge (r : regex) (s : str) (fuel pos : nat) (m : nat * nat) :
  In m (scan r s fuel pos) -> (pos <= fst m)%nat.
Proof.
  revert pos. induction fuel as [|fuel IH]; intros pos; simpl; [tauto|].
  destruct (length s <? pos)%nat; [simpl; tauto|].
  destruct (match_at r s pos) as [e|].
  - intros [<-|H]; [simpl; lia|]. apply IH in H.
    destruct (pos <? e)%nat eqn:E; [apply Nat.ltb_lt in E|]; lia.
  - intros H. apply IH in H. lia.
Qed.

Lemma splice_shift (s repl : str) (pos : nat) (c : ascii)
      (ms : list (nat * nat)) :
  nth_error s pos = Some c ->
  (forall m, In m ms -> (S pos <= fst m)%nat) ->
  splice s repl pos ms = c :: splice s repl (S pos) ms.
Proof.
  intros Hn Hms. destruct ms as [|m ms]; simpl.
  - apply skipn_nth, Hn.
  - rewrite (skipn_nth s pos c Hn).
    specialize (Hms m (or_introl eq_refl)).
    replace (fst m - pos)%nat with (S (fst m - S pos)) by lia. reflexivity.
Qed.

Lemma collapse_true (s : str) :
  collapse true s = collapse false (skipn (lead s) s).
Proof.
  induction s as [|c s IH]; simpl; [reflexivity|].
  destruct (isspace c) eqn:E; simpl; [exact IH|]. rewrite E. reflexivity.
Qed.

(** The scan of [re.sub] for [\s+] and one space, from [pos] on. *)
Lemma splice_collapse (s : str) (fuel : nat) :
  forall pos, (pos <= length s)%nat -> (length s - pos < fuel)%nat ->
    splice s (lit " ") pos (scan whitespace_run s fuel pos)
    = collapse false (skipn pos s).
Proof.
  induction fuel as [|fuel IH]; intros pos Hp Hf; [lia|].
  simpl scan.
  assert ((length s <? pos)%nat = false) as -> by (apply Nat.ltb_ge; lia).
  rewrite match_whitespace_run.
  destruct (nth_error s pos) as [c|] eqn:En.
  - assert (Hlt : (pos < length s)%nat) by (apply nth_error_Some; congruence).
    rewrite (skipn_nth s pos c En). simpl collapse.
    destruct (isspace c) eqn:Ec.
    + set (e := (S pos + lead (skipn (S pos) s))%nat).
      assert (He : (e <= length s)%nat).
      { pose proof (lead_length (skipn (S pos) s)) as H.
        rewrite length_skipn in H. unfold e. lia. }
      assert ((pos <? e)%nat = true) as -> by (apply Nat.ltb_lt; unfold e; lia).
      simpl splice. rewrite Nat.sub_diag. simpl.
      rewrite IH by (unfold e in *; lia).
      rewrite collapse_true, skipn_skipn. f_equal. f_equal. unfold e. f_equal. lia.
    + rewrite (splice_shift s (lit " ") pos c); [|exact En|].
      * rewrite IH by lia. reflexivity.
      * intros m Hm. apply scan_ge in Hm. exact Hm.
  - assert (Hs : scan whitespace_run s fuel (S pos) = []).
    { destruct fuel; [reflexivity|]. simpl.
      apply nth_error_None in En.
      assert ((length s <? S pos)%nat = true) as -> by (apply Nat.ltb_lt; lia).
      reflexivity. }
    rewrite Hs. simpl. rewrite (skipn_none s pos En). reflexivity.
Qed.

(** [re.sub(r'\s+', ' ', text)] is the text with its runs of whitespace
    collapsed. *)
Lemma sub_collapse (text : str) :
  sub whitespace_run (lit " ") text = collapse false text.
Proof.
  unfold sub, finditer.
  rewrite (splice_collapse text (S (length text)) O) by lia. reflexivity.
Qed.

Lemma clean_collapse (text : str) : clean text = strip (collapse false text).
Proof. unfold clean. rewrite sub_collapse. reflexivity. Qed.

Lemma collapse_head (s : str) :
  match collapse true s with [] => True | d :: _ => isspace d = false end.
Proof.
  induction s as [|c s IH]; simpl; [exact I|].
  destruct (isspace c) eqn:E; [exact IH|exact E].
Qed.

Lemma collapse_single_spaced (b : bool) (s : str) :
  single_spaced (collapse b s).
Proof.
  revert b. induction s as [|c s IH]; intros b; simpl; [exact I|].
  destruct (isspace c) eqn:E.
  - destruct b; [apply IH|]. simpl. split; [|apply IH].
    intros _. split; [reflexivity|apply collapse_head].
  - simpl. split; [|apply IH]. rewrite E. discriminate.
Qed.

Lemma single_spaced_app (a b : str) :
  single_spaced (a ++ b) -> single_spaced a /\ single_spaced b.
Proof.
  induction a as [|c a IH]; simpl; [tauto|].
  intros [Hc Hs]. destruct (IH Hs) as [Ha Hb]. split; [|exact Hb].
  split; [|exact Ha]. intros E. destruct (Hc E) as [-> Hn]. split; [reflexivity|].
  destruct a as [|d a]; [exact I|exact Hn].
Qed.

Lemma ink_collapse (b : bool) (s : str) : ink (collapse b s) = ink s.
Proof.
  unfold ink. revert b. induction s as [|c s IH]; intros b; simpl; [reflexivity|].
  rewrite filter_cons. destruct (isspace c) eqn:E.
  - destruct (decide (true = false)); [discriminate|].
    destruct b; [apply IH|]. rewrite filter_cons.
    destruct (decide (isspace " " = false)) as [H|_]; [discriminate H|]. apply IH.
  - rewrite filter_cons, E. destruct (decide (false = false)); [|congruence].
    f_equal. apply IH.
Qed.

Lemma ink_blank (s : str) : blank s -> ink s = [].
Proof.
  unfold ink. induction 1 as [|c s Hc Hs IH]; [reflexivity|].
  rewrite filter_cons, Hc. destruct (decide (true = false)); [discriminate|exact IH].
Qed.

Lemma ink_app (a b : str) : ink (a ++ b) = ink a ++ ink b.
Proof. apply filter_app. Qed.

Lemma ink_strip (s : str) : ink (strip s) = ink s.
Proof.
  destruct (strip_split s) as (a & b & H & Ha & Hb).
  rewrite H at 2. rewrite !ink_app, (ink_blank a Ha), (ink_blank b Hb), app_nil_r.
  reflexivity.
Qed.

Lemma collapse_fixed (s : str) : single_spaced s -> collapse false s = s.
Proof.
  induction s as [|c s IH]; simpl; [reflexivity|].
  intros [Hc Hs]. destruct (isspace c) eqn:E.
  - destruct (Hc eq_refl) as [-> Hn]. f_equal.
    destruct s as [|d s]; [reflexivity|]. rewrite <- (IH Hs) at 2.
    simpl. rewrite Hn. reflexivity.
  - f_equal. apply IH, Hs.
Qed.

Lemma clean_is_normal (text : str) :
  trimmed (clean text) /\
  single_spaced (clean text) /\
  ink (clean text) = ink text /\
  clean (clean text) = clean text.
Proof.
  assert (Ht : trimmed (clean text)) by (unfold trimmed, clean; apply strip_idem).
  assert (Hs : single_spaced (clean text)).
  { rewrite clean_collapse.
    destruct (strip_split (collapse false text)) as (a & b & H & _).
    pose proof (collapse_single_spaced false text) as Hc. rewrite H in Hc.
    apply single_spaced_app in Hc as [_ Hc].
    apply single_spaced_app in Hc as [Hc _]. exact Hc. }
  split; [exact Ht|]. split; [exact Hs|]. split.
  - rewrite clean_collapse, ink_strip. apply ink_collapse.
  - rewrite (clean_collapse (clean text)), (collapse_fixed _ Hs). exact Ht.
Qed.

(** X2: the cleaning at the start of [chunk_text] (line 67) gives a
    normal form: the cleaned text has no white space at either end, its
    white space is single spaces only, it has the characters of the text
    that are not white space, in their order, and cleaning it again
    changes nothing. *)
Theorem clean_normal_form (text : str) :
  trimmed (clean text) /\
  single_spaced (clean text) /\
  ink (clean text) = ink text /\
  clean (clean text) = clean text.
Proof. apply clean_is_normal. Qed.

End CleanExtras.

Module CoverExtras.
Import Py Re RAGEngine ChunkerProofs ChunkerVocabulary CleanVocabulary.
Import ChunkerExtras CleanExtras.

Lemma lstrip_blank (s : str) : blank s -> lstrip s = [].
Proof. induction 1 as [|c s Hc Hs IH]; simpl; [reflexivity|]. rewrite Hc. exact IH. Qed.

Lemma strip_blank (s : str) : blank s -> strip s = [].
Proof. intros H. unfold strip, rstrip. rewrite (lstrip_blank s H). reflexivity. Qed.

Lemma strip_nil_blank (s : str) : strip s = [] -> blank s.
Proof.
  intros E. destruct (strip_split s) as (a & b & H & Ha & Hb).
  rewrite E in H. rewrite H. apply Forall_app. split; assumption.
Qed.

Lemma ink_nil_blank (s : str) : ink s = [] -> blank s.
Proof.
  unfold ink, blank. induction s as [|c s IH]; [constructor|].
  rewrite filter_cons. destruct (decide (isspace c = false)) as [H|H]; [discriminate|].
  intros E. constructor; [destruct (isspace c); congruence|apply IH, E].
Qed.

Lemma clean_blank (text : str) : blank text -> clean text = [].
Proof.
  intros H. destruct (CleanExtras.clean_is_normal text) as (Ht & _ & Hi & _).
  rewrite (ink_blank text H) in Hi. apply ink_nil_blank, strip_blank in Hi.
  unfold trimmed in Ht. congruence.
Qed.

Lemma clean_not_blank (text : str) : ~ blank text -> clean text <> [].
Proof.
  intros H E. apply H. apply ink_nil_blank.
  destruct (CleanExtras.clean_is_normal text) as (_ & _ & Hi & _).
  rewrite <- Hi, E. reflexivity.
Qed.

Lemma chunk_loop_extends (self : t) (text : str) (fuel : nat) :
  forall chunks start r,
    chunk_loop fuel self text chunks start = Some r ->
    exists more, r = chunks ++ more.
Proof.
  induction fuel as [|fuel IH]; intros chunks start r.
  - destruct (Z.lt_ge_cases start (len text)) as [Hlt|Hge].
    + rewrite chunk_loop_out_of_fuel by assumption. discriminate.
    + rewrite chunk_loop_done by assumption. intros [= <-].
      exists []. symmetry. apply app_nil_r.
  - destruct (Z.lt_ge_cases start (len text)) as [Hlt|Hge].
    + rewrite chunk_loop_step by assumption. intros Hr.
      apply IH in Hr as [more ->].
      unfold emit. destruct (strip _); [eauto|]. rewrite <- app_assoc. eauto.
    + rewrite chunk_loop_done by assumption. intros [= <-].
      exists []. symmetry. apply app_nil_r.
Qed.

Lemma lstrip_length (s : str) : (length (lstrip s) <= length s)%nat.
Proof.
  destruct (lstrip_suffix s) as [p Hp]. rewrite Hp at 2.
  rewrite length_app. lia.
Qed.

(** A string without whitespace at its ends starts with a character that
    is not whitespace. *)
Lemma trimmed_head (c : ascii) (s : str) :
  trimmed (c :: s) -> isspace c = false.
Proof.
  unfold trimmed, strip, rstrip. intros H.
  destruct (isspace c) eqn:E; [|reflexivity]. exfalso.
  assert (Hl : (length (rev (lstrip (rev (lstrip (c :: s))))) <= length s)%nat).
  { assert (El : lstrip (c :: s) = lstrip s) by (simpl; rewrite E; reflexivity).
    rewrite El, length_rev.
    pose proof (lstrip_length (rev (lstrip s))) as H1.
    rewrite length_rev in H1.
    pose proof (lstrip_length s). lia. }
  rewrite H in Hl. simpl in Hl. lia.
Qed.

(** A slice from [0] on, in a string that is not empty. *)
Lemma slice_from_start (c : ascii) (s : str) (j : Z) :
  1 <= j -> exists t, slice (c :: s) 0 j = c :: t.
Proof.
  intros Hj. unfold slice.
  assert (H0 : clamp (len (c :: s)) 0 = 0) by (unfold clamp, len; simpl; lia).
  assert (H1 : 1 <= clamp (len (c :: s)) j).
  { unfold clamp, len. destruct (j <? 0) eqn:E; [apply Z.ltb_lt in E; lia|].
    simpl length. lia. }
  rewrite H0, Z.sub_0_r. simpl skipn.
  destruct (Z.to_nat (clamp (len (c :: s)) j)) as [|n] eqn:E; [lia|].
  simpl. eauto.
Qed.

Lemma window_end_first (self : t) (text : str) :
  1 <= chunk_size self -> 1 <= window_end self text 0.
Proof.
  intros Hs. unfold window_end. rewrite Z.add_0_l.
  destruct (chunk_size self <? len text); [|lia].
  destruct (chunk_size self <? 2 * last_period _) eqn:E; [|lia].
  apply Z.ltb_lt in E. lia.
Qed.

(** X3: a text of white space only (the empty text too) gives no chunk,
    whatever the configuration and the fuel; a text with a character that
    is not white space gives at least one chunk once [chunk_size] is at
    least one and the loop has ended. *)
Theorem chunk_text_blank (self : t) (text : str) :
  (blank text -> forall fuel, chunk_text fuel self text = Some []) /\
  (~ blank text -> 1 <= chunk_size self ->
   forall fuel chunks, chunk_text fuel self text = Some chunks -> chunks <> []).
Proof.
  split.
  - intros H fuel. unfold chunk_text. rewrite (clean_blank text H). reflexivity.
  - intros H Hs fuel chunks. unfold chunk_text.
    pose proof (clean_not_blank text H) as Hne.
    destruct (CleanExtras.clean_is_normal text) as (Ht & _).
    destruct (clean text) as [|c s] eqn:Ec; [congruence|].
    change (len (c :: s) =? 0) with false. cbv iota.
    destruct fuel as [|fuel];
      [rewrite chunk_loop_out_of_fuel by (unfold len; simpl; lia); discriminate|].
    rewrite chunk_loop_step by (unfold len; simpl; lia).
    destruct (slice_from_start c s (window_end self (c :: s) 0)
                (window_end_first self (c :: s) Hs)) as [t Hsl].
    rewrite Hsl.
    assert (Hc : isspace c = false) by (apply (trimmed_head c s), Ht).
    assert (Hst : strip (c :: t) <> []).
    { intros E. apply strip_nil_blank in E. inversion E; congruence. }
    intros Hr. apply chunk_loop_extends in Hr as [more ->].
    unfold emit. destruct (strip (c :: t)); [congruence|]. discriminate.
Qed.

(** A character that is not whitespace, found in a string between two
    blank strings, lies between them. *)
Lemma nth_in_middle (a m b : str) (k : nat) (c : ascii) :
  blank a -> blank b -> nth_error (a ++ m ++ b) k = Some c ->
  isspace c = false -> (length a <= k < length a + length m)%nat.
Proof.
  intros Ha Hb Hn Hc.
  assert (Hno : forall l : str, blank l -> ~ In c l).
  { intros l Hl Hin. unfold blank in Hl. rewrite Forall_forall in Hl.
    apply list_elem_of_In, Hl in Hin. congruence. }
  destruct (Nat.lt_ge_cases k (length a)) as [H1|H1].
  - rewrite nth_error_app1 in Hn by exact H1.
    exfalso. apply (Hno a Ha), (nth_error_In _ _ Hn).
  - rewrite nth_error_app2 in Hn by exact H1.
    destruct (Nat.lt_ge_cases (k - length a) (length m)) as [H2|H2]; [lia|].
    rewrite nth_error_app2 in Hn by exact H2.
    exfalso. apply (Hno b Hb), (nth_error_In _ _ Hn).
Qed.

(** The chunk cut from the window [start..end_) holds every character of
    the window that is not whitespace, at its place in the text. *)
Lemma window_covers (text : str) (start end_ : Z) (i : nat) (c : ascii) :
  0 <= start -> start <= Z.of_nat i < end_ ->
  nth_error text i = Some c -> isspace c = false ->
  exists pre post,
    text = pre ++ strip (slice text start end_) ++ post /\
    (length pre <= i < length pre + length (strip (slice text start end_)))%nat.
Proof.
  intros Hs Hi Hn Hc.
  assert (Hlen : (i < length text)%nat) by (apply nth_error_Some; congruence).
  unfold slice.
  assert (Hlo : clamp (len text) start = start).
  { unfold clamp, len. destruct (start <? 0) eqn:E; [apply Z.ltb_lt in E|]; lia. }
  assert (Hhi : clamp (len text) end_ = Z.min end_ (len text)).
  { unfold clamp. destruct (end_ <? 0) eqn:E; [apply Z.ltb_lt in E; lia|reflexivity]. }
  rewrite Hlo, Hhi.
  set (lo := Z.to_nat start).
  set (n := Z.to_nat (Z.min end_ (len text) - start)).
  set (S0 := firstn n (skipn lo text)).
  assert (Hsplit : text = firstn lo text ++ S0 ++ skipn n (skipn lo text)).
  { unfold S0. rewrite firstn_skipn, firstn_skipn. reflexivity. }
  assert (Hplen : length (firstn lo text) = lo).
  { rewrite length_firstn. unfold lo. lia. }
  assert (Hk : nth_error S0 (i - lo) = Some c).
  { unfold S0. rewrite nth_error_firstn.
    assert ((i - lo <? n)%nat = true) as ->
      by (apply Nat.ltb_lt; unfold n, lo, len; lia).
    rewrite nth_error_skipn. replace (lo + (i - lo))%nat with i by (unfold lo; lia).
    exact Hn. }
  destruct (strip_split S0) as (a & b & HS & Ha & Hb).
  rewrite HS in Hk.
  pose proof (nth_in_middle a (strip S0) b (i - lo) c Ha Hb Hk Hc) as Hmid.
  exists (firstn lo text ++ a), (b ++ skipn n (skipn lo text)).
  split.
  - rewrite Hsplit at 1. rewrite HS at 1. rewrite <- !app_assoc. reflexivity.
  - rewrite length_app, Hplen. unfold lo in *. lia.
Qed.

Lemma covered_more (text : str) (chunks more : list str) (i : nat) :
  covered text chunks i -> covered text (chunks ++ more) i.
Proof.
  intros (chunk & pre & post & Hin & H). exists chunk, pre, post.
  split; [apply elem_of_app; left; exact Hin | exact H].
Qed.

(** The loop, when the windows move forward and meet or overlap: what the
    chunks covered up to the end of the last window, they cover up to the
    end of the text when the loop is over. *)
Lemma chunk_loop_covers (self : t) (text : str) :
  0 <= chunk_overlap self ->
  (forall start, start < next_start self text start) ->
  forall fuel chunks start done r,
    0 <= start <= done ->
    (forall i c, Z.of_nat i < done -> nth_error text i = Some c ->
                 isspace c = false -> covered text chunks i) ->
    chunk_loop fuel self text chunks start = Some r ->
    forall i c, nth_error text i = Some c -> isspace c = false ->
                covered text r i.
Proof.
  intros Hov Hp. induction fuel as [|fuel IH]; intros chunks start done r Hs Hc.
  - destruct (Z.lt_ge_cases start (len text)) as [Hlt|Hge].
    + rewrite chunk_loop_out_of_fuel by assumption. discriminate.
    + rewrite chunk_loop_done by assumption. intros [= <-] i c Hn Hsp.
      apply (Hc i c); [|assumption..].
      assert (i < length text)%nat by (apply nth_error_Some; congruence).
      unfold len in *. lia.
  - destruct (Z.lt_ge_cases start (len text)) as [Hlt|Hge].
    + rewrite chunk_loop_step by assumption.
      pose proof (Hp start) as Hprog. unfold next_start in Hprog.
      apply (IH _ _ (window_end self text start)).
      * unfold next_start. lia.
      * intros i c Hi Hn Hsp.
        destruct (Z.lt_ge_cases (Z.of_nat i) done) as [Hd|Hd].
        -- unfold emit. destruct (strip _); [apply (Hc i c); assumption|].
           apply covered_more, (Hc i c); assumption.
        -- destruct (window_covers text start (window_end self text start) i c)
             as (pre & post & Ht & Hr); [lia | lia | assumption | assumption |].
           unfold emit.
           destruct (strip (slice text start (window_end self text start)))
             as [|x chunk] eqn:E; [simpl in Hr; lia|].
           exists (x :: chunk), pre, post. split; [|split; assumption].
           apply elem_of_app. right. left.
    + rewrite chunk_loop_done by assumption. intros [= <-] i c Hn Hsp.
      apply (Hc i c); [|assumption..].
      assert (i < length text)%nat by (apply nth_error_Some; congruence).
      unfold len in *. lia.
Qed.

(** X4: no character is lost.  With [0 <= chunk_overlap < chunk_size] and
    [2 * chunk_overlap <= chunk_size + 1] the loop ends within as many
    rounds as the cleaned text has characters, and every character of the
    cleaned text that is not white space lies inside one of the chunks,
    the chunk taken as a piece of the cleaned text. *)
Theorem chunk_text_covers (self : t) (text : str) (fuel : nat) :
  0 <= chunk_overlap self < chunk_size self ->
  2 * chunk_overlap self <= chunk_size self + 1 ->
  (length (clean text) <= fuel)%nat ->
  exists chunks,
    chunk_text fuel self text = Some chunks /\
    forall i c, nth_error (clean text) i = Some c -> isspace c = false ->
                covered (clean text) chunks i.
Proof.
  intros [Hov Hlt] H2 Hf.
  assert (Hp : forall start, start < next_start self (clean text) start)
    by (intros; apply next_start_progress; [assumption|lia]).
  unfold chunk_text. destruct (len (clean text) =? 0) eqn:E.
  - exists []. split; [reflexivity|]. intros i c Hn _.
    apply Z.eqb_eq in E. destruct (clean text); [destruct i; discriminate|].
    unfold len in E. simpl in E. lia.
  - destruct (chunk_loop_enough self (clean text) Hp fuel [] 0) as [r Hr];
      [unfold len; lia|].
    exists r. split; [exact Hr|].
    apply (chunk_loop_covers self (clean text) Hov Hp fuel [] 0 0 r); [lia| |exact Hr].
    intros i c Hi. lia.
Qed.

End CoverExtras.

(* ===================================================================== *)
(** * Further properties of the vector store                               *)
(* ===================================================================== *)

Module StoreExtras.
Import Py VectorStore StoreVocabulary StoreProofs StoreTerms.

Section Deleting.
Variable encode : list ascii -> list spec_float.
Variable document_id : list ascii.

(** What [delete_document] returns on a store whose counts agree: the
    passages of the other documents, and, when a passage was removed, an
    index rebuilt from the encoder. *)
Lemma delete_document_result (self : t) :
  well_formed self ->
  (forall text, Z.of_nat (length (encode text)) = dimension self) ->
  exists self',
    delete_document encode self document_id = Some self' /\
    chunk_texts self' = map fst (others document_id self) /\
    chunks_metadata self' = map snd (others document_id self) /\
    dimension self' = dimension self /\
    well_formed self' /\
    (Forall (fun m => ~ owned_by document_id m) (chunks_metadata self) ->
     self' = self) /\
    (Exists (owned_by document_id) (chunks_metadata self) ->
     index self' = {| d := dimension self;
                      xb := map encode (chunk_texts self') |}).
Proof.
  intros [Hx Hm] Hdim.
  destruct (keep_from_items document_id (chunks_metadata self) (chunk_texts self)
              [] []) as [H1 H2]; [symmetry; exact Hm | reflexivity |].
  assert (H1' : mapM (getitem (chunk_texts self)) (indices_to_keep self document_id)
                = Some (map fst (others document_id self))) by exact H1.
  assert (H2' : mapM (getitem (chunks_metadata self)) (indices_to_keep self document_id)
                = Some (map snd (others document_id self))) by exact H2.
  assert (Hk : length (indices_to_keep self document_id)
               = length (filter (fun m => ~ owned_by document_id m)
                                (chunks_metadata self)))
    by exact (keep_from_length document_id O (chunks_metadata self)).
  pose proof (filter_split_length (owned_by document_id) (chunks_metadata self))
    as Hsplit.
  destruct (decide (Forall (fun m => ~ owned_by document_id m)
                           (chunks_metadata self))) as [Hall|Hex].
  - assert (E : filter (fun m => ~ owned_by document_id m) (chunks_metadata self)
                = chunks_metadata self).
    { clear -Hall. induction Hall as [|m ms Hm Hall IH]; [reflexivity|].
      rewrite filter_cons. destruct (decide _); [|contradiction].
      f_equal. exact IH. }
    assert (Eo : others document_id self = passages self).
    { unfold others, passages. clear -Hall Hm.
      revert Hm. generalize (chunk_texts self).
      induction Hall as [|m ms Hm' Hall IH]; intros [|t ts] Hlen;
        try discriminate; try reflexivity.
      change (zip (t :: ts) (m :: ms)) with ((t, m) :: zip ts ms).
      rewrite filter_cons. simpl. destruct (decide _); [|contradiction].
      f_equal. apply IH. simpl in Hlen. lia. }
    exists self. unfold delete_document. cbv zeta. rewrite Hk, E, Z.eqb_refl.
    split; [reflexivity|]. rewrite Eo. unfold passages.
    split; [symmetry; apply fst_zip; lia|].
    split; [symmetry; apply snd_zip; lia|].
    split; [reflexivity|]. split; [split; assumption|]. split; [reflexivity|].
    intros Hex. exfalso. apply Exists_exists in Hex as (m & Hin & Ho).
    rewrite Forall_forall in Hall. exact (Hall m Hin Ho).
  - assert (Hex' : Exists (owned_by document_id) (chunks_metadata self)).
    { apply not_Forall_Exists in Hex; [|apply _].
      apply Exists_exists. apply Exists_exists in Hex as (m & Hin & Ho).
      exists m. split; [exact Hin|]. simpl in Ho.
      destruct (decide (owned_by document_id m)); [assumption|contradiction]. }
    assert (Hlt : (0 < length (filter (owned_by document_id)
                                      (chunks_metadata self)))%nat).
    { clear -Hex'. induction Hex' as [m ms Ho|m ms Hex IH]; rewrite filter_cons.
      - destruct (decide _); [simpl; lia|contradiction].
      - destruct (decide _); simpl; lia. }
    unfold delete_document. cbv zeta.
    destruct (Z.of_nat (length (indices_to_keep self document_id))
              =? Z.of_nat (length (chunks_metadata self))) eqn:E;
      [apply Z.eqb_eq in E; lia|].
    rewrite H1', H2'.
    destruct (map fst (others document_id self)) as [|t ts] eqn:Et.
    + assert (Hnil : others document_id self = [])
        by (destruct (others document_id self); [reflexivity|discriminate]).
      eexists. split; [reflexivity|]. unfold well_formed. simpl.
      rewrite Hnil. simpl.
      do 3 (split; [reflexivity|]). split; [split; reflexivity|].
      split; [|reflexivity].
      intros Hall. exfalso. apply Exists_exists in Hex' as (m & Hin & Ho).
      rewrite Forall_forall in Hall. exact (Hall m Hin Ho).
    + rewrite index_add_ok.
      2:{ apply Forall_forall. intros v Hv.
          apply list_elem_of_In, in_map_iff in Hv as (x & <- & _).
          apply Hdim. }
      eexists. split; [reflexivity|]. unfold well_formed, generate_embeddings.
      cbn [index chunk_texts chunks_metadata xb dimension].
      do 3 (split; [reflexivity|]).
      split; [split; [apply length_map | rewrite <- Et, !length_map; reflexivity]|].
      split; [|reflexivity].
      intros Hall. exfalso. apply Exists_exists in Hex' as (m & Hin & Ho).
      rewrite Forall_forall in Hall. exact (Hall m Hin Ho).
Qed.

(** Without a passage of the document there is nothing to delete,
    whatever the state of the store. *)
Lemma delete_document_absent (self : t) :
  Forall (fun m => ~ owned_by document_id m) (chunks_metadata self) ->
  delete_document encode self document_id = Some self.
Proof.
  intros Hall. unfold delete_document. cbv zeta.
  assert (Hk : length (indices_to_keep self document_id)
               = length (filter (fun m => ~ owned_by document_id m)
                                (chunks_metadata self)))
    by exact (keep_from_length document_id O (chunks_metadata self)).
  assert (E : filter (fun m => ~ owned_by document_id m) (chunks_metadata self)
              = chunks_metadata self).
  { clear -Hall. induction Hall as [|m ms Hm Hall IH]; [reflexivity|].
    rewrite filter_cons. destruct (decide _); [|contradiction].
    f_equal. exact IH. }
  rewrite Hk, E, Z.eqb_refl. reflexivity.
Qed.

Lemma others_not_owned (self : t) :
  Forall (fun m => ~ owned_by document_id m)
         (map snd (others document_id self)).
Proof.
  apply Forall_forall. intros m Hm.
  apply list_elem_of_In, in_map_iff in Hm as (p & <- & Hp).
  apply list_elem_of_In, list_elem_of_filter in Hp as [Hp _]. exact Hp.
Qed.

(** X6: [delete_document] is complete and idempotent.  On a store whose
    counts agree, with an encoder of the dimension of the store, it
    returns a store without any passage of the document, and deleting the
    same document from that store again returns it unchanged. *)
Theorem delete_document_twice (self : t) :
  well_formed self ->
  (forall text, Z.of_nat (length (encode text)) = dimension self) ->
  exists self',
    delete_document encode self document_id = Some self' /\
    Forall (fun m => ~ owned_by document_id m) (chunks_metadata self') /\
    delete_document encode self' document_id = Some self'.
Proof.
  intros Hwf Hdim.
  destruct (delete_document_result self Hwf Hdim)
    as (self' & Hd & _ & Hm & _).
  assert (Hno : Forall (fun m => ~ owned_by document_id m) (chunks_metadata self'))
    by (rewrite Hm; apply others_not_owned).
  exists self'. split; [exact Hd|]. split; [exact Hno|].
  apply delete_document_absent, Hno.
Qed.


Lemma filter_none {A : Type} (P : A -> Prop) `{!forall x, Decision (P x)}
      (l : list A) :
  Forall (fun x => ~ P x) l -> filter P l = [].
Proof.
  induction 1 as [|x l Hx Hl IH]; [reflexivity|].
  rewrite filter_cons. destruct (decide (P x)); [contradiction|exact IH].
Qed.

Lemma filter_all {A : Type} (P : A -> Prop) `{!forall x, Decision (P x)}
      (l : list A) :
  Forall P l -> filter P l = l.
Proof.
  induction 1 as [|x l Hx Hl IH]; [reflexivity|].
  rewrite filter_cons. destruct (decide (P x)); [|contradiction].
  f_equal. exact IH.
Qed.

Lemma Forall_snd_zip {A B : Type} (P : B -> Prop) (ts : list A) (ms : list B) :
  Forall P ms -> Forall (fun p => P (snd p)) (zip ts ms).
Proof.
  intros H. revert ts. induction H as [|m ms Hm Hms IH]; intros [|t ts];
    try constructor; [exact Hm | apply IH].
Qed.

(** X7: on a store whose counts of rows, texts and metadata agree, with
    an encoder that gives vectors of the store's dimension: adding the
    chunks of a document whose id no passage of the store carries (one
    metadata entry per chunk, each with that id; one row per chunk when
    the embeddings are passed, at least one chunk when they are not), and
    then deleting that document, gives back the passages and the size
    that the store had before. *)
Theorem add_then_delete (self self1 : t) (chunks : list str)
        (metadata : list (gmap (list ascii) value))
        (embeddings : option (list (list spec_float))) (ids : list Z) :
  well_formed self ->
  (forall text, Z.of_nat (length (encode text)) = dimension self) ->
  Forall (fun m => ~ owned_by document_id m) (chunks_metadata self) ->
  Forall (owned_by document_id) metadata ->
  length metadata = length chunks ->
  (forall e, embeddings = Some e -> length e = length chunks) ->
  (embeddings = None -> chunks <> []) ->
  add_chunks encode self chunks metadata embeddings = Some (self1, ids) ->
  exists self2,
    delete_document encode self1 document_id = Some self2 /\
    passages self2 = passages self /\
    get_size self2 = get_size self /\
    well_formed self2.
Proof.
  intros Hwf Hdim Hold Hnew Hlen Hemb _ Hadd.
  destruct (add_chunks_well_formed encode self self1 chunks metadata embeddings
              ids Hwf Hlen Hemb Hadd) as (Hwf1 & Hsz & Ht & Hm & _).
  assert (Hd1 : dimension self1 = dimension self).
  { unfold add_chunks in Hadd.
    destruct (index_add _ _); [|discriminate]. injection Hadd as <- _. reflexivity. }
  destruct (delete_document_result self1 Hwf1)
    as (self2 & Hd & Ht2 & Hm2 & _ & Hwf2 & _); [rewrite Hd1; exact Hdim|].
  assert (Ho : others document_id self1 = passages self).
  { unfold others, passages. rewrite Ht, Hm.
    destruct Hwf as [_ Hml].
    rewrite zip_with_app by (symmetry; exact Hml).
    rewrite filter_app.
    rewrite (filter_all (fun p => ~ owned_by document_id (snd p)))
      by (apply (Forall_snd_zip (fun m => ~ owned_by document_id m)), Hold).
    rewrite (filter_none (fun p => ~ owned_by document_id (snd p))).
    - apply app_nil_r.
    - apply (Forall_snd_zip (fun m => ~ ~ owned_by document_id m)).
      eapply Forall_impl; [exact Hnew|]. intros m H1 H2. exact (H2 H1). }
  exists self2. split; [exact Hd|].
  assert (Hp : passages self2 = passages self).
  { unfold passages at 1. rewrite Ht2, Hm2, Ho. apply zip_fst_snd_map. }
  split; [exact Hp|]. split; [|exact Hwf2].
  destruct Hwf2 as [Hx2 Hm2']. destruct Hwf as [Hx Hm'].
  unfold get_size, ntotal. rewrite Hx2, Hx. f_equal.
  rewrite Ht2, Ho, length_map. unfold passages.
  rewrite length_zip_with. lia.
Qed.

End Deleting.

End StoreExtras.

Module SearchExtras.
Import Py VectorStore StoreVocabulary StoreProofs StoreTerms StoreExtras.

Lemma getitem_nth {A : Type} (l : list A) (i : Z) (dflt : A) :
  0 <= i < Z.of_nat (length l) ->
  getitem l i = Some (nth (Z.to_nat i) l dflt).
Proof.
  intros Hi. unfold getitem. cbv zeta.
  destruct (i <? - Z.of_nat (length l)) eqn:E1; [apply Z.ltb_lt in E1; lia|].
  destruct (Z.of_nat (length l) <=? i) eqn:E2; [apply Z.leb_le in E2; lia|].
  destruct (i <? 0) eqn:E3; [apply Z.ltb_lt in E3; lia|]. simpl.
  apply nth_error_nth'. lia.
Qed.

Lemma getitem_elem {A : Type} (l : list A) (i : Z) (x : A) :
  getitem l i = Some x -> x ∈ l.
Proof.
  unfold getitem. cbv zeta. destruct (_ || _); [discriminate|].
  intros H. apply list_elem_of_In. eapply nth_error_In, H.
Qed.

(** The loop of lines 89-100 on hits that are rows of the store. *)
Lemma format_results_imap (self : t) (hits : list (spec_float * Z)) :
  length (chunks_metadata self) = length (chunk_texts self) ->
  Forall (fun h => 0 <= snd h < Z.of_nat (length (chunk_texts self))) hits ->
  forall off : nat,
    format_results self (Z.of_nat off) hits
    = Some (imap (fun j h => entry self (off + j) h) hits).
Proof.
  intros Hm. induction 1 as [|[dist idx] hits Hh Hhits IH]; intros off;
    [reflexivity|].
  simpl in Hh. rewrite imap_cons. simpl format_results.
  destruct (idx <? Z.of_nat (length (chunk_texts self))) eqn:E;
    [|apply Z.ltb_ge in E; lia].
  rewrite (getitem_nth (chunk_texts self) idx []) by lia.
  rewrite (getitem_nth (chunks_metadata self) idx ∅) by lia.
  replace (Z.of_nat off + 1) with (Z.of_nat (S off)) by lia.
  rewrite IH. unfold entry at 2. simpl. rewrite Nat.add_0_r.
  replace (Z.of_nat (S off)) with (Z.of_nat off + 1) by lia.
  do 2 f_equal. apply imap_ext. intros j h _. simpl.
  unfold entry. f_equal. lia.
Qed.

(** Whatever the hits are, an entry of the answer shows the text and the
    metadata found at one index of the two lists. *)
Lemma format_results_sound (self : t) (hits : list (spec_float * Z)) :
  forall (i : Z) (results : list result),
    format_results self i hits = Some results ->
    forall r, r ∈ results ->
      exists idx, getitem (chunk_texts self) idx = Some (r_text r) /\
                  getitem (chunks_metadata self) idx = Some (r_metadata r).
Proof.
  induction hits as [|[dist idx] hits IH]; intros i results H r Hr.
  - injection H as <-. inversion Hr.
  - simpl in H.
    destruct (idx <? Z.of_nat (length (chunk_texts self))); [|eauto].
    destruct (getitem (chunk_texts self) idx) as [text|] eqn:Et; [|discriminate].
    destruct (getitem (chunks_metadata self) idx) as [m|] eqn:Em; [|discriminate].
    destruct (format_results self (i + 1) hits) as [rest|] eqn:Er; [|discriminate].
    injection H as <-. apply elem_of_cons in Hr as [->|Hr].
    + exists idx. simpl. split; assumption.
    + eapply IH; [exact Er|exact Hr].
Qed.

Section Searching.
Variable encode : list ascii -> list spec_float.

Lemma ranking_rows (self : t) (query : str) :
  length (rank_hits (all_hits (index self) (encode query)))
  = length (xb (index self)) /\
  Forall (fun h => 0 <= snd h < ntotal (index self))
         (rank_hits (all_hits (index self) (encode query))).
Proof.
  destruct (all_hits_facts (index self) (encode query)) as (_ & Hf & Hlen).
  pose proof (rank_hits_perm (all_hits (index self) (encode query))) as Hp.
  split.
  - rewrite <- Hlen. apply Permutation_length, Hp.
  - apply Forall_forall. intros h Hh. rewrite Hp in Hh.
    rewrite Forall_forall in Hf. apply (Hf h Hh).
Qed.

(** The answer of [similarity_search] on a store whose counts agree: one
    entry per hit of the ranking, for the first [top_k] hits. *)
Lemma similarity_search_entries (self : t) (query : str) (top_k : Z) :
  well_formed self ->
  Z.of_nat (length (encode query)) = d (index self) ->
  1 <= top_k ->
  similarity_search encode self query top_k
  = Some (imap (entry self)
               (take (Z.to_nat top_k)
                     (rank_hits (all_hits (index self) (encode query))))).
Proof.
  intros [Hx Hm] Hq Hk. unfold similarity_search.
  destruct (ranking_rows self query) as [Hlen Hrows].
  destruct (ntotal (index self) =? 0) eqn:E.
  - apply Z.eqb_eq in E. unfold ntotal in E.
    destruct (rank_hits (all_hits (index self) (encode query))) as [|h l];
      [destruct (Z.to_nat top_k); reflexivity|].
    simpl in Hlen. lia.
  - apply Z.eqb_neq in E. unfold search_hits, index_search.
    rewrite Hq, Z.eqb_refl. simpl negb. simpl orb.
    destruct (Z.min top_k (ntotal (index self)) <? 1) eqn:E2;
      [apply Z.ltb_lt in E2; unfold ntotal in *; lia|].
    set (ranking := rank_hits (all_hits (index self) (encode query))) in *.
    assert (Et : take (Z.to_nat (Z.min top_k (ntotal (index self)))) ranking
                 = take (Z.to_nat top_k) ranking).
    { destruct (Z.le_gt_cases top_k (ntotal (index self))) as [Hle|Hgt].
      - rewrite Z.min_l by lia. reflexivity.
      - rewrite Z.min_r by lia. unfold ntotal in *.
        rewrite !take_ge by lia. reflexivity. }
    rewrite Et. change 0 with (Z.of_nat 0).
    rewrite format_results_imap.
    + f_equal.
    + exact Hm.
    + apply Forall_take. eapply Forall_impl; [exact Hrows|].
      intros h Hh. unfold ntotal in Hh. simpl in Hh. lia.
Qed.



End Searching.

End SearchExtras.

(* ===================================================================== *)
(** * Further properties of the knowledge graph                            *)
(* ===================================================================== *)

Module EntityExtras.
Import Py Re KnowledgeGraphBuilder RegexTerms GraphProofs.

(** What a successful match took from the string: at least [min_len r]
    characters, all of the string and all within the classes. *)
Lemma rmatch_consumes (P : ascii -> bool) (s : list ascii) (r : regex) :
  classes_within P r ->
  forall (k : nat -> option nat) (pos e : nat),
    rmatch s r k pos = Some e ->
    exists pos', (pos + min_len r <= pos')%nat /\ k pos' = Some e /\
      ((pos <= length s)%nat -> (pos' <= length s)%nat) /\
      forall i, (pos <= i < pos')%nat ->
        exists c, nth_error s i = Some c /\ P c = true.
Proof.
  induction r as [p| |r1 IH1 r2 IH2|r1 IH1]; intros Hc k pos e.
  - simpl. destruct (nth_error s pos) as [c|] eqn:En; [|discriminate].
    destruct (p c) eqn:Ep; [|discriminate]. intros H. exists (S pos).
    split; [lia|]. split; [exact H|]. split.
    + intros _. assert (nth_error s pos <> None) by congruence.
      apply nth_error_Some in H0. lia.
    + intros i Hi. assert (i = pos) as -> by lia. exists c.
      split; [exact En | apply Hc, Ep].
  - simpl. destruct (at_boundary s pos); [|discriminate]. intros H.
    exists pos. split; [lia|]. split; [exact H|]. split; [auto|].
    intros i Hi. lia.
  - simpl. destruct Hc as [Hc1 Hc2]. intros H.
    apply (IH1 Hc1) in H as (p1 & Hp1 & H & Hl1 & Hch1).
    apply (IH2 Hc2) in H as (p2 & Hp2 & H & Hl2 & Hch2).
    exists p2. split; [lia|]. split; [exact H|]. split; [auto|].
    intros i Hi. destruct (Nat.lt_ge_cases i p1) as [Hlt|Hge];
      [apply Hch1; lia | apply Hch2; lia].
  - simpl in Hc.
    pose (iter :=
            fix iter (fuel pos : nat) {struct fuel} : option nat :=
              match fuel with
              | O => k pos
              | S fuel' =>
                  match rmatch s r1
                          (fun pos' => if (pos <? pos')%nat
                                       then iter fuel' pos' else None) pos with
                  | Some e => Some e
                  | None => k pos
                  end
              end).
    assert (Hi : forall fuel p0, iter fuel p0 = Some e ->
                 exists pos', (p0 <= pos')%nat /\ k pos' = Some e /\
                   ((p0 <= length s)%nat -> (pos' <= length s)%nat) /\
                   forall i, (p0 <= i < pos')%nat ->
                     exists c, nth_error s i = Some c /\ P c = true).
    { induction fuel as [|fuel IHf]; intros p0 H.
      - exists p0. split; [lia|]. split; [exact H|]. split; [auto|].
        intros i Hi. lia.
      - change (match rmatch s r1
                        (fun pos' => if (p0 <? pos')%nat
                                     then iter fuel pos' else None) p0 with
                | Some e => Some e
                | None => k p0
                end = Some e) in H.
        destruct (rmatch s r1 _ p0) as [e'|] eqn:E.
        + injection H as ->.
          apply (IH1 Hc) in E as (p1 & Hp1 & E & Hl1 & Hch1).
          destruct (p0 <? p1)%nat; [|discriminate].
          apply IHf in E as (p2 & Hp2 & E & Hl2 & Hch2).
          exists p2. split; [lia|]. split; [exact E|]. split; [auto|].
          intros i Hi. destruct (Nat.lt_ge_cases i p1) as [Hlt|Hge];
            [apply Hch1; lia | apply Hch2; lia].
        + exists p0. split; [lia|]. split; [exact H|]. split; [auto|].
          intros i Hi. lia. }
    intros H. destruct (Hi (S (length s - pos)) pos H)
      as (pos' & H1 & H2 & H3 & H4).
    exists pos'. simpl. split; [lia|]. auto.
Qed.

Lemma scan_start (r : regex) (s : str) (fuel pos : nat) (m : nat * nat) :
  In m (scan r s fuel pos) -> (fst m <= length s)%nat.
Proof.
  revert pos. induction fuel as [|fuel IH]; intros pos; simpl; [tauto|].
  destruct (length s <? pos)%nat eqn:El; [simpl; tauto|].
  apply Nat.ltb_ge in El.
  destruct (match_at r s pos) as [e|] eqn:E.
  - intros [<-|H]; [exact El | exact (IH _ H)].
  - apply IH.
Qed.

Lemma span_chars (P : ascii -> Prop) (s : str) (a b : nat) :
  (forall i, (a <= i < b)%nat -> exists c, nth_error s i = Some c /\ P c) ->
  Forall P (span s (a, b)).
Proof.
  intros H. unfold span. simpl. apply Forall_forall. intros c Hc.
  apply list_elem_of_In, In_nth_error in Hc as [i Hi].
  assert (Hlt : (i < b - a)%nat).
  { assert (Hn : nth_error (firstn (b - a) (skipn a s)) i <> None) by congruence.
    apply nth_error_Some in Hn. rewrite length_firstn in Hn. lia. }
  rewrite nth_error_firstn in Hi.
  destruct (i <? b - a)%nat eqn:E; [|apply Nat.ltb_ge in E; lia].
  rewrite nth_error_skipn in Hi.
  destruct (H (a + i)%nat) as (c' & Hc' & Hp); [lia|].
  rewrite Hc' in Hi. injection Hi as <-. exact Hp.
Qed.

Lemma span_length (s : str) (a b : nat) :
  (b <= length s)%nat -> length (span s (a, b)) = (b - a)%nat.
Proof.
  intros H. unfold span. simpl. rewrite length_firstn, length_skipn. lia.
Qed.

(** Every string that [findall] returns is a part of the text made of
    characters within the classes of the pattern, and has at least the
    least length of a match. *)
Lemma findall_words (P : ascii -> bool) (r : regex) (s w : str) :
  classes_within P r ->
  In w (findall r s) ->
  (min_len r <= length w)%nat /\
  Forall (fun c => P c = true /\ In c s) w.
Proof.
  intros Hc H. unfold findall, finditer in H.
  apply in_map_iff in H as ([a b] & <- & H).
  pose proof (scan_start _ _ _ _ _ H) as Ha. simpl in Ha.
  apply scan_match in H. simpl in H. unfold match_at in H.
  apply (rmatch_consumes P s r Hc) in H as (pos' & Hlen & Hk & Hl & Hch).
  injection Hk as ->. split.
  - rewrite span_length by auto. lia.
  - apply span_chars. intros i Hi. destruct (Hch i Hi) as (c & Hn & Hp).
    exists c. split; [exact Hn|]. split; [exact Hp|].
    eapply nth_error_In, Hn.
Qed.

Lemma capitalized_pattern_classes :
  classes_within letter_or_space capitalized_pattern.
Proof.
  unfold capitalized_pattern, Plus, letter_or_space, is_azAZ. simpl.
  repeat split; intros c H; rewrite H; simpl;
    rewrite ?orb_true_r; reflexivity.
Qed.

Lemma word_pattern_classes : classes_within is_azAZ word_pattern.
Proof. unfold word_pattern. simpl. repeat split; auto. Qed.

Lemma lower_char_idem (c : ascii) : lower_char (lower_char c) = lower_char c.
Proof. destruct c as [[] [] [] [] [] [] [] []]; reflexivity. Qed.

Lemma lower_upper_letter (c : ascii) :
  is_azAZ (lower_char c) = true ->
  lower_char (upper_char (lower_char c)) = lower_char c /\
  is_azAZ (upper_char (lower_char c)) = true.
Proof.
  destruct c as [[] [] [] [] [] [] [] []]; vm_compute; intros H;
    first [split; reflexivity | discriminate H].
Qed.

(** A word found in the lower-cased text, once capitalized. *)
Lemma capitalize_word (text w : str) :
  In w (findall word_pattern (lower text)) ->
  lower (capitalize w) = w /\ length (capitalize w) = length w /\
  (4 <= length w)%nat /\
  Forall (fun c => is_azAZ c = true) (capitalize w).
Proof.
  intros H. apply (findall_words is_azAZ _ _ _ word_pattern_classes) in H
    as [Hlen Hch].
  change (min_len word_pattern) with 4%nat in Hlen.
  assert (Hl : Forall (fun c => is_azAZ c = true /\ lower_char c = c) w).
  { eapply Forall_impl; [exact Hch|]. intros c [Hp Hin]. split; [exact Hp|].
    unfold lower in Hin. apply in_map_iff in Hin as (c0 & <- & _).
    apply lower_char_idem. }
  destruct w as [|c t]; [simpl in Hlen; lia|].
  apply Forall_cons in Hl as [[Hc Hcl] Ht].
  assert (Hlt : lower t = t).
  { clear -Ht. induction Ht as [|x t [_ Hx] Ht IH]; [reflexivity|].
    unfold lower in *. simpl. rewrite Hx, IH. reflexivity. }
  rewrite <- Hcl in Hc. destruct (lower_upper_letter c Hc) as [H1 H2].
  rewrite Hcl in H1, H2.
  unfold capitalize. split; [|split; [|split]].
  - unfold lower at 1. simpl. rewrite H1. f_equal.
    change (lower (lower t) = t). rewrite Hlt. exact Hlt.
  - simpl. unfold lower. rewrite length_map. reflexivity.
  - exact Hlen.
  - constructor; [exact H2|]. rewrite Hlt.
    eapply Forall_impl; [exact Ht|]. intros x [Hx _]. exact Hx.
Qed.

(** X14: every entity that [_extract_entities] returns has at least three
    characters, consists of letters of the English alphabet and white
    space only, and is not a stop word when put in lower case. *)
Theorem extract_entities_shape (text e : str) :
  e ∈ _extract_entities text ->
  3 <= len e /\
  (lower e ∉ stopwords) /\
  Forall (fun c => letter_or_space c = true) e.
Proof.
  unfold _extract_entities. rewrite elem_of_union, !elem_of_list_to_set.
  intros [H|H].
  - unfold kept_matches in H. apply list_elem_of_filter in H as [[Hs Hl] H].
    apply list_elem_of_In in H.
    apply (findall_words letter_or_space _ _ _ capitalized_pattern_classes) in H
      as [_ Hch].
    split; [lia|]. split; [exact Hs|].
    eapply Forall_impl; [exact Hch|]. intros c [Hp _]. exact Hp.
  - unfold frequent_terms in H.
    apply list_elem_of_In, in_map_iff in H as ([w n] & <- & H).
    apply list_elem_of_In, list_elem_of_filter in H as [[_ Hs] H].
    assert (Hw : In w (findall word_pattern (lower text))).
    { apply of_list_keys, in_map_iff. exists (w, n).
      split; [reflexivity | apply list_elem_of_In, H]. }
    destruct (capitalize_word text w Hw) as (Hlow & Hlen & H4 & Hch).
    simpl in *. split; [unfold len; lia|]. split; [rewrite Hlow; exact Hs|].
    eapply Forall_impl; [exact Hch|]. intros c Hc.
    unfold letter_or_space. rewrite Hc. reflexivity.
Qed.

End EntityExtras.

Module InvariantProofs.
Import Py KnowledgeGraphBuilder Vocabulary GraphProofs GraphInvariants.

Lemma get_absent (c : Counter.t) (e : str) :
  e ∉ map fst c -> Counter.get c e = 0.
Proof.
  induction c as [|[k v] c IH]; intros H; [reflexivity|].
  simpl in *. rewrite not_elem_of_cons in H. destruct H as [Hk Hc].
  destruct (decide (k = e)); [congruence | apply IH, Hc].
Qed.

Lemma incr_NoDup (c : Counter.t) (k : str) (n : Z) :
  NoDup (map fst c) -> NoDup (map fst (Counter.incr c k n)).
Proof.
  induction c as [|[k' v] c IH]; intros H; simpl.
  - apply NoDup_singleton.
  - simpl in H. apply NoDup_cons in H as [Hk Hc].
    destruct (decide (k' = k)); simpl.
    + apply NoDup_cons. split; assumption.
    + apply NoDup_cons. split; [|apply IH, Hc].
      intros Hin. apply incr_keys in Hin as [->|Hin]; [congruence|contradiction].
Qed.

Lemma fold_incr_NoDup (l : list str) (c : Counter.t) :
  NoDup (map fst c) ->
  NoDup (map fst (fold_left (fun c e => Counter.incr c e 1) l c)).
Proof.
  revert c. induction l as [|x l IH]; intros c H; [exact H|].
  simpl. apply IH, incr_NoDup, H.
Qed.

Lemma fold_incr_keys_iff (l : list str) (c : Counter.t) (x : str) :
  x ∈ map fst (fold_left (fun c e => Counter.incr c e 1) l c) <->
  x ∈ map fst c \/ x ∈ l.
Proof.
  revert c. induction l as [|y l IH]; intros c; simpl.
  - split; [auto|]. intros [H|H]; [exact H|inversion H].
  - rewrite IH, incr_keys, elem_of_cons. tauto.
Qed.

Lemma note_entity_documents (doc_id : str) (s : t) (e : str) :
  documents (note_entity doc_id s e) =
  alter (fun doc => {| doc_text := doc_text doc;
                       doc_chunks := doc_chunks doc;
                       doc_entities := doc_entities doc ∪ {[e]} |})
        doc_id (documents s).
Proof. unfold note_entity. destruct (defaultdict_get _ _). reflexivity. Qed.

Lemma fold_note_documents (doc_id : str) (l : list str) :
  forall (s : t) (text : str) (chunks : list str) (E : gset (list ascii)),
    documents s !! doc_id
    = Some {| doc_text := text; doc_chunks := chunks; doc_entities := E |} ->
    documents (fold_left (note_entity doc_id) l s)
    = <[doc_id := {| doc_text := text; doc_chunks := chunks;
                     doc_entities := E ∪ list_to_set l |}]> (documents s).
Proof.
  induction l as [|e l IH]; intros s text chunks E H.
  - simpl. rewrite union_empty_r_L. symmetry. apply insert_id, H.
  - simpl fold_left.
    assert (Hn : documents (note_entity doc_id s e)
                 = <[doc_id := {| doc_text := text; doc_chunks := chunks;
                                  doc_entities := E ∪ {[e]} |}]> (documents s)).
    { rewrite note_entity_documents.
      rewrite <- (insert_id (documents s) doc_id _ H) at 1.
      rewrite alter_insert_eq. reflexivity. }
    rewrite (IH _ text chunks (E ∪ {[e]})) by (rewrite Hn; apply lookup_insert_eq).
    rewrite Hn, insert_insert_eq.
    replace (E ∪ {[e]} ∪ list_to_set l) with (E ∪ list_to_set (e :: l));
      [reflexivity|].
    apply set_eq. intros x.
    rewrite !elem_of_union, !elem_of_list_to_set, elem_of_cons, elem_of_singleton.
    tauto.
Qed.

Section WithOrder.
Variable set_iter : gset (list ascii) -> list (list ascii).
Hypothesis set_iter_perm : forall X, set_iter X ≡ₚ elements X.

Lemma set_iter_to_set (X : gset (list ascii)) : list_to_set (set_iter X) = X.
Proof using set_iter_perm.
  apply set_eq. intros x. rewrite elem_of_list_to_set.
  apply (set_iter_elem set_iter set_iter_perm).
Qed.

(** Lines 16-27: what [add_document] leaves in [documents]. *)
Lemma add_document_documents (self : t) (doc_id text : str) (chunks : list str) :
  documents (add_document set_iter self doc_id text chunks)
  = <[doc_id := {| doc_text := text; doc_chunks := chunks;
                   doc_entities := _extract_entities text |}]> (documents self).
Proof using set_iter_perm.
  unfold add_document. cbv zeta.
  rewrite (proj1 (build_relationships_frame _ _)).
  rewrite (fold_note_documents doc_id _ _ text chunks ∅)
    by (simpl; apply lookup_insert_eq).
  simpl. rewrite insert_insert_eq, union_empty_l_L, set_iter_to_set.
  reflexivity.
Qed.

Lemma add_document_keys_iff (self : t) (doc_id text : str) (chunks : list str)
      (x : str) :
  x ∈ map fst (entity_frequencies (add_document set_iter self doc_id text chunks))
  <-> x ∈ map fst (entity_frequencies self) \/ x ∈ _extract_entities text.
Proof using set_iter_perm.
  unfold add_document. cbv zeta.
  rewrite (proj2 (build_relationships_frame _ _)), fold_note_frequencies.
  simpl. rewrite fold_incr_keys_iff.
  rewrite (set_iter_elem set_iter set_iter_perm). reflexivity.
Qed.

Lemma add_document_keys_NoDup (self : t) (doc_id text : str) (chunks : list str) :
  NoDup (map fst (entity_frequencies self)) ->
  NoDup (map fst (entity_frequencies
                    (add_document set_iter self doc_id text chunks))).
Proof.
  intros H. unfold add_document. cbv zeta.
  rewrite (proj2 (build_relationships_frame _ _)), fold_note_frequencies.
  simpl. apply fold_incr_NoDup, H.
Qed.

Lemma add_document_tracked (self : t) (doc_id text : str) (chunks : list str)
      (e : str) :
  tracked (add_document set_iter self doc_id text chunks) e
  <-> tracked self e \/ e ∈ _extract_entities text.
Proof using set_iter_perm.
  unfold tracked.
  rewrite (proj1 (add_document_shape set_iter set_iter_perm self doc_id text chunks) e).
  destruct (decide (e ∈ _extract_entities text)) as [He|He].
  - split; [auto|]. intros _. eexists. reflexivity.
  - tauto.
Qed.

Lemma docs_of_grow (self : t) (doc_id text : str) (chunks : list str) (x : str) :
  docs_of self x ⊆ docs_of (add_document set_iter self doc_id text chunks) x.
Proof using set_iter_perm.
  rewrite (add_document_docs_of set_iter set_iter_perm).
  destruct (decide _); [apply union_subseteq_l|reflexivity].
Qed.

Lemma add_document_tables (self : t) (doc_id text : str) (chunks : list str) :
  tables_agree self ->
  tables_agree (add_document set_iter self doc_id text chunks).
Proof using set_iter_perm.
  intros (Hnd & Hkeys & Hpos & Hdocs & Hents).
  split; [apply add_document_keys_NoDup, Hnd|].
  split; [|split; [|split]].
  - intros e. rewrite add_document_keys_iff, add_document_tracked, Hkeys.
    reflexivity.
  - intros e He. apply add_document_tracked in He.
    rewrite (add_document_frequencies set_iter set_iter_perm).
    rewrite (add_document_docs_of set_iter set_iter_perm).
    destruct (decide (e ∈ _extract_entities text)) as [Hin|Hin].
    + split.
      * destruct (decide (e ∈ map fst (entity_frequencies self))) as [Hk|Hk].
        -- apply Hkeys, Hpos in Hk. lia.
        -- rewrite (get_absent _ _ Hk). lia.
      * intros Hempty.
        assert (Hd : doc_id ∈ docs_of self e ∪ {[doc_id]})
          by (apply elem_of_union_r, elem_of_singleton; reflexivity).
        rewrite Hempty in Hd. exact (not_elem_of_empty _ Hd).
    + destruct He as [He|He]; [|contradiction].
      destruct (Hpos e He) as [H1 H2]. split; [lia|exact H2].
  - intros e d Hd. rewrite add_document_documents.
    rewrite (add_document_docs_of set_iter set_iter_perm) in Hd.
    destruct (decide (d = doc_id)) as [->|Hne];
      [rewrite lookup_insert_eq; eexists; reflexivity|].
    rewrite lookup_insert_ne by congruence.
    destruct (decide _).
    + apply elem_of_union in Hd as [Hd|Hd]; [eapply Hdocs, Hd|].
      apply elem_of_singleton in Hd. contradiction.
    + eapply Hdocs, Hd.
  - intros d doc Hd. rewrite add_document_documents in Hd.
    destruct (decide (d = doc_id)) as [->|Hne].
    + rewrite lookup_insert_eq in Hd. injection Hd as <-. simpl.
      split; [reflexivity|]. intros e He.
      rewrite (add_document_docs_of set_iter set_iter_perm).
      destruct (decide _); [|contradiction].
      apply elem_of_union_r, elem_of_singleton. reflexivity.
    + rewrite lookup_insert_ne in Hd by congruence.
      destruct (Hents d doc Hd) as [H1 H2]. split; [exact H1|].
      intros e He. apply docs_of_grow, H2, He.
Qed.

Lemma add_document_sound (self : t) (doc_id text : str) (chunks : list str) :
  relationships_sound self ->
  relationships_sound (add_document set_iter self doc_id text chunks).
Proof using set_iter_perm.
  intros Hs a b w Hin.
  destruct (add_document_shape set_iter set_iter_perm self doc_id text chunks)
    as (_ & new & Hrel & Hnew & _).
  rewrite Hrel in Hin. apply elem_of_app in Hin as [Hin|Hin].
  - destruct (Hs a b w Hin) as (Hab & Ha & Hb & Hw1 & Hw2).
    split; [exact Hab|].
    split; [apply add_document_tracked; auto|].
    split; [apply add_document_tracked; auto|]. split; [exact Hw1|].
    etransitivity; [exact Hw2|]. apply inj_le, subseteq_size.
    apply intersection_mono; apply docs_of_grow.
  - destruct (Hnew a b w Hin) as (Ha & Hb & Hab & Hw).
    split; [exact Hab|].
    split; [apply add_document_tracked; auto|].
    split; [apply add_document_tracked; auto|].
    rewrite Hw. split; [|lia].
    assert (Hd : doc_id ∈ docs_of (add_document set_iter self doc_id text chunks) a
                          ∩ docs_of (add_document set_iter self doc_id text chunks) b).
    { rewrite !(add_document_docs_of set_iter set_iter_perm).
      destruct (decide (a ∈ _)); [|contradiction].
      destruct (decide (b ∈ _)); [|contradiction].
      apply elem_of_intersection.
      split; apply elem_of_union_r, elem_of_singleton; reflexivity. }
    assert (Hsz : size (docs_of (add_document set_iter self doc_id text chunks) a
                        ∩ docs_of (add_document set_iter self doc_id text chunks) b)
                  <> 0%nat).
    { apply size_non_empty_iff. intros Hempty. rewrite Hempty in Hd.
      exact (not_elem_of_empty _ Hd). }
    lia.
Qed.

Lemma ingest_invariants (docs : list (list ascii * list ascii * list str)) :
  forall self,
    tables_agree self -> relationships_sound self ->
    tables_agree (ingest set_iter self docs) /\
    relationships_sound (ingest set_iter self docs).
Proof using set_iter_perm.
  induction docs as [|[[doc_id text] chunks] docs IH]; intros self Ht Hs;
    [split; assumption|].
  simpl. apply IH; [apply add_document_tables, Ht | apply add_document_sound, Hs].
Qed.

Lemma init_invariants : tables_agree init /\ relationships_sound init.
Proof.
  split.
  - split; [constructor|]. split; [|split; [|split]].
    + intros e. split; [inversion 1|]. intros [x Hx]. simpl in Hx.
      rewrite lookup_empty in Hx. discriminate.
    + intros e [x Hx]. simpl in Hx. rewrite lookup_empty in Hx. discriminate.
    + intros e d Hd. unfold docs_of in Hd. simpl in Hd.
      rewrite lookup_empty in Hd. simpl in Hd.
      exfalso. exact (not_elem_of_empty _ Hd).
    + intros d doc Hd. simpl in Hd. rewrite lookup_empty in Hd. discriminate.
  - intros a b w Hin. inversion Hin.
Qed.

Lemma tracked_count (s : t) :
  tables_agree s ->
  get_node_count s = Z.of_nat (length (entity_frequencies s)).
Proof.
  intros (Hnd & Hkeys & _). unfold get_node_count. f_equal.
  rewrite <- (length_map fst (entity_frequencies s)).
  rewrite <- size_dom, <- (size_list_to_set (C := gset (list ascii))) by exact Hnd.
  f_equal. apply set_eq. intros e.
  rewrite elem_of_dom, elem_of_list_to_set. symmetry. apply Hkeys.
Qed.

(** X16: after [add_document] the record under [doc_id] holds the text,
    the chunks and exactly the entities extracted from the text (an older
    record under that id is replaced), the records of other ids are
    untouched, the document is among the documents of each of its
    entities, and the entry of an entity that the text does not have is
    as before. *)
Theorem add_document_record (self : t) (doc_id text : str) (chunks : list str) :
  documents (add_document set_iter self doc_id text chunks) !! doc_id
  = Some {| doc_text := text; doc_chunks := chunks;
            doc_entities := _extract_entities text |} /\
  (forall other, other <> doc_id ->
     documents (add_document set_iter self doc_id text chunks) !! other
     = documents self !! other) /\
  (forall e, e ∈ _extract_entities text ->
     doc_id ∈ docs_of (add_document set_iter self doc_id text chunks) e) /\
  (forall e, e ∉ _extract_entities text ->
     entities (add_document set_iter self doc_id text chunks) !! e
     = entities self !! e).
Proof using set_iter_perm.
  rewrite add_document_documents. split; [apply lookup_insert_eq|].
  split; [intros other Hne; apply lookup_insert_ne; congruence|]. split.
  - intros e He. rewrite (add_document_docs_of set_iter set_iter_perm).
    destruct (decide _); [|contradiction].
    apply elem_of_union_r, elem_of_singleton. reflexivity.
  - intros e He.
    rewrite (proj1 (add_document_shape set_iter set_iter_perm self doc_id text chunks) e).
    destruct (decide _); [contradiction|reflexivity].
Qed.

(** X15: in a builder fed by [add_document] calls from the start the
    tables agree: the counter has exactly one entry per tracked entity,
    every tracked entity has a count of at least one and at least one
    document, every document of an entity is a stored document, every
    stored document lists the entities of its text and is a document of
    each of them; [get_node_count] is the number of entries of the
    counter. *)
Theorem ingest_tables_agree (docs : list (list ascii * list ascii * list str)) :
  tables_agree (ingest set_iter init docs) /\
  get_node_count (ingest set_iter init docs)
  = Z.of_nat (length (entity_frequencies (ingest set_iter init docs))).
Proof using set_iter_perm.
  destruct init_invariants as [Ht Hs].
  destruct (ingest_invariants docs init Ht Hs) as [Ht' _].
  split; [exact Ht' | apply tracked_count, Ht'].
Qed.

(** X17: in a builder fed by [add_document] calls from the start, every
    relationship joins two different tracked entities, and its weight is
    at least one and at most the number of documents that the two
    entities share. *)
Theorem ingest_relationships_sound
        (docs : list (list ascii * list ascii * list str)) :
  relationships_sound (ingest set_iter init docs).
Proof using set_iter_perm.
  destruct init_invariants as [Ht Hs].
  apply (ingest_invariants docs init Ht Hs).
Qed.

End WithOrder.

End InvariantProofs.

Module ViewProofs.
Import Py KnowledgeGraphBuilder Vocabulary GraphProofs GraphInvariants.
Import InvariantProofs ViewTerms.

Lemma index_from (l : list str) :
  forall (off : nat) (m : gmap (list ascii) Z) (a : str) (i : Z),
    fold_left (fun m p => <[snd p := Z.of_nat (fst p)]> m)
              (imap (fun i e => ((off + i)%nat, e)) l) m !! a = Some i ->
    m !! a = Some i \/
    exists n, i = Z.of_nat (off + n) /\ l !! n = Some a.
Proof.
  induction l as [|x l IH]; intros off m a i H; [left; exact H|].
  rewrite imap_cons in H. simpl in H.
  rewrite (imap_ext _ (fun i e => ((S off + i)%nat, e))) in H
    by (intros j y _; simpl; f_equal; lia).
  apply IH in H as [H|(n & -> & Hn)].
  - destruct (decide (x = a)) as [->|Hne].
    + rewrite lookup_insert_eq in H. injection H as <-.
      right. exists O. split; [reflexivity|reflexivity].
    + rewrite lookup_insert_ne in H by exact Hne. left. exact H.
  - right. exists (S n). split; [f_equal; lia | exact Hn].
Qed.

(** Line 109: an index in [entity_to_index] is the position of the
    entity among the selected ones. *)
Lemma index_entities_lookup (top : list str) (a : str) (i : Z) :
  index_entities top !! a = Some i ->
  exists n, i = Z.of_nat n /\ top !! n = Some a.
Proof.
  intros H. apply (index_from top O ∅ a i) in H as [H|H].
  - rewrite lookup_empty in H. discriminate.
  - exact H.
Qed.

Lemma candidate_inv (idx : gmap (list ascii) Z)
      (r : list ascii * list ascii * Z) (e : edge) :
  candidate idx r = Some e ->
  idx !! r.1.1 = Some (e_source e) /\ idx !! r.1.2 = Some (e_target e) /\
  e_weight e = r.2 /\ 1 <= r.2.
Proof.
  unfold candidate.
  destruct (idx !! r.1.1) as [i1|]; [|discriminate].
  destruct (idx !! r.1.2) as [i2|]; [|discriminate].
  destruct (decide (1 ≤ r.2)); [|discriminate].
  intros [= <-]. simpl. auto.
Qed.

Lemma omap_split {A B : Type} (f : A -> option B) (l : list A) :
  forall (pre : list B) (e : B) (post : list B),
    omap f l = pre ++ e :: post ->
    exists lpre x lpost, l = lpre ++ x :: lpost /\ f x = Some e /\
                         omap f lpre = pre /\ omap f lpost = post.
Proof.
  induction l as [|y l IH]; intros pre e post H.
  - destruct pre; discriminate.
  - simpl in H. destruct (f y) as [b|] eqn:E.
    + destruct pre as [|b' pre].
      * simpl in H. injection H as -> <-.
        exists [], y, l. simpl. auto.
      * simpl in H. injection H as -> H.
        destruct (IH _ _ _ H) as (lpre & x & lpost & -> & Hx & <- & <-).
        exists (y :: lpre), x, lpost. simpl. rewrite E. auto.
    + destruct (IH _ _ _ H) as (lpre & x & lpost & -> & Hx & <- & <-).
      exists (y :: lpre), x, lpost. simpl. rewrite E. auto.
Qed.

(** An edge of the view stands for a relationship before which no
    relationship stands for an edge with the same key. *)
Lemma make_edges_origin (idx : gmap (list ascii) Z)
      (rels : list (list ascii * list ascii * Z)) (e : edge) :
  e ∈ make_edges idx rels ->
  exists pre r post,
    rels = pre ++ r :: post /\ candidate idx r = Some e /\
    forall r' c, r' ∈ pre -> candidate idx r' = Some c -> key_of c <> key_of e.
Proof.
  intros He. destruct (make_edges_first idx rels) as (_ & Hfirst & _).
  destruct (Hfirst e He) as (cpre & cpost & Hc & Hkeys).
  unfold candidates in Hc.
  destruct (omap_split _ _ _ _ _ Hc) as (pre & r & post & -> & Hr & Hpre & _).
  exists pre, r, post. split; [reflexivity|]. split; [exact Hr|].
  intros r' c Hr' Hcand. apply Hkeys. rewrite <- Hpre.
  apply list_elem_of_omap. exists r'. auto.
Qed.

Lemma build_graph_nodes (self : t) (v : view) (nodes : list node) :
  build_graph self = Some v ->
  nodes_of v nodes ->
  Forall2 (fun p n => make_node self (fst p) (snd p) = Some n)
          (imap (fun i e => (i, e)) (top_entities self)) nodes.
Proof.
  unfold build_graph, nodes_of.
  destruct (top_entities self) as [|e top] eqn:Et.
  - intros [= <-] [H|[H|[]]]; [|discriminate].
    injection H as <-. constructor.
  - destruct (mapM _ _) as [nodes'|] eqn:Em; [|discriminate].
    intros [= <-] [H|[H|[H|[H|[]]]]]; try discriminate.
    injection H as <-. apply mapM_Some_1, Em.
Qed.

Lemma build_graph_node_at (self : t) (v : view) (nodes : list node) :
  build_graph self = Some v ->
  nodes_of v nodes ->
  length nodes = length (top_entities self) /\
  forall j n, nodes !! j = Some n ->
    exists e, top_entities self !! j = Some e /\ make_node self j e = Some n.
Proof.
  intros Hb Hn. pose proof (build_graph_nodes self v nodes Hb Hn) as HF.
  split.
  - apply Forall2_length in HF. rewrite length_imap in HF. auto.
  - intros j n Hj.
    destruct (Forall2_lookup_r _ _ _ _ _ HF Hj) as ([i e] & Hp & Hm).
    rewrite list_lookup_imap in Hp.
    destruct (top_entities self !! j) as [e'|]; [|discriminate].
    simpl in Hp. injection Hp as <- <-. exists e'. auto.
Qed.

Lemma get_present (c : Counter.t) (k : str) (v : Z) :
  NoDup (map fst c) -> (k, v) ∈ c -> Counter.get c k = v.
Proof.
  induction c as [|[k' v'] c IH]; intros Hnd Hin; [inversion Hin|].
  simpl in Hnd. apply NoDup_cons in Hnd as [Hk Hnd]. simpl.
  apply elem_of_cons in Hin as [Heq|Hin].
  - injection Heq as <- <-. destruct (decide (k = k)); congruence.
  - destruct (decide (k' = k)) as [->|Hne]; [|apply IH; assumption].
    exfalso. apply Hk. apply list_elem_of_In, in_map_iff.
    exists (k, v). split; [reflexivity | apply list_elem_of_In, Hin].
Qed.

Lemma size_capped (x : spec_float) :
  F64.ltb F64.c1_5 (F64.min x F64.c1_5) = false.
Proof.
  unfold F64.min. destruct (F64.ltb F64.c1_5 x) eqn:E; [reflexivity|exact E].
Qed.

Lemma top_entities_NoDup (self : t) :
  NoDup (map fst (entity_frequencies self)) -> NoDup (top_entities self).
Proof.
  intros H. unfold top_entities, Counter.most_common.
  change (map fst (take 30 (Counter.sorted_desc snd (entity_frequencies self))))
    with (fst <$> take 30 (Counter.sorted_desc snd (entity_frequencies self))).
  rewrite fmap_take. eapply sublist_NoDup; [|apply sublist_take].
  eapply NoDup_Permutation_proper; [|exact H].
  apply fmap_Permutation, SortFacts.sorted_desc_perm.
Qed.

Lemma StronglySorted_take {A : Type} (R : A -> A -> Prop) (n : nat) (l : list A) :
  StronglySorted R l -> StronglySorted R (take n l).
Proof.
  intros H. revert n. induction H as [|x l Hs IH Hx]; intros [|n]; simpl;
    try constructor.
  - apply IH.
  - apply Forall_take, Hx.
Qed.

(** The selected entities with their counts, lines 85-87. *)
Lemma top_entities_sorted (self : t) :
  NoDup (map fst (entity_frequencies self)) ->
  StronglySorted (fun a b => Counter.get (entity_frequencies self) b
                             <= Counter.get (entity_frequencies self) a)
                 (top_entities self).
Proof.
  intros Hnd. unfold top_entities, Counter.most_common.
  pose proof (SortFacts.sorted_desc_sorted snd (entity_frequencies self)) as Hs.
  apply (StronglySorted_take _ 30) in Hs.
  assert (Hin : forall p, p ∈ take 30 (Counter.sorted_desc snd (entity_frequencies self))
                          -> Counter.get (entity_frequencies self) (fst p) = snd p).
  { intros [k v] Hp. apply subseteq_take in Hp.
    rewrite SortFacts.sorted_desc_perm in Hp. apply get_present; assumption. }
  induction Hs as [|p l Hs IH Hp]; simpl; constructor.
  - apply IH. intros q Hq. apply Hin. right. exact Hq.
  - apply Forall_forall. intros k Hk.
    apply list_elem_of_In, in_map_iff in Hk as (q & <- & Hq).
    apply list_elem_of_In in Hq.
    rewrite (Hin p) by left. rewrite (Hin q) by (right; exact Hq).
    rewrite Forall_forall in Hp. apply Hp, Hq.
Qed.

Lemma sorted_transfer {A B : Type} (f : A -> B) (R : B -> B -> Prop)
      (R' : A -> A -> Prop) (l : list A) :
  (forall x y, x ∈ l -> y ∈ l -> R (f x) (f y) -> R' x y) ->
  StronglySorted R (map f l) -> StronglySorted R' l.
Proof.
  induction l as [|x l IH]; intros HR Hs; [constructor|].
  simpl in Hs. apply StronglySorted_inv in Hs as [Hs Hx].
  constructor.
  - apply IH; [|exact Hs]. intros y z Hy Hz. apply HR; right; assumption.
  - apply Forall_forall. intros y Hy. apply HR; [left|right; exact Hy|].
    rewrite Forall_forall in Hx. apply Hx.
    apply list_elem_of_In, in_map, list_elem_of_In, Hy.
Qed.

Lemma sorted_app_order {A : Type} (R : A -> A -> Prop) (l1 l2 : list A) :
  StronglySorted R (l1 ++ l2) ->
  forall x y, x ∈ l1 -> y ∈ l2 -> R x y.
Proof.
  induction l1 as [|z l1 IH]; intros Hs x y Hx Hy; [inversion Hx|].
  simpl in Hs. apply StronglySorted_inv in Hs as [Hs Hz].
  apply elem_of_cons in Hx as [->|Hx]; [|apply IH; assumption].
  rewrite Forall_forall in Hz. apply Hz, elem_of_app. right. exact Hy.
Qed.

Lemma make_node_fields (self : t) (j : nat) (e : str) (n : node) :
  make_node self j e = Some n ->
  n_id n = Z.of_nat j /\ n_label n = e /\
  n_frequency n = Counter.get (entity_frequencies self) e /\
  n_size n = node_size (Counter.get (entity_frequencies self) e) /\
  n_connections n = connections self e /\
  colors !! (j mod 6)%nat = Some (n_color n).
Proof.
  unfold make_node. destruct (entity_type e); [|discriminate].
  intros H. apply (inj Some) in H. subst n.
  cbn [n_id n_label n_frequency n_size n_connections n_color].
  do 5 (split; [reflexivity|]).
  change (length colors) with 6%nat.
  assert (Hq : (j mod 6 < 6)%nat) by (apply Nat.mod_upper_bound; lia).
  remember (j mod 6)%nat as q eqn:Eq. clear Eq.
  destruct q as [|[|[|[|[|[|q]]]]]]; try reflexivity. lia.
Qed.

Lemma build_graph_labels (self : t) (v : view) (nodes : list node) :
  build_graph self = Some v ->
  nodes_of v nodes ->
  map n_label nodes = top_entities self.
Proof.
  intros Hb Hn. destruct (build_graph_node_at self v nodes Hb Hn) as [Hlen Hat].
  apply list_eq. intros j.
  change (map n_label nodes) with (n_label <$> nodes).
  rewrite list_lookup_fmap.
  destruct (nodes !! j) as [n|] eqn:Ej; simpl.
  - destruct (Hat j n Ej) as (e & He & Hm).
    apply make_node_fields in Hm as (_ & -> & _). symmetry. exact He.
  - symmetry. apply lookup_ge_None. apply lookup_ge_None in Ej. lia.
Qed.

Lemma edge_key_swap (i j : Z) : edge_key i j = edge_key j i.
Proof. unfold edge_key. rewrite Z.min_comm, Z.max_comm. reflexivity. Qed.

Section WithOrder.
Variable set_iter : gset (list ascii) -> list (list ascii).
Hypothesis set_iter_perm : forall X, set_iter X ≡ₚ elements X.

Lemma ingest_build_graph (docs : list (list ascii * list ascii * list str)) :
  exists v, build_graph (ingest set_iter init docs) = Some v.
Proof using set_iter_perm.
  destruct (build_graph_proper (ingest set_iter init docs)) as (v & Hv & _).
  - apply (ingest_keys_upper set_iter set_iter_perm). intros x Hx. inversion Hx.
  - exists v. exact Hv.
Qed.

Lemma nodes_facts (s : t) (v : view) (nodes : list node) :
  tables_agree s ->
  build_graph s = Some v ->
  nodes_of v nodes ->
  Z.of_nat (length nodes) = Z.min 30 (get_node_count s) /\
  (forall (j : nat) (n : node), nodes !! j = Some n ->
     n_id n = Z.of_nat j /\
     tracked s (n_label n) /\
     n_frequency n = Counter.get (entity_frequencies s) (n_label n) /\
     1 <= n_frequency n /\
     F64.ltb F64.c1_5 (n_size n) = false /\
     colors !! (j mod 6)%nat = Some (n_color n)) /\
  NoDup (map n_label nodes) /\
  StronglySorted (fun a b => n_frequency b <= n_frequency a) nodes /\
  (forall e n, tracked s e -> e ∉ map n_label nodes -> n ∈ nodes ->
     Counter.get (entity_frequencies s) e <= n_frequency n).
Proof.
  intros Ht Hb Hn. pose proof Ht as (Hnd & Hkeys & Hpos & _).
  destruct (build_graph_node_at s v nodes Hb Hn) as [Hlen Hat].
  pose proof (build_graph_labels s v nodes Hb Hn) as Hlab.
  assert (Hnode : forall j n, nodes !! j = Some n ->
            n_id n = Z.of_nat j /\ tracked s (n_label n) /\
            n_frequency n = Counter.get (entity_frequencies s) (n_label n) /\
            1 <= n_frequency n /\
            F64.ltb F64.c1_5 (n_size n) = false /\
            colors !! (j mod 6)%nat = Some (n_color n)).
  { intros j n Hj. destruct (Hat j n Hj) as (e & He & Hm).
    apply make_node_fields in Hm as (Hid & Hl & Hf & Hsz & _ & Hc).
    assert (Htr : tracked s (n_label n)).
    { rewrite Hl. apply Hkeys, top_entities_keys.
      eapply list_elem_of_lookup_2, He. }
    split; [exact Hid|]. split; [exact Htr|].
    split; [rewrite Hl; exact Hf|].
    split; [rewrite Hf, <- Hl; apply Hpos, Htr|].
    split; [rewrite Hsz; apply size_capped | exact Hc]. }
  assert (Hfreq : forall n, n ∈ nodes ->
            n_frequency n = Counter.get (entity_frequencies s) (n_label n)).
  { intros n Hin. apply list_elem_of_lookup_1 in Hin as [j Hj].
    apply (Hnode j n Hj). }
  split; [|split; [exact Hnode|split; [|split]]].
  - rewrite Hlen, (tracked_count s Ht).
    unfold top_entities, Counter.most_common.
    rewrite length_map, length_take.
    rewrite (Permutation_length (SortFacts.sorted_desc_perm snd _)). lia.
  - rewrite Hlab. apply top_entities_NoDup, Hnd.
  - apply (sorted_transfer n_label
             (fun a b => Counter.get (entity_frequencies s) b
                         <= Counter.get (entity_frequencies s) a)).
    + intros x y Hx Hy H. rewrite (Hfreq x Hx), (Hfreq y Hy). exact H.
    + rewrite Hlab. apply top_entities_sorted, Hnd.
  - intros e n He Hout Hin. rewrite (Hfreq n Hin).
    rewrite Hlab in Hout.
    assert (Hl : n_label n ∈ top_entities s).
    { rewrite <- Hlab. apply list_elem_of_In, in_map, list_elem_of_In, Hin. }
    unfold top_entities, Counter.most_common in Hout, Hl.
    set (S := Counter.sorted_desc snd (entity_frequencies s)) in *.
    apply list_elem_of_In, in_map_iff in Hl as ([k v'] & Hk & Hp).
    simpl in Hk. subst k. apply list_elem_of_In in Hp.
    apply Hkeys in He.
    apply list_elem_of_In, in_map_iff in He as ([k v0] & Hk & Hq).
    simpl in Hk. subst k. apply list_elem_of_In in Hq.
    assert (Hq' : (e, v0) ∈ S)
      by (unfold S; rewrite SortFacts.sorted_desc_perm; exact Hq).
    rewrite <- (take_drop 30 S) in Hq'.
    apply elem_of_app in Hq' as [Hq'|Hq'].
    { exfalso. apply Hout. apply list_elem_of_In, in_map_iff.
      exists (e, v0). split; [reflexivity | apply list_elem_of_In, Hq']. }
    pose proof (SortFacts.sorted_desc_sorted snd (entity_frequencies s)) as Hs.
    fold S in Hs. rewrite <- (take_drop 30 S) in Hs.
    pose proof (sorted_app_order _ _ _ Hs _ _ Hp Hq') as Hle. simpl in Hle.
    rewrite (get_present _ e v0 Hnd Hq).
    rewrite (get_present _ (n_label n) v' Hnd).
    + exact Hle.
    + apply subseteq_take in Hp. unfold S in Hp.
      rewrite SortFacts.sorted_desc_perm in Hp. exact Hp.
Qed.

Lemma edges_facts (s : t) (v : view) (nodes : list node) (es : list edge) :
  relationships_sound s ->
  build_graph s = Some v ->
  nodes_of v nodes ->
  edges_of v es ->
  forall e, e ∈ es ->
    e_source e <> e_target e /\ 1 <= e_weight e /\
    exists n1 n2,
      nodes !! Z.to_nat (e_source e) = Some n1 /\ n_id n1 = e_source e /\
      nodes !! Z.to_nat (e_target e) = Some n2 /\ n_id n2 = e_target e /\
      (n_label n1, n_label n2, e_weight e) ∈ relationships s.
Proof.
  intros Hs Hb Hn He e Hin.
  destruct (build_graph_node_at s v nodes Hb Hn) as [Hlen Hat].
  rewrite (build_graph_edges s v es Hb He) in Hin.
  destruct (make_edges_origin _ _ _ Hin) as (pre & [[a b] w] & post & Hrel & Hc & _).
  apply candidate_inv in Hc as (Ha & Hb' & Hw & Hw1). simpl in *.
  apply index_entities_lookup in Ha as (i1 & Hi1 & Ht1).
  apply index_entities_lookup in Hb' as (i2 & Hi2 & Ht2).
  assert (Hr : (a, b, w) ∈ relationships s)
    by (rewrite Hrel; apply elem_of_app; right; left).
  destruct (Hs a b w Hr) as (Hab & _).
  assert (Hn1 : is_Some (nodes !! i1)).
  { apply lookup_lt_is_Some. rewrite Hlen. eapply lookup_lt_Some, Ht1. }
  assert (Hn2 : is_Some (nodes !! i2)).
  { apply lookup_lt_is_Some. rewrite Hlen. eapply lookup_lt_Some, Ht2. }
  destruct Hn1 as [n1 Hn1]. destruct Hn2 as [n2 Hn2].
  destruct (Hat i1 n1 Hn1) as (e1 & He1 & Hm1).
  destruct (Hat i2 n2 Hn2) as (e2 & He2 & Hm2).
  apply make_node_fields in Hm1 as (Hid1 & Hl1 & _).
  apply make_node_fields in Hm2 as (Hid2 & Hl2 & _).
  rewrite Ht1 in He1. injection He1 as <-.
  rewrite Ht2 in He2. injection He2 as <-.
  split; [|split; [lia|]].
  - rewrite Hi1, Hi2. intros Heq. apply Nat2Z.inj in Heq. subst i2.
    rewrite Ht1 in Ht2. injection Ht2 as ->. contradiction.
  - exists n1, n2. rewrite Hi1, Hi2, !Nat2Z.id, Hl1, Hl2, Hw.
    repeat split; assumption.
Qed.

(** A document with an identifier that no entity has seen. *)
Lemma add_document_first (self : t) (doc_id text : str) (chunks : list str) :
  (forall x, doc_id ∉ docs_of self x) ->
  shared_recorded self -> first_weights_one self ->
  shared_recorded (add_document set_iter self doc_id text chunks) /\
  first_weights_one (add_document set_iter self doc_id text chunks).
Proof using set_iter_perm.
  intros Hfresh HJ HF.
  destruct (add_document_shape set_iter set_iter_perm self doc_id text chunks)
    as (_ & new & Hrel & Hnew & Hone).
  pose proof (add_document_docs_of set_iter set_iter_perm self doc_id text chunks)
    as Hdocs.
  split.
  - intros a b Hab Hsh. rewrite Hrel. apply Exists_app.
    destruct (decide (a ∈ _extract_entities text)) as [Ha|Ha];
      [destruct (decide (b ∈ _extract_entities text)) as [Hb|Hb]|].
    + right. specialize (Hone a b Ha Hb Hab).
      destruct (filter (joins a b) new) as [|r l] eqn:Ef; [discriminate|].
      assert (Hr : r ∈ filter (joins a b) new) by (rewrite Ef; left).
      apply list_elem_of_filter in Hr as [Hj Hr].
      apply Exists_exists. exists r. auto.
    + left. apply HJ; [exact Hab|]. intros Hempty. apply Hsh.
      apply set_eq. intros x. rewrite elem_of_intersection, !Hdocs.
      destruct (decide (a ∈ _)); [|contradiction].
      destruct (decide (b ∈ _)); [contradiction|].
      split; [|intros Hx; exfalso; exact (not_elem_of_empty _ Hx)].
      intros [Hx1 Hx2]. apply elem_of_union in Hx1 as [Hx1|Hx1].
      * rewrite <- Hempty. apply elem_of_intersection. auto.
      * apply elem_of_singleton in Hx1. subst x.
        exfalso. exact (Hfresh b Hx2).
    + left. apply HJ; [exact Hab|]. intros Hempty. apply Hsh.
      apply set_eq. intros x. rewrite elem_of_intersection, !Hdocs.
      destruct (decide (a ∈ _)); [contradiction|].
      split; [|intros Hx; exfalso; exact (not_elem_of_empty _ Hx)].
      intros [Hx1 Hx2]. destruct (decide (b ∈ _)).
      * apply elem_of_union in Hx2 as [Hx2|Hx2].
        -- rewrite <- Hempty. apply elem_of_intersection. auto.
        -- apply elem_of_singleton in Hx2. subst x.
           exfalso. exact (Hfresh a Hx1).
      * rewrite <- Hempty. apply elem_of_intersection. auto.
  - intros pre r post Heq Hpre. rewrite Hrel in Heq.
    apply app_eq_app in Heq as [l [[H1 H2]|[H1 H2]]].
    + destruct l as [|r0 l].
      * simpl in H2. rewrite app_nil_r in H1.
        assert (Hr : r ∈ new) by (rewrite <- H2; left).
        destruct r as [[a b] w]. simpl in *.
        destruct (Hnew a b w Hr) as (Ha & Hb & Hab & Hw).
        assert (Hempty : docs_of self a ∩ docs_of self b = ∅).
        { destruct (decide (docs_of self a ∩ docs_of self b = ∅)) as [E|E];
            [exact E|].
          exfalso. specialize (HJ a b Hab E).
          apply Exists_exists in HJ as (r' & Hr' & Hj).
          rewrite <- H1 in Hpre. rewrite Forall_forall in Hpre.
          exact (Hpre r' Hr' Hj). }
        rewrite Hw, !Hdocs.
        destruct (decide (a ∈ _)); [|contradiction].
        destruct (decide (b ∈ _)); [|contradiction].
        replace ((docs_of self a ∪ {[doc_id]}) ∩ (docs_of self b ∪ {[doc_id]}))
          with ({[doc_id]} : gset (list ascii)); [rewrite size_singleton; reflexivity|].
        apply set_eq. intros x.
        rewrite elem_of_intersection, !elem_of_union, elem_of_singleton.
        split; [auto|]. intros [[Hx1|Hx1] [Hx2|Hx2]]; try assumption.
        exfalso. apply (not_elem_of_empty (C := gset (list ascii)) x).
        rewrite <- Hempty. apply elem_of_intersection. auto.
      * simpl in H2. injection H2 as <- H2.
        apply (HF pre r l H1 Hpre).
    + assert (Hr : r ∈ new)
        by (rewrite H2; apply elem_of_app; right; left).
      destruct r as [[a b] w]. simpl in *.
      destruct (Hnew a b w Hr) as (Ha & Hb & Hab & Hw).
      assert (Hempty : docs_of self a ∩ docs_of self b = ∅).
      { destruct (decide (docs_of self a ∩ docs_of self b = ∅)) as [E|E];
          [exact E|].
        exfalso. specialize (HJ a b Hab E).
        apply Exists_exists in HJ as (r' & Hr' & Hj).
        rewrite Forall_forall in Hpre. apply (Hpre r'); [|exact Hj].
        rewrite H1. apply elem_of_app. left. exact Hr'. }
      rewrite Hw, !Hdocs.
      destruct (decide (a ∈ _)); [|contradiction].
      destruct (decide (b ∈ _)); [|contradiction].
      replace ((docs_of self a ∪ {[doc_id]}) ∩ (docs_of self b ∪ {[doc_id]}))
        with ({[doc_id]} : gset (list ascii)); [rewrite size_singleton; reflexivity|].
      apply set_eq. intros x.
      rewrite elem_of_intersection, !elem_of_union, elem_of_singleton.
      split; [auto|]. intros [[Hx1|Hx1] [Hx2|Hx2]]; try assumption.
      exfalso. apply (not_elem_of_empty (C := gset (list ascii)) x).
      rewrite <- Hempty. apply elem_of_intersection. auto.
Qed.

Lemma ingest_first (docs : list (list ascii * list ascii * list str)) :
  forall self,
    NoDup (map (fun d => d.1.1) docs) ->
    (forall x d, d ∈ docs_of self x -> d ∉ map (fun d => d.1.1) docs) ->
    shared_recorded self -> first_weights_one self ->
    first_weights_one (ingest set_iter self docs).
Proof using set_iter_perm.
  induction docs as [|[[doc_id text] chunks] docs IH]; intros self Hnd Hfresh HJ HF;
    [exact HF|].
  simpl in Hnd. apply NoDup_cons in Hnd as [Hid Hnd]. simpl.
  destruct (add_document_first self doc_id text chunks) as [HJ' HF'];
    [|exact HJ|exact HF|].
  { intros x Hx. apply (Hfresh x doc_id Hx). left. }
  apply IH; [exact Hnd| |exact HJ'|exact HF'].
  intros x d Hd Hin.
  rewrite (add_document_docs_of set_iter set_iter_perm) in Hd.
  destruct (decide _).
  - apply elem_of_union in Hd as [Hd|Hd].
    + apply (Hfresh x d Hd). right. exact Hin.
    + apply elem_of_singleton in Hd. subst d. contradiction.
  - apply (Hfresh x d Hd). right. exact Hin.
Qed.

Lemma edge_weights (s : t) (v : view) (es : list edge) :
  relationships_sound s -> first_weights_one s ->
  build_graph s = Some v -> edges_of v es ->
  Forall (fun e => e_weight e = 1) es.
Proof.
  intros Hs HF Hb He. apply Forall_forall. intros e Hin.
  rewrite (build_graph_edges s v es Hb He) in Hin.
  destruct (make_edges_origin _ _ _ Hin)
    as (pre & [[a b] w] & post & Hrel & Hc & Hkeys).
  pose proof (candidate_inv _ _ _ Hc) as (Ha & Hb' & Hw & Hw1). simpl in *.
  rewrite Hw. apply (HF pre (a, b, w) post Hrel). simpl.
  apply Forall_forall. intros [[a' b'] w'] Hr' Hj.
  assert (Hin' : (a', b', w') ∈ relationships s)
    by (rewrite Hrel; apply elem_of_app; left; exact Hr').
  destruct (Hs a' b' w' Hin') as (_ & _ & _ & Hw' & _).
  unfold joins in Hj. simpl in Hj.
  destruct Hj as [[-> ->]|[-> ->]].
  - apply (Hkeys (a, b, w') {| e_source := e_source e; e_target := e_target e;
                              e_weight := w' |} Hr').
    + unfold candidate. simpl. rewrite Ha, Hb'.
      destruct (decide (1 ≤ w')); [reflexivity|lia].
    + reflexivity.
  - apply (Hkeys (b, a, w') {| e_source := e_target e; e_target := e_source e;
                              e_weight := w' |} Hr').
    + unfold candidate. simpl. rewrite Ha, Hb'.
      destruct (decide (1 ≤ w')); [reflexivity|lia].
    + unfold key_of. simpl. apply edge_key_swap.
Qed.

(** X18: the nodes of [build_graph], for a builder fed from the start:
    there are [min(30, number of entities)] of them, the node at position
    [j] has id [j], a tracked entity as its label, that entity's count
    (at least one) as its frequency, a size that is not above [1.5] and
    the colour at [j mod 6]; the labels are distinct, the frequencies do
    not increase along the list, and no entity that was left out has a
    higher count than a node. *)
Theorem build_graph_nodes_ranked
        (docs : list (list ascii * list ascii * list str))
        (v : view) (nodes : list node) :
  build_graph (ingest set_iter init docs) = Some v ->
  nodes_of v nodes ->
  Z.of_nat (length nodes)
  = Z.min 30 (get_node_count (ingest set_iter init docs)) /\
  (forall (j : nat) (n : node), nodes !! j = Some n ->
     n_id n = Z.of_nat j /\
     tracked (ingest set_iter init docs) (n_label n) /\
     n_frequency n
     = Counter.get (entity_frequencies (ingest set_iter init docs)) (n_label n) /\
     1 <= n_frequency n /\
     F64.ltb F64.c1_5 (n_size n) = false /\
     colors !! (j mod 6)%nat = Some (n_color n)) /\
  NoDup (map n_label nodes) /\
  StronglySorted (fun a b => n_frequency b <= n_frequency a) nodes /\
  (forall e n, tracked (ingest set_iter init docs) e ->
     e ∉ map n_label nodes -> n ∈ nodes ->
     Counter.get (entity_frequencies (ingest set_iter init docs)) e
     <= n_frequency n).
Proof using set_iter_perm.
  intros Hb Hn. destruct init_invariants as [Ht Hs].
  destruct (ingest_invariants set_iter set_iter_perm docs init Ht Hs) as [Ht' _].
  apply (nodes_facts _ v nodes Ht' Hb Hn).
Qed.

(** X19: the edges of [build_graph], for a builder fed from the start:
    the source and the target of an edge are the ids of two different
    nodes of the same view, the weight is at least one, and the labels of
    the two nodes with that weight are a recorded relationship. *)
Theorem build_graph_edges_join_nodes
        (docs : list (list ascii * list ascii * list str))
        (v : view) (nodes : list node) (es : list edge) :
  build_graph (ingest set_iter init docs) = Some v ->
  nodes_of v nodes ->
  edges_of v es ->
  forall e, e ∈ es ->
    e_source e <> e_target e /\ 1 <= e_weight e /\
    exists n1 n2,
      nodes !! Z.to_nat (e_source e) = Some n1 /\ n_id n1 = e_source e /\
      nodes !! Z.to_nat (e_target e) = Some n2 /\ n_id n2 = e_target e /\
      (n_label n1, n_label n2, e_weight e)
        ∈ relationships (ingest set_iter init docs).
Proof using set_iter_perm.
  intros Hb Hn He. destruct init_invariants as [Ht Hs].
  destruct (ingest_invariants set_iter set_iter_perm docs init Ht Hs) as [_ Hs'].
  apply (edges_facts _ v nodes es Hs' Hb Hn He).
Qed.

(** X20: when the documents have distinct ids, every edge of
    [build_graph] has weight [1]: the view keeps the first relationship
    of a pair of entities, which was recorded when the two had one
    document in common. *)
Theorem build_graph_edge_weights
        (docs : list (list ascii * list ascii * list str)) :
  NoDup (map (fun d => d.1.1) docs) ->
  exists v,
    build_graph (ingest set_iter init docs) = Some v /\
    forall es, edges_of v es -> Forall (fun e => e_weight e = 1) es.
Proof using set_iter_perm.
  intros Hnd. destruct (ingest_build_graph docs) as [v Hv].
  exists v. split; [exact Hv|]. intros es He.
  destruct init_invariants as [Ht Hs].
  destruct (ingest_invariants set_iter set_iter_perm docs init Ht Hs) as [_ Hs'].
  apply (edge_weights _ v es Hs'); [|exact Hv|exact He].
  apply ingest_first; [exact Hnd| | |].
  - intros x d Hd. unfold docs_of in Hd. simpl in Hd.
    rewrite lookup_empty in Hd. simpl in Hd.
    exfalso. exact (not_elem_of_empty _ Hd).
  - intros a b _ Hsh. exfalso. apply Hsh. unfold docs_of. simpl.
    rewrite !lookup_empty. simpl. apply intersection_empty_l_L.
  - intros pre r post Heq. simpl in Heq. destruct pre; discriminate.
Qed.

Lemma ingest_tracked (docs : list (list ascii * list ascii * list str)) :
  forall (self : t) (e : str),
    tracked (ingest set_iter self docs) e <->
    tracked self e \/ Exists (fun d => e ∈ _extract_entities d.1.2) docs.
Proof using set_iter_perm.
  induction docs as [|[[doc_id text] chunks] docs IH]; intros self e.
  - simpl. rewrite Exists_nil. tauto.
  - simpl. rewrite IH, (add_document_tracked set_iter set_iter_perm), Exists_cons.
    simpl. tauto.
Qed.

(** X11: [get_entity_details] on a builder fed from the start returns
    [None] exactly for an entity that was extracted from none of the
    documents; otherwise the frequency is at least one, the list of
    documents is not empty and names stored documents only, and every
    related entity is another tracked entity, with a weight between one
    and the number of documents shared with it. *)
Theorem entity_details_reachable
        (docs : list (list ascii * list ascii * list str)) (entity : str) :
  (get_entity_details set_iter (ingest set_iter init docs) entity = None <->
   Forall (fun d => entity ∉ _extract_entities d.1.2) docs) /\
  (forall det,
     get_entity_details set_iter (ingest set_iter init docs) entity = Some det ->
     1 <= det_frequency det /\
     det_documents det <> [] /\
     Forall (fun d => is_Some (documents (ingest set_iter init docs) !! d))
            (det_documents det) /\
     Forall (fun row =>
               fst row <> entity /\
               tracked (ingest set_iter init docs) (fst row) /\
               1 <= snd row
               <= Z.of_nat (size (docs_of (ingest set_iter init docs) entity
                                  ∩ docs_of (ingest set_iter init docs) (fst row))))
            (det_related det)).
Proof using set_iter_perm.
  destruct init_invariants as [Ht0 Hs0].
  destruct (ingest_invariants set_iter set_iter_perm docs init Ht0 Hs0)
    as [(Hnd & Hkeys & Hpos & Hdocs & _) Hs].
  pose proof (ingest_tracked docs init entity) as Htr.
  split.
  - unfold get_entity_details.
    destruct (entities (ingest set_iter init docs) !! entity) as [ds|] eqn:E.
    + split; [discriminate|]. intros Hall. exfalso.
      assert (Hin : tracked (ingest set_iter init docs) entity)
        by (unfold tracked; rewrite E; eexists; reflexivity).
      apply Htr in Hin as [[x Hx]|Hex].
      * simpl in Hx. rewrite lookup_empty in Hx. discriminate.
      * apply Exists_exists in Hex as (d & Hd & He).
        rewrite Forall_forall in Hall. exact (Hall d Hd He).
    + split; [|reflexivity]. intros _. apply Forall_forall. intros d Hd He.
      assert (Hin : tracked (ingest set_iter init docs) entity).
      { apply Htr. right. apply Exists_exists. exists d. auto. }
      destruct Hin as [x Hx]. congruence.
  - intros det Hdet. unfold get_entity_details in Hdet.
    destruct (entities (ingest set_iter init docs) !! entity) as [ds|] eqn:E;
      [|discriminate].
    apply (inj Some) in Hdet. subst det.
    cbn [det_frequency det_documents det_related].
    assert (Hin : tracked (ingest set_iter init docs) entity)
      by (unfold tracked; rewrite E; eexists; reflexivity).
    assert (Hds : docs_of (ingest set_iter init docs) entity = ds)
      by (unfold docs_of; rewrite E; reflexivity).
    destruct (Hpos entity Hin) as [Hf Hne].
    split; [exact Hf|]. split; [|split].
    + intros Hnil. apply Hne. rewrite Hds. apply set_eq. intros x.
      rewrite <- (set_iter_elem set_iter set_iter_perm), Hnil.
      split; [inversion 1|]. intros Hx. exfalso. exact (not_elem_of_empty _ Hx).
    + apply Forall_forall. intros d Hd.
      apply (set_iter_elem set_iter set_iter_perm) in Hd.
      apply (Hdocs entity d). rewrite Hds. exact Hd.
    + apply Forall_forall. intros [e' w] Hrow.
      apply subseteq_take in Hrow.
      rewrite SortFacts.sorted_desc_perm in Hrow.
      unfold related_rows in Hrow.
      apply list_elem_of_omap in Hrow as ([[e1 e2] w0] & Hr & Hsel).
      destruct (Hs e1 e2 w0 Hr) as (Hab & Ha & Hb & Hw).
      simpl. destruct (decide (e1 = entity)) as [->|Hn1].
      * injection Hsel as <- <-. split; [congruence|]. split; [exact Hb|exact Hw].
      * destruct (decide (e2 = entity)) as [->|Hn2]; [|discriminate].
        injection Hsel as <- <-. split; [exact Hn1|]. split; [exact Ha|].
        rewrite (comm_L (∩)). exact Hw.
Qed.

End WithOrder.

End ViewProofs.

(* ===================================================================== *)
(** * Properties of the answer template                                    *)
(* ===================================================================== *)

Module ResponseProofs.
Import Py VectorStore Response.

Lemma split_nonempty (sep : ascii) (s : str) : split sep s <> [].
Proof.
  induction s as [|c s IH]; simpl; [discriminate|].
  destruct (decide (c = sep)); [discriminate|].
  destruct (split sep s); [contradiction|discriminate].
Qed.

Lemma split_app (sep : ascii) (a b : str) :
  split sep (a ++ sep :: b) = split sep a ++ split sep b.
Proof.
  induction a as [|c a IH]; simpl.
  - destruct (decide (sep = sep)); [reflexivity|contradiction].
  - destruct (decide (c = sep)); [rewrite IH; reflexivity|].
    rewrite IH. pose proof (split_nonempty sep a) as Hne.
    destruct (split sep a) as [|h t]; [contradiction|reflexivity].
Qed.

Lemma split_lines (sep : ascii) (s : str) :
  Forall (fun l => sep ∉ l) (split sep s).
Proof.
  induction s as [|c s IH]; simpl.
  - constructor; [apply not_elem_of_nil|constructor].
  - destruct (decide (c = sep)).
    + constructor; [apply not_elem_of_nil|exact IH].
    + destruct (split sep s) as [|h t]; [repeat constructor|].
      * intros H. apply elem_of_cons in H as [H|H]; [congruence|inversion H].
      * apply Forall_cons in IH as [Hh Ht]. constructor; [|exact Ht].
        intros H. apply elem_of_cons in H as [H|H]; [congruence|contradiction].
Qed.

Lemma split_join (blocks : list str) (l : str) :
  l ∈ split nl (join [nl; nl] blocks) ->
  l = [] \/ exists b, b ∈ blocks /\ l ∈ split nl b.
Proof.
  induction blocks as [|x blocks IH]; intros H.
  - simpl in H. apply list_elem_of_singleton in H. left. exact H.
  - destruct blocks as [|y blocks].
    + right. exists x. split; [left|exact H].
    + change (join [nl; nl] (x :: y :: blocks))
        with (x ++ nl :: (nl :: join [nl; nl] (y :: blocks))) in H.
      rewrite split_app in H. apply elem_of_app in H as [H|H].
      * right. exists x. split; [left|exact H].
      * change (split nl (nl :: join [nl; nl] (y :: blocks)))
          with ([] :: split nl (join [nl; nl] (y :: blocks))) in H.
        apply elem_of_cons in H as [H|H]; [left; exact H|].
        destruct (IH H) as [Hl|(b & Hb & Hl)]; [left; exact Hl|].
        right. exists b. split; [right; exact Hb|exact Hl].
Qed.

Lemma join_nonempty (sep : str) (x : str) (l : list str) :
  x <> [] -> join sep (x :: l) <> [].
Proof.
  intros Hx. destruct l as [|y l]; simpl; [exact Hx|].
  destruct x; [contradiction|discriminate].
Qed.

Lemma source_block_lines (chunk : result) (b l : str) :
  source_block chunk = Some b ->
  l ∈ split nl b ->
  exists name, r_metadata chunk !! lit "document_name" = Some name /\
    (l ∈ split nl (lit "[Source: " ++ format_value name ++ lit "]") \/
     l ∈ split nl (r_text chunk)).
Proof.
  unfold source_block.
  destruct (r_metadata chunk !! lit "document_name") as [name|]; [|discriminate].
  intros Hb Hl. apply (inj Some) in Hb. subst b.
  exists name. split; [reflexivity|].
  assert (E : lit "[Source: " ++ format_value name ++ lit "]" ++ [nl] ++ r_text chunk
              = (lit "[Source: " ++ format_value name ++ lit "]")
                  ++ nl :: r_text chunk)
    by (rewrite <- !app_assoc; reflexivity).
  rewrite E, split_app in Hl. apply elem_of_app in Hl. exact Hl.
Qed.

Lemma source_block_nonempty (chunk : result) (b : str) :
  source_block chunk = Some b -> b <> [].
Proof.
  unfold source_block.
  destruct (r_metadata chunk !! lit "document_name"); [|discriminate].
  intros [= <-]. discriminate.
Qed.

(** The answer for chunks that all name their document. *)
Lemma generate_response_lines (query : str) (chunks : list result) :
  chunks <> [] ->
  Forall (fun c => is_Some (r_metadata c !! lit "document_name")) chunks ->
  exists lines,
    generate_response query chunks
    = Some (header ++ join [nl] lines ++ closing query) /\
    (length lines <= 3)%nat /\
    Forall (fun l =>
      20 < len l /\ strip l <> [] /\ (nl ∉ l) /\
      exists c name, c ∈ chunks /\
        r_metadata c !! lit "document_name" = Some name /\
        (l ∈ split nl (lit "[Source: " ++ format_value name ++ lit "]") \/
         l ∈ split nl (r_text c))) lines.
Proof.
  intros Hne Hall. unfold generate_response.
  destruct (mapM source_block chunks) as [blocks|] eqn:Em.
  2:{ exfalso. apply mapM_None_1 in Em. apply Exists_exists in Em as (c & Hc & Hn).
      rewrite Forall_forall in Hall. destruct (Hall c Hc) as [name Hname].
      unfold source_block in Hn. rewrite Hname in Hn. apply eq_None_not_Some in Hn.
      apply Hn. eexists. reflexivity. }
  apply mapM_Some_1 in Em.
  assert (Hctx : join [nl; nl] blocks <> []).
  { destruct Em as [|c b cs bs Hb Hrest]; [contradiction|].
    apply join_nonempty. eapply source_block_nonempty, Hb. }
  unfold _template_response.
  destruct (join [nl; nl] blocks) as [|c0 ctx] eqn:Ej; [contradiction|].
  rewrite <- Ej. clear Hctx.
  exists (firstn 3 (relevant_sentences (join [nl; nl] blocks))).
  split; [reflexivity|]. split; [rewrite length_firstn; lia|].
  apply Forall_take. unfold relevant_sentences. apply Forall_take.
  apply Forall_forall. intros l Hl.
  apply list_elem_of_filter in Hl as [[Hs Hlen] Hl].
  split; [exact Hlen|]. split; [exact Hs|]. split.
  - pose proof (split_lines nl (join [nl; nl] blocks)) as Hsl.
    rewrite Forall_forall in Hsl. apply Hsl, Hl.
  - apply split_join in Hl as [->|(b & Hb & Hl)]; [simpl in Hlen; unfold len in Hlen; simpl in Hlen; lia|].
    apply list_elem_of_lookup_1 in Hb as [i Hi].
    destruct (Forall2_lookup_r _ _ _ _ _ Em Hi) as (c & Hc & Hsb).
    destruct (source_block_lines c b l Hsb Hl) as (name & Hname & Hor).
    exists c, name. split; [eapply list_elem_of_lookup_2, Hc|]. auto.
Qed.

(** X21: for chunks that all name their document, and at least one of
    them, [generate_response] answers the header, at most three lines and
    the closing sentence that quotes the query; each of the lines has more
    than 20 characters, is not blank, holds no line feed, and is a line of
    the source line or of the text of one of the chunks. *)
Theorem generate_response_shape (query : str) (chunks : list result) :
  chunks <> [] ->
  Forall (fun c => is_Some (r_metadata c !! lit "document_name")) chunks ->
  exists lines,
    generate_response query chunks
    = Some (header ++ join [nl] lines ++ closing query) /\
    (length lines <= 3)%nat /\
    Forall (fun l =>
      20 < len l /\ strip l <> [] /\ (nl ∉ l) /\
      exists c name, c ∈ chunks /\
        r_metadata c !! lit "document_name" = Some name /\
        (l ∈ split nl (lit "[Source: " ++ format_value name ++ lit "]") \/
         l ∈ split nl (r_text c))) lines.
Proof. apply generate_response_lines. Qed.

(** The call raises exactly when a chunk has no ['document_name']. *)
Lemma generate_response_fails (query : str) (chunks : list result) :
  generate_response query chunks = None <->
  Exists (fun c => r_metadata c !! lit "document_name" = None) chunks.
Proof.
  unfold generate_response. split.
  - destruct (mapM source_block chunks) eqn:Em; [discriminate|]. intros _.
    apply mapM_None_1 in Em. eapply Exists_impl; [exact Em|].
    intros c Hc. unfold source_block in Hc.
    destruct (r_metadata c !! lit "document_name"); [discriminate|reflexivity].
  - intros Hex.
    destruct (mapM source_block chunks) as [blocks|] eqn:Em; [|reflexivity].
    exfalso. apply mapM_Some_1 in Em.
    apply Exists_exists in Hex as (c & Hc & Hn).
    apply list_elem_of_lookup_1 in Hc as [i Hi].
    destruct (Forall2_lookup_l _ _ _ _ _ Em Hi) as (b & _ & Hb).
    unfold source_block in Hb. rewrite Hn in Hb. discriminate.
Qed.

(** X22: [generate_response] raises exactly when one of the chunks has
    no ['document_name'] in its metadata, and it returns the sentence that
    nothing was found exactly when there are no chunks. *)
Theorem generate_response_edges (query : str) (chunks : list result) :
  (generate_response query chunks = None <->
   Exists (fun c => r_metadata c !! lit "document_name" = None) chunks) /\
  (generate_response query chunks = Some (header ++ apology) <-> chunks = []).
Proof.
  split; [apply generate_response_fails|].
  split; [|intros ->; reflexivity].
  intros H. destruct chunks as [|c chunks]; [reflexivity|]. exfalso.
  destruct (decide (Forall (fun c => is_Some (r_metadata c !! lit "document_name"))
                           (c :: chunks))) as [Hall|Hex].
  - destruct (generate_response_lines query (c :: chunks)) as (lines & Hg & _);
      [discriminate|exact Hall|].
    rewrite Hg in H. apply (inj Some) in H. apply app_inv_head in H.
    assert (Hin : nl ∈ join [nl] lines ++ closing query).
    { apply elem_of_app. right. left. }
    rewrite H in Hin. vm_compute in Hin.
    repeat (apply elem_of_cons in Hin as [Hin|Hin]; [discriminate|]).
    inversion Hin.
  - unfold generate_response in H.
    destruct (mapM source_block (c :: chunks)) as [blocks|] eqn:Em;
      [|discriminate].
    apply Hex. apply mapM_Some_1 in Em.
    apply Forall_forall. intros x Hx.
    apply list_elem_of_lookup_1 in Hx as [i Hi].
    destruct (Forall2_lookup_l _ _ _ _ _ Em Hi) as (b & _ & Hb).
    unfold source_block in Hb.
    destruct (r_metadata x !! lit "document_name"); [eexists; reflexivity|discriminate].
Qed.

End ResponseProofs.

(* ===================================================================== *)
(** * Properties of the endpoints                                          *)
(* ===================================================================== *)

Module MainProofs.
Import Py VectorStore StoreVocabulary StoreProofs StoreTerms StoreExtras.
Import SearchExtras Response ResponseProofs Main MainTerms.

Lemma sum_from (l : list Z) (a : Z) :
  fold_left Z.add l a = a + fold_left Z.add l 0.
Proof.
  revert a. induction l as [|x l IH]; intros a; [simpl; lia|].
  change (fold_left Z.add l (a + x) = a + fold_left Z.add l (0 + x)).
  rewrite (IH (a + x)), (IH (0 + x)). lia.
Qed.

Lemma sum_app (l1 l2 : list Z) :
  fold_left Z.add (l1 ++ l2) 0 = fold_left Z.add l1 0 + fold_left Z.add l2 0.
Proof. rewrite fold_left_app, sum_from. reflexivity. Qed.

Lemma map_snd_filter_zip {A B : Type} (P : B -> Prop)
      (HP : forall x, Decision (P x))
      (HQ : forall p : A * B, Decision (P (snd p)))
      (ts : list A) (ms : list B) :
  length ts = length ms ->
  map snd (@filter _ _ _ (fun p => P (snd p)) HQ (zip ts ms))
  = @filter _ _ _ P HP ms.
Proof.
  revert ts. induction ms as [|m ms IH]; intros [|t ts] Hlen;
    try discriminate; [reflexivity|].
  injection Hlen as Hlen.
  change (zip (t :: ts) (m :: ms)) with ((t, m) :: zip ts ms).
  rewrite !filter_cons. unfold decide. simpl.
  destruct (HQ (t, m)) as [Hq|Hq]; destruct (HP m) as [Hp|Hp]; simpl;
    try rewrite (IH ts Hlen); try reflexivity; simpl in Hq; contradiction.
Qed.

Lemma filter_filter_sub {A : Type} (P Q : A -> Prop)
      `{!forall x, Decision (P x)} `{!forall x, Decision (Q x)} (l : list A) :
  (forall x, P x -> Q x) -> filter P (filter Q l) = filter P l.
Proof.
  intros Himp. induction l as [|x l IH]; [reflexivity|].
  rewrite !filter_cons. destruct (decide (Q x)) as [Hq|Hq].
  - rewrite filter_cons. destruct (decide (P x)); rewrite IH; reflexivity.
  - destruct (decide (P x)) as [Hp|Hp]; [exfalso; auto|exact IH].
Qed.

Lemma chunk_metadata_length (file_id filename : str) (n : nat) :
  length (chunk_metadata file_id filename n) = n.
Proof. unfold chunk_metadata. rewrite length_map, length_seq. reflexivity. Qed.

Lemma chunk_metadata_uploaded (file_id filename : str) (n : nat) (ids : list str) :
  file_id ∈ ids ->
  Forall (uploaded_meta ids) (chunk_metadata file_id filename n).
Proof.
  intros Hin. apply Forall_forall. intros m Hm.
  apply list_elem_of_In, in_map_iff in Hm as (i & <- & _).
  exists file_id, filename, (Z.of_nat i). auto.
Qed.

Lemma uploaded_meta_owner (ids : list str) (m : meta) (document_id : str) :
  uploaded_meta ids m -> owned_by document_id m -> document_id ∈ ids.
Proof.
  intros (file_id & filename & i & -> & Hin) Ho. unfold owned_by in Ho.
  rewrite lookup_insert_eq in Ho. injection Ho as <-. exact Hin.
Qed.

Lemma uploaded_meta_keys (ids : list str) (m : meta) :
  uploaded_meta ids m ->
  exists file_id name i,
    m !! lit "document_id" = Some (VStr file_id) /\
    m !! lit "document_name" = Some (VStr name) /\
    m !! lit "chunk_index" = Some (VInt i).
Proof.
  intros (file_id & filename & i & -> & _). exists file_id, filename, i.
  split; [apply lookup_insert_eq|]. split.
  - rewrite lookup_insert_ne by discriminate. apply lookup_insert_eq.
  - rewrite !lookup_insert_ne by discriminate. apply lookup_insert_eq.
Qed.

Lemma uploaded_meta_mono (ids ids' : list str) (m : meta) :
  (forall x, x ∈ ids -> x ∈ ids') -> uploaded_meta ids m -> uploaded_meta ids' m.
Proof.
  intros Hsub (file_id & filename & i & Hm & Hin).
  exists file_id, filename, i. auto.
Qed.

Lemma chunk_metadata_owned (file_id filename : str) (n : nat) :
  Forall (owned_by file_id) (chunk_metadata file_id filename n).
Proof.
  apply Forall_forall. intros m Hm.
  apply list_elem_of_In, in_map_iff in Hm as (i & <- & _).
  unfold owned_by. apply lookup_insert_eq.
Qed.

Lemma owned_by_one (a b : str) (m : meta) :
  owned_by a m -> owned_by b m -> a = b.
Proof. unfold owned_by. intros Ha Hb. rewrite Ha in Hb. congruence. Qed.

Lemma start_consistent : consistent (start no_files).
Proof.
  unfold consistent, start. simpl.
  split; [split; reflexivity|]. split; [reflexivity|]. split; [reflexivity|].
  split; [constructor|]. repeat (split; [constructor|]). reflexivity.
Qed.

Lemma find_record (db : list doc_record) (document_id : str) :
  (find (fun d => bool_decide (rec_id d = document_id)) db = None
   <-> document_id ∉ map rec_id db) /\
  (forall doc, find (fun d => bool_decide (rec_id d = document_id)) db = Some doc ->
     doc ∈ db /\ rec_id doc = document_id).
Proof.
  split.
  - induction db as [|r db IH]; simpl.
    + split; [intros _; apply not_elem_of_nil|reflexivity].
    + rewrite not_elem_of_cons. destruct (bool_decide_reflect (rec_id r = document_id)).
      * split; [discriminate|]. intros [H _]. congruence.
      * rewrite IH. split; [intros H; split; [congruence|exact H]|tauto].
  - intros doc H. apply find_some in H as [Hin Hb].
    apply bool_decide_eq_true in Hb. split; [apply list_elem_of_In, Hin|exact Hb].
Qed.

Lemma sum_without (db : list doc_record) (doc : doc_record) :
  NoDup (map rec_id db) -> doc ∈ db ->
  fold_left Z.add (map rec_chunks db) 0
  = fold_left Z.add
      (map rec_chunks (filter (fun d => rec_id d ≠ rec_id doc) db)) 0
    + rec_chunks doc.
Proof.
  induction db as [|r db IH]; intros Hnd Hin; [inversion Hin|].
  simpl in Hnd. apply NoDup_cons in Hnd as [Hr Hnd].
  rewrite filter_cons. simpl map at 1.
  change (fold_left Z.add (rec_chunks r :: map rec_chunks db) 0)
    with (fold_left Z.add (map rec_chunks db) (0 + rec_chunks r)).
  rewrite sum_from. apply elem_of_cons in Hin as [->|Hin].
  - destruct (decide (rec_id r ≠ rec_id r)) as [Hne|_]; [congruence|].
    assert (E : filter (fun d => rec_id d ≠ rec_id r) db = db).
    { apply filter_all. apply Forall_forall. intros x Hx Heq.
      apply Hr. rewrite <- Heq.
      apply list_elem_of_In, in_map, list_elem_of_In, Hx. }
    rewrite E. lia.
  - destruct (decide (rec_id r ≠ rec_id doc)) as [Hne|He].
    + simpl map.
      change (fold_left Z.add (rec_chunks r :: ?l) 0)
        with (fold_left Z.add l (0 + rec_chunks r)).
      rewrite (sum_from _ (0 + rec_chunks r)), (IH Hnd Hin). lia.
    + exfalso. apply Hr. apply dec_stable in He. rewrite He.
      apply list_elem_of_In, in_map, list_elem_of_In, Hin.
Qed.

Section Services.
Variable encode : str -> vector.
Variable set_iter : gset (list ascii) -> list (list ascii).
Hypothesis set_iter_perm : forall X, set_iter X ≡ₚ elements X.
Hypothesis encode_dimension :
  forall text, Z.of_nat (length (encode text)) = 384.

Lemma upload_consistent (fuel : nat) (a a' : app) (file_id filename : str)
      (content_size : Z) (text uploaded_at : str) :
  consistent a ->
  file_id ∉ map rec_id (documents_db a) ->
  upload_one encode set_iter fuel a file_id filename content_size text uploaded_at
  = Some a' ->
  consistent a'.
Proof using set_iter_perm.
  intros (Hwf & Hdim & Hd & Hnd & Hmeta & Hcount & Hkg & Hsum) Hfresh Hup.
  unfold upload_one in Hup.
  destruct (decide (file_extension filename ∈ supported)); [|discriminate].
  destruct (RAGEngine.chunk_text fuel RAGEngine.init text) as [chunks|];
    [|discriminate].
  destruct (add_chunks encode (vector_store a) chunks _ None)
    as [[store ids]|] eqn:Ea; [|discriminate].
  injection Hup as <-.
  assert (Hnone : forall e0 : list (list spec_float),
            @None (list (list spec_float)) = Some e0 ->
            length e0 = length chunks) by (intros e0 He0; discriminate He0).
  destruct (add_chunks_well_formed encode (vector_store a) store chunks
              (chunk_metadata file_id filename (length chunks)) None ids Hwf
              (chunk_metadata_length file_id filename (length chunks))
              Hnone Ea)
    as (Hwf' & Hsz & Ht & Hm & _).
  assert (Hdims : dimension store = dimension (vector_store a)
                  /\ d (index store) = d (index (vector_store a))).
  { unfold add_chunks in Ea. cbv zeta in Ea.
    destruct (index_add _ _) as [ix|] eqn:Ei; [|discriminate].
    injection Ea as <- _. simpl. split; [reflexivity|].
    apply (index_add_rows _ _ _ Ei). }
  unfold consistent. simpl.
  rewrite map_app. simpl map.
  split; [exact Hwf'|]. split; [rewrite (proj1 Hdims); exact Hdim|].
  split; [rewrite (proj2 Hdims); exact Hd|].
  split; [|split; [|split; [|split]]].
  - apply NoDup_app. split; [exact Hnd|]. split.
    + intros x Hx Hx'. apply list_elem_of_singleton in Hx'. subst x. contradiction.
    + apply NoDup_singleton.
  - rewrite Hm. apply Forall_app. split.
    + eapply Forall_impl; [exact Hmeta|]. intros m.
      apply uploaded_meta_mono. intros x Hx. apply elem_of_app. left. exact Hx.
    + apply chunk_metadata_uploaded, elem_of_app. right. left.
  - rewrite Hm. apply Forall_app. split.
    + rewrite Forall_forall in Hcount |- *. intros r Hr.
      rewrite filter_app, length_app.
      rewrite (filter_none (owned_by (rec_id r)) (chunk_metadata _ _ _)).
      * rewrite <- (Hcount r Hr). simpl. lia.
      * eapply Forall_impl; [apply chunk_metadata_owned|].
        intros m Hm1 Hm2. apply Hfresh.
        rewrite (owned_by_one _ _ _ Hm1 Hm2).
        apply list_elem_of_In, in_map, list_elem_of_In, Hr.
    + constructor; [|constructor]. simpl.
      rewrite filter_app, length_app.
      rewrite (filter_none (owned_by file_id) (chunks_metadata (vector_store a))).
      * rewrite (filter_all (owned_by file_id)) by apply chunk_metadata_owned.
        rewrite chunk_metadata_length. reflexivity.
      * eapply Forall_impl; [exact Hmeta|]. intros m Hu Ho.
        apply Hfresh. eapply uploaded_meta_owner; eassumption.
  - rewrite (InvariantProofs.add_document_documents set_iter set_iter_perm).
    apply Forall_app. split.
    + eapply Forall_impl; [exact Hkg|]. intros r Hr.
      destruct (decide (rec_id r = file_id)) as [->|Hne].
      * rewrite lookup_insert_eq. eexists. reflexivity.
      * rewrite lookup_insert_ne by congruence. exact Hr.
    + constructor; [|constructor]. simpl.
      rewrite lookup_insert_eq. eexists. reflexivity.
  - unfold total_chunks in *. simpl. rewrite map_app, sum_app, Hsum, Hsz.
    simpl. reflexivity.
Qed.

Lemma delete_consistent (a a' : app) (document_id : str) :
  consistent a ->
  delete_endpoint encode a document_id = Some a' ->
  consistent a' /\
  kg_builder a' = kg_builder a /\
  (document_id ∉ map rec_id (documents_db a')) /\
  Forall (fun m => ~ owned_by document_id m)
         (chunks_metadata (vector_store a')) /\
  exists doc, doc ∈ documents_db a /\ rec_id doc = document_id /\
    get_size (vector_store a') = get_size (vector_store a) - rec_chunks doc.
Proof.
  intros (Hwf & Hdim & Hd & Hnd & Hmeta & Hcount & Hkg & Hsum) Hdel.
  unfold delete_endpoint in Hdel.
  destruct (find _ (documents_db a)) as [doc|] eqn:Ef; [|discriminate].
  apply (proj2 (find_record _ _)) in Ef as [Hdoc Hid].
  destruct (delete_document_result encode document_id (vector_store a) Hwf)
    as (store & Hs & Ht & Hm & Hdim' & Hwf' & Hsame & Hrebuilt);
    [intros text; rewrite Hdim; apply encode_dimension|].
  rewrite Hs in Hdel. injection Hdel as <-.
  assert (Hmf : chunks_metadata store
                = filter (fun m => ~ owned_by document_id m)
                         (chunks_metadata (vector_store a))).
  { rewrite Hm. unfold others, passages.
    apply (map_snd_filter_zip (fun m => ~ owned_by document_id m)).
    destruct Hwf as [_ Hml]. symmetry. exact Hml. }
  assert (Hsize : get_size store
                  = get_size (vector_store a) - rec_chunks doc).
  { destruct Hwf as [Hx Hml]. destruct Hwf' as [Hx' Hml'].
    unfold get_size, ntotal. rewrite Hx', <- Hml', Hx, <- Hml, Hmf.
    rewrite Forall_forall in Hcount. rewrite <- (Hcount doc Hdoc), Hid.
    pose proof (filter_split_length (owned_by document_id)
                  (chunks_metadata (vector_store a))). lia. }
  assert (Hsub : forall r, r ∈ filter (fun d => rec_id d ≠ document_id)
                                      (documents_db a) ->
                 r ∈ documents_db a /\ rec_id r <> document_id).
  { intros r Hr. apply list_elem_of_filter in Hr. tauto. }
  split; [|split; [reflexivity|split; [|split]]].
  - unfold consistent. simpl.
    split; [exact Hwf'|]. split; [rewrite Hdim'; exact Hdim|]. split.
    { destruct (decide (Forall (fun m => ~ owned_by document_id m)
                               (chunks_metadata (vector_store a)))) as [Hall|Hex].
      - rewrite (Hsame Hall). exact Hd.
      - rewrite Hrebuilt; [exact Hdim|].
        apply not_Forall_Exists in Hex; [|apply _].
        eapply Exists_impl; [exact Hex|]. intros m Hn. simpl in Hn.
        destruct (decide (owned_by document_id m)); [assumption|contradiction]. }
    split; [|split; [|split; [|split]]].
    + change (map rec_id (filter (fun d => rec_id d ≠ document_id) (documents_db a)))
        with (rec_id <$> filter (fun d => rec_id d ≠ document_id) (documents_db a)).
      eapply NoDup_fmap_2_strong; [|eapply sublist_NoDup; [|apply sublist_filter]].
      * intros x y Hx Hy Heq. apply Hsub in Hx as [Hx _]. apply Hsub in Hy as [Hy _].
        clear -Hnd Hx Hy Heq. induction (documents_db a) as [|r db IH];
          [inversion Hx|].
        simpl in Hnd. apply NoDup_cons in Hnd as [Hr Hnd].
        apply elem_of_cons in Hx as [->|Hx]; apply elem_of_cons in Hy as [->|Hy].
        -- reflexivity.
        -- exfalso. apply Hr. rewrite Heq.
           apply list_elem_of_In, in_map, list_elem_of_In, Hy.
        -- exfalso. apply Hr. rewrite <- Heq.
           apply list_elem_of_In, in_map, list_elem_of_In, Hx.
        -- apply IH; assumption.
      * clear -Hnd. induction (documents_db a) as [|r db IH]; [constructor|].
        simpl in Hnd. apply NoDup_cons in Hnd as [Hr Hnd].
        constructor; [|apply IH, Hnd].
        intros Hin. apply Hr.
        apply list_elem_of_In, in_map, list_elem_of_In, Hin.
    + rewrite Hmf. apply Forall_forall. intros m Hm'.
      apply list_elem_of_filter in Hm' as [Hno Hin].
      rewrite Forall_forall in Hmeta.
      destruct (Hmeta m Hin) as (file_id & filename & i & -> & Hfid).
      exists file_id, filename, i. split; [reflexivity|].
      apply list_elem_of_In, in_map_iff in Hfid as (r & <- & Hr).
      apply list_elem_of_In, in_map, list_elem_of_In, list_elem_of_filter.
      split; [|apply list_elem_of_In, Hr].
      intros Heq. apply Hno. unfold owned_by.
      rewrite lookup_insert_eq, Heq. reflexivity.
    + apply Forall_forall. intros r Hr. apply Hsub in Hr as [Hr Hne].
      rewrite Hmf.
      rewrite (filter_filter_sub (owned_by (rec_id r))
                 (fun m => ~ owned_by document_id m)).
      * rewrite Forall_forall in Hcount. apply Hcount, Hr.
      * intros m Ho1 Ho2. apply Hne. eapply owned_by_one; eassumption.
    + apply Forall_forall. intros r Hr. apply Hsub in Hr as [Hr _].
      rewrite Forall_forall in Hkg. apply Hkg, Hr.
    + unfold total_chunks in *. simpl. rewrite Hsize, <- Hsum.
      rewrite (sum_without _ doc Hnd Hdoc), Hid. lia.
  - simpl. intros Hin.
    apply list_elem_of_In, in_map_iff in Hin as (r & Hr & Hin).
    apply list_elem_of_In, Hsub in Hin as [_ Hne]. contradiction.
  - simpl. rewrite Hmf. apply Forall_forall. intros m Hm'.
    apply list_elem_of_filter in Hm' as [Hno _]. exact Hno.
  - exists doc. simpl. auto.
Qed.

Lemma reachable_consistent (a : app) :
  reachable encode set_iter a -> consistent a.
Proof using set_iter_perm encode_dimension.
  induction 1 as [|a a' fuel file_id filename size text at_ Hr IH Hfresh Hup
                  |a a' document_id Hr IH Hdel].
  - apply start_consistent.
  - eapply upload_consistent; eassumption.
  - eapply delete_consistent; eassumption.
Qed.

Lemma search_results_stored (store : VectorStore.t) (query : str) (top_k : Z)
      (results : list result) :
  similarity_search encode store query top_k = Some results ->
  Forall (fun r => r_metadata r ∈ chunks_metadata store) results.
Proof.
  intros Hs. apply Forall_forall. intros r Hr.
  unfold similarity_search in Hs.
  destruct (ntotal (index store) =? 0).
  - injection Hs as <-. inversion Hr.
  - destruct (search_hits encode store query top_k) as [hits|]; [|discriminate].
    destruct (format_results_sound store hits 0 results Hs r Hr)
      as (idx & _ & Hidx).
    eapply getitem_elem, Hidx.
Qed.

Lemma ids_stored (a : app) :
  consistent a ->
  Z.of_nat (length (documents_db a))
  <= Z.of_nat (size (KnowledgeGraphBuilder.documents (kg_builder a))).
Proof.
  intros (_ & _ & _ & Hnd & _ & _ & Hkg & _).
  rewrite <- (length_map rec_id (documents_db a)).
  rewrite <- (size_list_to_set (C := gset (list ascii))) by exact Hnd.
  rewrite <- size_dom. apply inj_le, subseteq_size.
  intros x Hx. apply elem_of_list_to_set in Hx.
  apply list_elem_of_In, in_map_iff in Hx as (r & <- & Hr).
  apply elem_of_dom. rewrite Forall_forall in Hkg.
  apply Hkg, list_elem_of_In, Hr.
Qed.

(** X23: the figures of [get_stats] agree.  In every state reached from a
    start without index files by uploads and deletions, with an encoder
    of dimension 384, the sum of the chunk counts of [documents_db] is the
    size of the vector store and the number of stored texts, and the
    knowledge graph holds at least as many documents as [documents_db]. *)
Theorem stats_agree (a : app) :
  reachable encode set_iter a ->
  total_chunks a = get_size (vector_store a) /\
  Z.of_nat (length (chunk_texts (vector_store a))) = total_chunks a /\
  Z.of_nat (length (documents_db a))
  <= Z.of_nat (size (KnowledgeGraphBuilder.documents (kg_builder a))).
Proof using set_iter_perm encode_dimension.
  intros Hr. pose proof (reachable_consistent a Hr) as Hc.
  pose proof (ids_stored a Hc) as Hids.
  destruct Hc as ([Hx _] & _ & _ & _ & _ & _ & _ & Hsum).
  split; [exact Hsum|]. split; [|exact Hids].
  rewrite Hsum. unfold get_size, ntotal. rewrite Hx. reflexivity.
Qed.

(** X24: the query endpoint finds what it looks up.  In every reached
    state, for [top_k >= 1], [similarity_search] returns, every entry of
    its answer has a ['document_name'] and a ['chunk_index'] in its
    metadata, and [generate_response] on the answer returns. *)
Theorem query_answers (a : app) (query : str) (top_k : Z) :
  reachable encode set_iter a ->
  1 <= top_k ->
  exists results response,
    similarity_search encode (vector_store a) query top_k = Some results /\
    generate_response query results = Some response /\
    Forall (fun r => exists name i,
              r_metadata r !! lit "document_name" = Some (VStr name) /\
              r_metadata r !! lit "chunk_index" = Some (VInt i)) results.
Proof using set_iter_perm encode_dimension.
  intros Hr Hk. pose proof (reachable_consistent a Hr)
    as (Hwf & Hdim & Hd & _ & Hmeta & _).
  pose proof (similarity_search_entries encode (vector_store a) query top_k Hwf)
    as Hs.
  rewrite Hd in Hs. specialize (Hs (encode_dimension query) Hk).
  eexists. 
  assert (Hkeys : Forall (fun r => exists name i,
              r_metadata r !! lit "document_name" = Some (VStr name) /\
              r_metadata r !! lit "chunk_index" = Some (VInt i))
            (imap (entry (vector_store a))
               (take (Z.to_nat top_k)
                  (rank_hits (all_hits (index (vector_store a)) (encode query)))))).
  { pose proof (search_results_stored _ _ _ _ Hs) as Hst.
    rewrite Forall_forall in Hst. rewrite Forall_forall in Hmeta.
    apply Forall_forall. intros r Hin.
    destruct (uploaded_meta_keys _ _ (Hmeta _ (Hst r Hin)))
      as (fid & name & i & _ & Hn & Hi).
    exists name, i. auto. }
  destruct (generate_response query
              (imap (entry (vector_store a))
                 (take (Z.to_nat top_k)
                    (rank_hits (all_hits (index (vector_store a)) (encode query))))))
    as [response|] eqn:Eg.
  - exists response. split; [exact Hs|]. split; [exact Eg|exact Hkeys].
  - exfalso. apply generate_response_fails in Eg.
    apply Exists_exists in Eg as (r & Hin & Hnone).
    rewrite Forall_forall in Hkeys.
    destruct (Hkeys r Hin) as (name & i & Hn & _). congruence.
Qed.

(** X25: the delete endpoint, in every reached state: it refuses exactly
    the ids that no record of [documents_db] has; when it succeeds, the
    record is gone, the vector store has lost as many rows as the record
    counted chunks and no search answer carries the id any more, while
    the knowledge graph is untouched and still holds the document. *)
Theorem delete_endpoint_effect (a : app) (document_id : str) :
  reachable encode set_iter a ->
  (delete_endpoint encode a document_id = None <->
   document_id ∉ map rec_id (documents_db a)) /\
  (forall a', delete_endpoint encode a document_id = Some a' ->
     kg_builder a' = kg_builder a /\
     is_Some (KnowledgeGraphBuilder.documents (kg_builder a') !! document_id) /\
     (document_id ∉ map rec_id (documents_db a')) /\
     (exists doc, doc ∈ documents_db a /\ rec_id doc = document_id /\
        get_size (vector_store a')
        = get_size (vector_store a) - rec_chunks doc) /\
     forall query top_k results,
       similarity_search encode (vector_store a') query top_k = Some results ->
       Forall (fun r => ~ owned_by document_id (r_metadata r)) results).
Proof using set_iter_perm encode_dimension.
  intros Hr. pose proof (reachable_consistent a Hr) as Hc. split.
  - split.
    + intros Hnone. unfold delete_endpoint in Hnone.
      destruct (find _ (documents_db a)) as [doc|] eqn:Ef;
        [|apply find_record, Ef].
      exfalso. destruct Hc as (Hwf & Hdim & _).
      destruct (delete_document_result encode document_id (vector_store a) Hwf)
        as (store & Hs & _);
        [intros text; rewrite Hdim; apply encode_dimension|].
      rewrite Hs in Hnone. discriminate.
    + intros Hout. unfold delete_endpoint.
      apply find_record in Hout. rewrite Hout. reflexivity.
  - intros a' Hdel.
    destruct (delete_consistent a a' document_id Hc Hdel)
      as (_ & Hkg & Hgone & Hnone & doc & Hdoc & Hid & Hsize).
    split; [exact Hkg|]. split.
    { rewrite Hkg. destruct Hc as (_ & _ & _ & _ & _ & _ & Hdocs & _).
      rewrite Forall_forall in Hdocs. rewrite <- Hid. apply Hdocs, Hdoc. }
    split; [exact Hgone|]. split; [exists doc; auto|].
    intros query top_k results Hs.
    pose proof (search_results_stored _ _ _ _ Hs) as Hst.
    rewrite Forall_forall in Hst. rewrite Forall_forall in Hnone.
    apply Forall_forall. intros r Hin.
    apply Hnone, Hst, Hin.
Qed.

End Services.

End MainProofs.

(* ===================================================================== *)
(** * Properties of the data utilities                                     *)
(* ===================================================================== *)

Module DataProofs.
Import Py DataUtils GraphProofs.

Lemma keys_NoDup_incr (c : Counter.t) (k : str) (n : Z) :
  NoDup (map fst c) -> NoDup (map fst (Counter.incr c k n)).
Proof.
  induction c as [|[k' v] c IH]; intros H; simpl.
  - apply NoDup_singleton.
  - simpl in H. apply NoDup_cons in H as [Hk Hc].
    destruct (decide (k' = k)); simpl.
    + apply NoDup_cons. split; assumption.
    + apply NoDup_cons. split; [|apply IH, Hc].
      intros Hin. apply incr_keys in Hin as [->|Hin]; [congruence|contradiction].
Qed.

Lemma of_list_NoDup (l : list str) : NoDup (map fst (Counter.of_list l)).
Proof.
  unfold Counter.of_list.
  assert (H : forall c, NoDup (map fst c) ->
              NoDup (map fst (fold_left (fun c w => Counter.incr c w 1) l c))).
  { induction l as [|x l IH]; intros c Hc; [exact Hc|].
    simpl. apply IH, keys_NoDup_incr, Hc. }
  apply H. constructor.
Qed.

Lemma of_list_has (l : list str) (w : str) :
  w ∈ map fst (Counter.of_list l) <-> w ∈ l.
Proof.
  unfold Counter.of_list.
  assert (H : forall c, w ∈ map fst (fold_left (fun c w => Counter.incr c w 1) l c)
                        <-> w ∈ map fst c \/ w ∈ l).
  { induction l as [|x l IH]; intros c; simpl.
    - split; [auto|]. intros [H|H]; [exact H|inversion H].
    - rewrite IH, incr_keys, elem_of_cons. tauto. }
  rewrite H. simpl. split; [intros [Hn|Hl]; [inversion Hn|exact Hl]|auto].
Qed.

(** The count of a word is the number of its occurrences. *)
Lemma of_list_count (l : list str) (w : str) :
  Counter.get (Counter.of_list l) w = Z.of_nat (length (filter (fun x => x = w) l)).
Proof.
  unfold Counter.of_list.
  assert (H : forall c, Counter.get (fold_left (fun c w => Counter.incr c w 1) l c) w
                        = Counter.get c w
                          + Z.of_nat (length (filter (fun x => x = w) l))).
  { induction l as [|x l IH]; intros c; simpl; [lia|].
    rewrite IH, get_incr, filter_cons.
    destruct (decide (x = w)); simpl length; lia. }
  rewrite H. simpl. lia.
Qed.

Lemma ranked_NoDup (text : str) (max_size : Z) : NoDup (ranked text max_size).
Proof.
  unfold ranked, Counter.most_common.
  change (map fst (take ?n ?l)) with (fst <$> take n l).
  rewrite fmap_take. eapply sublist_NoDup; [|apply sublist_take].
  eapply NoDup_Permutation_proper; [|apply (of_list_NoDup (split text))].
  apply fmap_Permutation, SortFacts.sorted_desc_perm.
Qed.

Lemma ranked_tokens (text : str) (max_size : Z) (w : str) :
  w ∈ ranked text max_size -> w ∈ split text.
Proof.
  unfold ranked, Counter.most_common. intros H.
  apply of_list_has.
  apply list_elem_of_In, in_map_iff in H as (p & <- & Hp).
  apply list_elem_of_In, subseteq_take in Hp.
  rewrite SortFacts.sorted_desc_perm in Hp.
  apply list_elem_of_In, in_map, list_elem_of_In, Hp.
Qed.

Lemma ranked_length (text : str) (max_size : Z) :
  Z.of_nat (length (ranked text max_size)) <= Z.max 0 (max_size - 2) /\
  (length (ranked text max_size) <= length (Counter.of_list (split text)))%nat.
Proof.
  unfold ranked, Counter.most_common.
  rewrite length_map, length_take.
  rewrite (Permutation_length (SortFacts.sorted_desc_perm snd _)). lia.
Qed.

(** With room for every word, every token is ranked. *)
Lemma ranked_all (text : str) (max_size : Z) (w : str) :
  Z.of_nat (length (Counter.of_list (split text))) <= max_size - 2 ->
  w ∈ split text -> w ∈ ranked text max_size.
Proof.
  intros Hroom Hw. unfold ranked, Counter.most_common.
  rewrite take_ge
    by (rewrite (Permutation_length (SortFacts.sorted_desc_perm snd _)); lia).
  apply of_list_has in Hw.
  apply list_elem_of_In, in_map_iff in Hw as (p & <- & Hp).
  apply list_elem_of_In, in_map.
  apply list_elem_of_In. rewrite SortFacts.sorted_desc_perm.
  apply list_elem_of_In, Hp.
Qed.

Lemma number_out (ws : list str) :
  forall (off : nat) (m : gmap (list ascii) Z) (w : str),
    w ∉ ws ->
    fold_left (fun m p => <[snd p := Z.of_nat (fst p) + 2]> m)
              (imap (fun i x => ((off + i)%nat, x)) ws) m !! w
    = m !! w.
Proof.
  induction ws as [|x ws IH]; intros off m w Hout; [reflexivity|].
  apply not_elem_of_cons in Hout as [Hne Hout].
  rewrite imap_cons. simpl.
  rewrite (imap_ext _ (fun i x => ((S off + i)%nat, x)))
    by (intros j y _; simpl; f_equal; lia).
  rewrite IH by exact Hout. apply lookup_insert_ne. congruence.
Qed.

Lemma number_in (ws : list str) :
  forall (off : nat) (m : gmap (list ascii) Z) (n : nat) (w : str),
    NoDup ws -> ws !! n = Some w ->
    fold_left (fun m p => <[snd p := Z.of_nat (fst p) + 2]> m)
              (imap (fun i x => ((off + i)%nat, x)) ws) m !! w
    = Some (Z.of_nat (off + n) + 2).
Proof.
  induction ws as [|x ws IH]; intros off m n w Hnd Hn; [discriminate|].
  apply NoDup_cons in Hnd as [Hx Hnd].
  rewrite imap_cons. simpl.
  rewrite (imap_ext _ (fun i x => ((S off + i)%nat, x)))
    by (intros j y _; simpl; f_equal; lia).
  destruct n as [|n]; simpl in Hn.
  - injection Hn as <-. rewrite number_out by exact Hx.
    rewrite lookup_insert_eq. reflexivity.
  - rewrite (IH (S off) _ n w Hnd Hn). do 2 f_equal. lia.
Qed.

Lemma number_some (ws : list str) :
  forall (off : nat) (m : gmap (list ascii) Z) (w : str) (i : Z),
    fold_left (fun m p => <[snd p := Z.of_nat (fst p) + 2]> m)
              (imap (fun i x => ((off + i)%nat, x)) ws) m !! w = Some i ->
    ((w ∉ ws) /\ m !! w = Some i) \/
    exists n, ws !! n = Some w /\ i = Z.of_nat (off + n) + 2.
Proof.
  induction ws as [|x ws IH]; intros off m w i H.
  - left. split; [apply not_elem_of_nil|exact H].
  - rewrite imap_cons in H. simpl in H.
    rewrite (imap_ext _ (fun i x => ((S off + i)%nat, x))) in H
      by (intros j y _; simpl; f_equal; lia).
    apply IH in H as [[Hout H]|(n & Hn & ->)].
    + destruct (decide (x = w)) as [->|Hne].
      * rewrite lookup_insert_eq in H. injection H as <-.
        right. exists O. split; [reflexivity|]. rewrite Nat.add_0_r. reflexivity.
      * rewrite lookup_insert_ne in H by exact Hne. left.
        split; [|exact H]. apply not_elem_of_cons. split; [congruence|exact Hout].
    + right. exists (S n). split; [exact Hn|]. do 2 f_equal. lia.
Qed.

(** The entries of the vocabulary: the ranked words from [2] on, then
    the two special tokens unless they are ranked words themselves. *)
Lemma create_vocab_lookup (text : str) (max_size : Z) (w : str) (i : Z) :
  create_vocab text max_size !! w = Some i <->
  (exists n, ranked text max_size !! n = Some w /\ i = Z.of_nat n + 2) \/
  ((w ∉ ranked text max_size) /\ ((w = pad /\ i = 0) \/ (w = unk /\ i = 1))).
Proof.
  unfold create_vocab, number. split.
  - intros H. apply (number_some _ O) in H as [[Hout H]|(n & Hn & ->)].
    + right. split; [exact Hout|].
      destruct (decide (w = unk)) as [->|Hu].
      * rewrite lookup_insert_eq in H. injection H as <-. auto.
      * rewrite lookup_insert_ne in H by congruence.
        destruct (decide (w = pad)) as [->|Hp].
        -- rewrite lookup_insert_eq in H. injection H as <-. auto.
        -- rewrite lookup_insert_ne, lookup_empty in H by congruence. discriminate.
    + left. exists n. auto.
  - intros [(n & Hn & ->)|[Hout Hw]].
    + rewrite (number_in _ O _ n w (ranked_NoDup text max_size) Hn). reflexivity.
    + rewrite (number_out _ O) by exact Hout.
      destruct Hw as [[-> ->]|[-> ->]].
      * rewrite lookup_insert_ne by discriminate. apply lookup_insert_eq.
      * apply lookup_insert_eq.
Qed.

Lemma sorted_lookup {A : Type} (R : A -> A -> Prop) (l : list A)
      (n1 n2 : nat) (x y : A) :
  StronglySorted R l -> l !! n1 = Some x -> l !! n2 = Some y ->
  (n1 < n2)%nat -> R x y.
Proof.
  intros Hs. revert n1 n2.
  induction Hs as [|z l Hs IH Hz]; intros n1 n2 H1 H2 Hlt; [discriminate|].
  destruct n2 as [|n2]; [lia|]. simpl in H2. destruct n1 as [|n1]; simpl in H1.
  - injection H1 as <-. rewrite Forall_forall in Hz.
    eapply Hz, list_elem_of_lookup_2, H2.
  - apply (IH n1 n2 H1 H2). lia.
Qed.

Lemma ranked_order (text : str) (max_size : Z) (n1 n2 : nat) (w1 w2 : str) :
  ranked text max_size !! n1 = Some w1 ->
  ranked text max_size !! n2 = Some w2 ->
  (n1 <= n2)%nat ->
  Counter.get (Counter.of_list (split text)) w2
  <= Counter.get (Counter.of_list (split text)) w1.
Proof.
  unfold ranked, Counter.most_common. intros H1 H2 Hle.
  set (c := Counter.of_list (split text)) in *.
  set (S := take (Z.to_nat (max_size - 2)) (Counter.sorted_desc snd c)) in *.
  change (map fst S) with (fst <$> S) in H1, H2.
  rewrite list_lookup_fmap in H1, H2.
  destruct (S !! n1) as [[k1 v1]|] eqn:E1; [|discriminate].
  destruct (S !! n2) as [[k2 v2]|] eqn:E2; [|discriminate].
  simpl in H1, H2. injection H1 as ->. injection H2 as ->.
  assert (Hin : forall n k v, S !! n = Some (k, v) -> Counter.get c k = v).
  { intros n k v Hn. apply list_elem_of_lookup_2 in Hn.
    apply subseteq_take in Hn. rewrite SortFacts.sorted_desc_perm in Hn.
    clear -Hn. pose proof (of_list_NoDup (split text)) as Hnd. fold c in Hnd.
    induction c as [|[k' v'] c' IH]; [inversion Hn|].
    simpl in Hnd. apply NoDup_cons in Hnd as [Hk Hnd]. simpl.
    apply elem_of_cons in Hn as [Heq|Hn].
    - injection Heq as <- <-. destruct (decide (k = k)); congruence.
    - destruct (decide (k' = k)) as [->|Hne]; [|apply IH; assumption].
      exfalso. apply Hk. apply list_elem_of_In, in_map_iff.
      exists (k, v). split; [reflexivity | apply list_elem_of_In, Hn]. }
  rewrite (Hin _ _ _ E1), (Hin _ _ _ E2).
  destruct (decide (n1 = n2)) as [->|Hne];
    [rewrite E1 in E2; injection E2 as _ ->; lia|].
  pose proof (SortFacts.sorted_desc_sorted snd c) as Hs.
  assert (Hst : StronglySorted (fun a b : list ascii * Z => snd b <= snd a) S).
  { unfold S. clear -Hs. revert Hs.
    generalize (Counter.sorted_desc snd c). generalize (Z.to_nat (max_size - 2)).
    intros n l Hs. revert n. induction Hs as [|x l Hs IH Hx]; intros [|n]; simpl;
      try constructor; [apply IH | apply Forall_take, Hx]. }
  apply (sorted_lookup _ S n1 n2 (w1, v1) (w2, v2) Hst E1 E2). lia.
Qed.

(** X26: the vocabulary of [create_vocab]: the words selected by
    [most_common(max_size - 2)] are numbered [2], [3], ... in that order,
    and ['<pad>'] is [0] and ['<unk>'] is [1] unless they are selected
    words themselves.  So ['<unk>'] is always a key, every number is below
    [max(2, max_size)], a word numbered [2] or more is a token of the
    text, no two words share a number, and a word never occurs more often
    in the text than a word with a smaller number of at least [2]. *)
Theorem create_vocab_entries (text : str) (max_size : Z) :
  (forall w i,
     create_vocab text max_size !! w = Some i <->
     (exists n, ranked text max_size !! n = Some w /\ i = Z.of_nat n + 2) \/
     ((w ∉ ranked text max_size) /\ ((w = pad /\ i = 0) \/ (w = unk /\ i = 1)))) /\
  is_Some (create_vocab text max_size !! unk) /\
  (forall w i, create_vocab text max_size !! w = Some i ->
     0 <= i < Z.max 2 max_size /\ (2 <= i -> w ∈ split text)) /\
  (forall w1 w2 i, create_vocab text max_size !! w1 = Some i ->
     create_vocab text max_size !! w2 = Some i -> w1 = w2) /\
  (forall w1 w2 i1 i2, create_vocab text max_size !! w1 = Some i1 ->
     create_vocab text max_size !! w2 = Some i2 -> 2 <= i1 <= i2 ->
     Z.of_nat (length (filter (fun x => x = w2) (split text)))
     <= Z.of_nat (length (filter (fun x => x = w1) (split text)))).
Proof.
  pose proof (ranked_length text max_size) as [Hlen _].
  split; [intros w i; apply create_vocab_lookup|]. split; [|split; [|split]].
  - destruct (decide (unk ∈ ranked text max_size)) as [Hin|Hout].
    + apply list_elem_of_lookup_1 in Hin as [n Hn]. eexists.
      apply create_vocab_lookup. left. exists n. split; [exact Hn|reflexivity].
    + exists 1. apply create_vocab_lookup. right. auto.
  - intros w i H. apply create_vocab_lookup in H as [(n & Hn & ->)|[_ Hw]].
    + pose proof (lookup_lt_Some _ _ _ Hn) as Hlt. split; [lia|].
      intros _. eapply ranked_tokens, list_elem_of_lookup_2, Hn.
    + destruct Hw as [[-> ->]|[-> ->]]; split; lia.
  - intros w1 w2 i H1 H2.
    apply create_vocab_lookup in H1 as [(n1 & Hn1 & E1)|[_ Hw1]];
      apply create_vocab_lookup in H2 as [(n2 & Hn2 & E2)|[_ Hw2]].
    + assert (n1 = n2) as -> by lia. congruence.
    + destruct Hw2 as [[_ ->]|[_ ->]]; lia.
    + destruct Hw1 as [[_ ->]|[_ ->]]; lia.
    + destruct Hw1 as [[-> ->]|[-> ->]]; destruct Hw2 as [[-> E]|[-> E]];
        try reflexivity; discriminate.
  - intros w1 w2 i1 i2 H1 H2 Hle. rewrite <- !of_list_count.
    apply create_vocab_lookup in H1 as [(n1 & Hn1 & ->)|[_ Hw1]];
      [|destruct Hw1 as [[_ ->]|[_ ->]]; lia].
    apply create_vocab_lookup in H2 as [(n2 & Hn2 & ->)|[_ Hw2]];
      [|destruct Hw2 as [[_ ->]|[_ ->]]; lia].
    apply (ranked_order text max_size n1 n2); [exact Hn1|exact Hn2|lia].
Qed.

Lemma create_vocab_unk (text : str) (max_size : Z) :
  is_Some (create_vocab text max_size !! unk).
Proof.
  destruct (decide (unk ∈ ranked text max_size)) as [Hin|Hout].
  - apply list_elem_of_lookup_1 in Hin as [n Hn]. eexists.
    apply create_vocab_lookup. left. exists n. split; [exact Hn|reflexivity].
  - exists 1. apply create_vocab_lookup. right. auto.
Qed.

Lemma number_size (ws : list str) :
  forall (off : nat) (m : gmap (list ascii) Z),
    NoDup ws -> (forall w, w ∈ ws -> m !! w = None) ->
    size (fold_left (fun m p => <[snd p := Z.of_nat (fst p) + 2]> m)
                    (imap (fun i x => ((off + i)%nat, x)) ws) m)
    = (size m + length ws)%nat.
Proof.
  induction ws as [|x ws IH]; intros off m Hnd Hm; [simpl; lia|].
  apply NoDup_cons in Hnd as [Hx Hnd].
  rewrite imap_cons. simpl.
  rewrite (imap_ext _ (fun i x => ((S off + i)%nat, x)))
    by (intros j y _; simpl; f_equal; lia).
  rewrite IH; [|exact Hnd|].
  - rewrite map_size_insert_None by (apply Hm; left). lia.
  - intros w Hw. rewrite lookup_insert_ne; [apply Hm; right; exact Hw|].
    intros ->. contradiction.
Qed.

Lemma mapM_total {A B : Type} (g : A -> B) (f : A -> option B) (l : list A) :
  (forall x, f x = Some (g x)) -> mapM f l = Some (map g l).
Proof.
  intros H. apply mapM_Some_2. induction l as [|x l IH]; simpl; constructor;
    [apply H|exact IH].
Qed.

(** X27: when [max_size - 2] is at least the number of different tokens,
    [preprocess] on the text with its own vocabulary returns one number
    per token, each at least [2] (no token is unknown), equal exactly
    for equal tokens; and when neither ['<pad>'] nor ['<unk>'] is a token
    of the text, every number is below [len(vocab)]. *)
Theorem preprocess_encoding (text : str) (max_size : Z) :
  Z.of_nat (length (Counter.of_list (split text))) <= max_size - 2 ->
  exists ids,
    preprocess text (create_vocab text max_size) = Some ids /\
    length ids = length (split text) /\
    Forall (fun id => 2 <= id) ids /\
    (forall j k tj tk idj idk,
       split text !! j = Some tj -> split text !! k = Some tk ->
       ids !! j = Some idj -> ids !! k = Some idk ->
       (idj = idk <-> tj = tk)) /\
    ((pad ∉ split text) -> (unk ∉ split text) ->
     Forall (fun id => id < Z.of_nat (size (create_vocab text max_size))) ids).
Proof.
  intros Hroom.
  assert (Htok : forall t, t ∈ split text ->
            exists n, ranked text max_size !! n = Some t /\
                      create_vocab text max_size !! t = Some (Z.of_nat n + 2)).
  { intros t Ht. apply (ranked_all text max_size t Hroom) in Ht.
    apply list_elem_of_lookup_1 in Ht as [n Hn]. exists n. split; [exact Hn|].
    apply create_vocab_lookup. left. exists n. auto. }
  destruct (create_vocab_unk text max_size) as [u Hu].
  set (g := fun t => default u (create_vocab text max_size !! t)).
  assert (Hpre : preprocess text (create_vocab text max_size)
                 = Some (map g (split text))).
  { unfold preprocess. apply mapM_total. intros t. rewrite Hu. reflexivity. }
  assert (Hid : forall j t id, split text !! j = Some t ->
            map g (split text) !! j = Some id ->
            exists n, ranked text max_size !! n = Some t /\ id = Z.of_nat n + 2).
  { intros j t id Ht Hj.
    change (map g (split text)) with (g <$> split text) in Hj.
    rewrite list_lookup_fmap, Ht in Hj. simpl in Hj. injection Hj as <-.
    destruct (Htok t (list_elem_of_lookup_2 _ _ _ Ht)) as (n & Hn & Hv).
    exists n. split; [exact Hn|]. unfold g. rewrite Hv. reflexivity. }
  exists (map g (split text)). split; [exact Hpre|].
  split; [apply length_map|]. split; [|split].
  - apply Forall_forall. intros id Hin.
    apply list_elem_of_lookup_1 in Hin as [j Hj].
    destruct (split text !! j) as [t|] eqn:Et.
    + destruct (Hid j t id Et Hj) as (n & _ & ->). lia.
    + change (map g (split text)) with (g <$> split text) in Hj.
      rewrite list_lookup_fmap, Et in Hj. discriminate.
  - intros j k tj tk idj idk Htj Htk Hj Hk.
    destruct (Hid j tj idj Htj Hj) as (nj & Hnj & ->).
    destruct (Hid k tk idk Htk Hk) as (nk & Hnk & ->).
    split.
    + intros Heq. assert (nj = nk) as -> by lia. congruence.
    + intros <-. f_equal. f_equal.
      apply (NoDup_lookup _ _ _ tj (ranked_NoDup text max_size) Hnj Hnk).
  - intros Hp Hunk.
    assert (Hsize : size (create_vocab text max_size)
                    = (2 + length (ranked text max_size))%nat).
    { unfold create_vocab, number.
      rewrite (number_size _ O); [|apply ranked_NoDup|].
      - rewrite map_size_insert_None
          by (rewrite lookup_insert_ne, lookup_empty by discriminate; reflexivity).
        rewrite map_size_insert_None by apply lookup_empty.
        rewrite map_size_empty. reflexivity.
      - intros w Hw. apply ranked_tokens in Hw.
        rewrite !lookup_insert_ne, lookup_empty; [reflexivity| |];
          intros <-; contradiction. }
    apply Forall_forall. intros id Hin.
    apply list_elem_of_lookup_1 in Hin as [j Hj].
    destruct (split text !! j) as [t|] eqn:Et.
    + destruct (Hid j t id Et Hj) as (n & Hn & ->).
      apply lookup_lt_Some in Hn. lia.
    + change (map g (split text)) with (g <$> split text) in Hj.
      rewrite list_lookup_fmap, Et in Hj. discriminate.
Qed.

Lemma tensor_some (n x : Z) :
  tensor n = Some x <-> x = n /\ - 2 ^ 63 <= n < 2 ^ 63.
Proof.
  unfold tensor.
  destruct (- 2 ^ 63 <=? n) eqn:E1; destruct (n <? 2 ^ 63) eqn:E2; simpl;
    try apply Z.leb_le in E1; try apply Z.leb_gt in E1;
    try apply Z.ltb_lt in E2; try apply Z.ltb_ge in E2;
    (split; [intros [= <-] | intros [-> H]]); try split; try reflexivity;
    try discriminate; lia.
Qed.

(** X28: the indices of [TextDataset]: for an index that is not
    negative, [__getitem__] returns exactly when the index is below
    [__len__] and the id at the index and the id that follows it are in
    the range of int64, and it returns these two ids. *)
Theorem dataset_indices (data : list Z) (idx : Z) :
  0 <= idx ->
  (is_Some (dataset_getitem data idx) <->
   idx < dataset_len data /\
   forall j x, j = Z.to_nat idx \/ j = S (Z.to_nat idx) ->
               nth_error data j = Some x -> - 2 ^ 63 <= x < 2 ^ 63) /\
  (forall x y, dataset_getitem data idx = Some (x, y) ->
     nth_error data (Z.to_nat idx) = Some x /\
     nth_error data (S (Z.to_nat idx)) = Some y).
Proof.
  intros Hidx. assert (Hn : exists n, idx = Z.of_nat n)
    by (exists (Z.to_nat idx); lia).
  destruct Hn as [n ->]. rewrite Nat2Z.id.
  unfold dataset_getitem, dataset_len.
  replace (Z.of_nat n + 1) with (Z.of_nat (S n)) by lia.
  rewrite !StoreProofs.getitem_of_nat.
  destruct (nth_error data n) as [a|] eqn:E1.
  2:{ split; [|discriminate]. split; [intros [? H]; discriminate|].
      intros [Hlt _]. apply nth_error_None in E1. lia. }
  destruct (tensor a) as [x|] eqn:Ta.
  2:{ split; [|discriminate]. split; [intros [? H]; discriminate|].
      intros [_ Hr]. specialize (Hr n a (or_introl eq_refl) E1).
      assert (H : tensor a = Some a) by (apply tensor_some; auto).
      congruence. }
  apply tensor_some in Ta as [-> Ha].
  destruct (nth_error data (S n)) as [b|] eqn:E2.
  2:{ split; [|discriminate]. split; [intros [? H]; discriminate|].
      intros [Hlt _]. apply nth_error_None in E2. lia. }
  destruct (tensor b) as [y|] eqn:Tb.
  2:{ split; [|discriminate]. split; [intros [? H]; discriminate|].
      intros [_ Hr]. specialize (Hr (S n) b (or_intror eq_refl) E2).
      assert (H : tensor b = Some b) by (apply tensor_some; auto).
      congruence. }
  apply tensor_some in Tb as [-> Hb].
  split.
  - split; [|intros _; eexists; reflexivity]. intros _. split.
    + assert (H : nth_error data (S n) <> None) by congruence.
      apply nth_error_Some in H. lia.
    + intros j x0 [->| ->] Hj; congruence.
  - intros x0 y0 [= <- <-]. auto.
Qed.

End DataProofs.

(* ===================================================================== *)
(** * The edges of the view, told by its nodes                             *)
(* ===================================================================== *)

Module EdgeProofs.
Import Py KnowledgeGraphBuilder Vocabulary GraphProofs GraphInvariants.
Import InvariantProofs ViewTerms ViewProofs.

(** An assignment to other keys leaves the index of [a] alone. *)
Lemma index_other (a : str) (l : list (nat * list ascii)) :
  forall m : gmap (list ascii) Z,
    Forall (fun p => snd p <> a) l ->
    fold_left (fun m p => <[snd p := Z.of_nat (fst p)]> m) l m !! a = m !! a.
Proof.
  induction l as [|p l IH]; intros m Hl; [reflexivity|].
  apply Forall_cons in Hl as [Hp Hl]. simpl.
  rewrite IH by exact Hl. apply lookup_insert_ne, Hp.
Qed.

(** Line 109, the other way round: when no entity is selected twice, the
    entity at position [n] is given the index [n]. *)
Lemma index_from_at (l : list str) :
  forall (off : nat) (m : gmap (list ascii) Z) (a : str) (n : nat),
    NoDup l -> l !! n = Some a ->
    fold_left (fun m p => <[snd p := Z.of_nat (fst p)]> m)
              (imap (fun i e => ((off + i)%nat, e)) l) m !! a
    = Some (Z.of_nat (off + n)).
Proof.
  induction l as [|x l IH]; intros off m a n Hnd Hn; [discriminate|].
  apply NoDup_cons in Hnd as [Hx Hnd].
  rewrite imap_cons. simpl.
  rewrite (imap_ext _ (fun i e => ((S off + i)%nat, e)))
    by (intros j y _; simpl; f_equal; lia).
  destruct n as [|n]; simpl in Hn.
  - injection Hn as ->. rewrite index_other; [apply lookup_insert_eq|].
    apply Forall_forall. intros p Hp.
    apply list_elem_of_lookup_1 in Hp as [j Hj].
    rewrite list_lookup_imap in Hj.
    destruct (l !! j) as [y|] eqn:Ey; [|discriminate].
    simpl in Hj. injection Hj as <-. simpl. intros ->.
    apply Hx. eapply list_elem_of_lookup_2, Ey.
  - rewrite (IH (S off) _ a n Hnd Hn). f_equal. lia.
Qed.

Lemma index_entities_at (top : list str) (a : str) (n : nat) :
  NoDup top -> top !! n = Some a ->
  index_entities top !! a = Some (Z.of_nat n).
Proof. intros Hnd Hn. apply (index_from_at top O ∅ a n Hnd Hn). Qed.

(** The table of line 109 and the nodes of the view say the same: the
    index of an entity is the id of the node that carries it. *)
Lemma index_is_node (self : t) (v : view) (nodes : list node)
      (a : str) (i : Z) :
  NoDup (map fst (entity_frequencies self)) ->
  build_graph self = Some v ->
  nodes_of v nodes ->
  (index_entities (top_entities self) !! a = Some i <-> node_for nodes a i).
Proof.
  intros Hnd Hb Hn.
  destruct (build_graph_node_at self v nodes Hb Hn) as [Hlen Hat].
  split.
  - intros H. apply index_entities_lookup in H as (n & -> & Ht).
    assert (Hs : is_Some (nodes !! n)).
    { apply lookup_lt_is_Some. rewrite Hlen. eapply lookup_lt_Some, Ht. }
    destruct Hs as [nd Hnd'].
    destruct (Hat n nd Hnd') as (e & He & Hm).
    apply make_node_fields in Hm as (Hid & Hl & _).
    exists nd. split; [eapply list_elem_of_lookup_2, Hnd'|].
    split; [congruence | exact Hid].
  - intros (nd & Hin & Hl & Hid).
    apply list_elem_of_lookup_1 in Hin as [n Hn'].
    destruct (Hat n nd Hn') as (e & He & Hm).
    apply make_node_fields in Hm as (Hid' & Hl' & _).
    rewrite <- Hid, Hid'. apply index_entities_at.
    + apply top_entities_NoDup, Hnd.
    + congruence.
Qed.

(** The edges are made in the order of the triples they stand for. *)
Lemma fold_add_edge_sublist (idx : gmap (list ascii) Z)
      (rels : list (list ascii * list ascii * Z)) :
  forall acc : list edge * gset (Z * Z),
  exists added,
    (fold_left (add_edge idx) rels acc).1 = acc.1 ++ added /\
    sublist added (candidates idx rels).
Proof.
  induction rels as [|r rels IH]; intros acc.
  - exists []. simpl. rewrite app_nil_r. split; [reflexivity|constructor].
  - simpl. rewrite add_edge_candidate. unfold candidates. simpl.
    destruct (candidate idx r) as [c|] eqn:Ec.
    + destruct (decide (key_of c ∈ acc.2)) as [Hin|Hnin].
      * destruct (IH acc) as (added & Hf & Hs).
        exists added. split; [exact Hf|]. apply sublist_cons, Hs.
      * destruct (IH (acc.1 ++ [c], acc.2 ∪ {[key_of c]})) as (added & Hf & Hs).
        exists (c :: added). split.
        -- rewrite Hf. simpl. rewrite <- app_assoc. reflexivity.
        -- apply sublist_skip, Hs.
    + apply IH.
Qed.

Lemma sublist_omap_origin {A B : Type} (f : A -> option B) (l : list A) :
  forall es : list B,
    sublist es (omap f l) ->
    exists kept, sublist kept l /\ Forall2 (fun x e => f x = Some e) kept es.
Proof.
  induction l as [|x l IH]; intros es Hs; simpl in Hs.
  - apply sublist_nil_r in Hs as ->. exists []. split; constructor.
  - destruct (f x) as [b|] eqn:E.
    + apply sublist_cons_r in Hs as [Hs|(es' & -> & Hs)].
      * destruct (IH es Hs) as (kept & Hk & HF).
        exists kept. split; [apply sublist_cons, Hk | exact HF].
      * destruct (IH es' Hs) as (kept & Hk & HF).
        exists (x :: kept). split; [apply sublist_skip, Hk|].
        constructor; assumption.
    + destruct (IH es Hs) as (kept & Hk & HF).
      exists kept. split; [apply sublist_cons, Hk | exact HF].
Qed.

(** The edges of a view, told by its nodes and by the relationships. *)
Lemma build_graph_edges_first (g : t) (v : view) (nodes : list node)
      (es : list edge) :
  NoDup (map fst (entity_frequencies g)) ->
  build_graph g = Some v -> nodes_of v nodes -> edges_of v es ->
  NoDup (map key_of es) /\
  (exists kept, sublist kept (relationships g) /\
                Forall2 (drawn nodes) kept es) /\
  (forall e, e ∈ es ->
     exists pre a b post,
       relationships g = pre ++ (a, b, e_weight e) :: post /\
       node_for nodes a (e_source e) /\ node_for nodes b (e_target e) /\
       1 <= e_weight e /\
       forall r, r ∈ pre -> joins a b r -> r.2 < 1) /\
  (forall a b w i j,
     (a, b, w) ∈ relationships g -> 1 <= w ->
     node_for nodes a i -> node_for nodes b j ->
     exists e, e ∈ es /\ key_of e = edge_key i j).
Proof.
  intros Hnd Hb Hn He.
  pose proof (fun a i => index_is_node g v nodes a i Hnd Hb Hn) as Hidx.
  rewrite (build_graph_edges g v es Hb He).
  set (idx := index_entities (top_entities g)) in *.
  destruct (make_edges_first idx (relationships g)) as (Hkeys & _ & Hall).
  split; [exact Hkeys|]. split; [|split].
  - destruct (fold_add_edge_sublist idx (relationships g) ([], ∅))
      as (added & Hf & Hs).
    simpl in Hf. unfold make_edges. rewrite Hf.
    destruct (sublist_omap_origin _ _ _ Hs) as (kept & Hk & HF).
    exists kept. split; [exact Hk|].
    eapply Forall2_impl; [exact HF|].
    intros r e Hc. apply candidate_inv in Hc as (Ha & Hb' & Hw & _).
    split; [apply Hidx, Ha|]. split; [apply Hidx, Hb' | exact Hw].
  - intros e Hin.
    destruct (make_edges_origin _ _ _ Hin)
      as (pre & [[a b] w] & post & Hrel & Hc & Hfirst).
    pose proof Hc as Hc'.
    apply candidate_inv in Hc' as (Ha & Hb' & Hw & Hw1). simpl in *.
    exists pre, a, b, post. rewrite Hw.
    split; [exact Hrel|]. split; [apply Hidx, Ha|].
    split; [apply Hidx, Hb'|]. split; [exact Hw1|].
    intros [[x y] w'] Hr Hj.
    destruct (Z.lt_ge_cases w' 1) as [Hlt|Hge]; [exact Hlt|]. exfalso.
    assert (Hk : exists c, candidate idx (x, y, w') = Some c /\
                           key_of c = key_of e).
    { unfold candidate, key_of. simpl.
      destruct Hj as [[Hx Hy]|[Hx Hy]]; simpl in Hx, Hy; subst x y;
        rewrite Ha, Hb'; (destruct (decide (1 ≤ w')); [|lia]);
        eexists; (split; [reflexivity|]); simpl;
        [reflexivity | apply edge_key_swap]. }
    destruct Hk as (c & Hcand & Hkey).
    exact (Hfirst _ c Hr Hcand Hkey).
  - intros a b w i j Hr Hw Hi Hj.
    apply Hidx in Hi, Hj.
    destruct (Hall {| e_source := i; e_target := j; e_weight := w |})
      as (e & Hin & Hkey).
    { apply list_elem_of_omap. exists (a, b, w). split; [exact Hr|].
      unfold candidate. simpl. rewrite Hi, Hj.
      destruct (decide (1 ≤ w)); [reflexivity|lia]. }
    exists e. split; [exact Hin | exact Hkey].
Qed.

(** A view has a list of nodes and a list of edges. *)
Lemma build_graph_lists (g : t) (v : view) :
  build_graph g = Some v ->
  exists nodes es, nodes_of v nodes /\ edges_of v es.
Proof.
  unfold build_graph, nodes_of, edges_of.
  destruct (top_entities g) as [|e top].
  - intros [= <-]. exists [], []. split; [left | right; left]; reflexivity.
  - destruct (mapM _ _) as [nodes|]; [|discriminate].
    intros [= <-]. eexists. eexists.
    split; [left | right; left]; reflexivity.
Qed.

Section AddDocument.
Variable set_iter : gset (list ascii) -> list (list ascii).
Hypothesis set_iter_perm : forall X, set_iter X ≡ₚ elements X.

(** A builder fed from the start has every entity once in its counter,
    and has a view. *)
Lemma ingest_view (docs : list (list ascii * list ascii * list str)) :
  NoDup (map fst (entity_frequencies (ingest set_iter init docs))) /\
  exists v nodes es,
    build_graph (ingest set_iter init docs) = Some v /\
    nodes_of v nodes /\ edges_of v es.
Proof using set_iter_perm.
  destruct init_invariants as [Ht Hs].
  destruct (ingest_invariants set_iter set_iter_perm docs init Ht Hs)
    as [(Hnd & _) _].
  split; [exact Hnd|].
  destruct (ingest_build_graph set_iter set_iter_perm docs) as [v Hv].
  destruct (build_graph_lists _ v Hv) as (nodes & es & Hn & He).
  exists v, nodes, es. auto.
Qed.

(** C7: [add_document] appends to [relationships] and changes none of the
    triples that were there; the triples it appends are one for every
    unordered pair of different entities of the document, each weighted by
    the number of documents that the two entities share once the document
    is counted, which is at least 1, whether or not the pair was joined
    before.  In the view of [build_graph], for a builder whose counter
    has every entity once: no two edges are on the same unordered pair of
    nodes; the edges stand, in the order of [relationships], for triples
    whose two entities have nodes, from the node of the first entity to
    the node of the second, with the weight of the triple; the triple of
    an edge is the first triple of weight at least 1 that joins its two
    entities; and every triple of weight at least 1 whose two entities
    have nodes has an edge on the pair of these nodes.  A builder fed
    from the start is such a builder and has a view. *)
Theorem add_document_relationships
        (self : t) (doc_id text : str) (chunks : list str) :
  (exists new,
    relationships (add_document set_iter self doc_id text chunks) =
    relationships self ++ new /\
    (forall a b w, (a, b, w) ∈ new ->
       a ∈ _extract_entities text /\ b ∈ _extract_entities text /\ a <> b /\
       w = Z.of_nat (size (docs_of (add_document set_iter self doc_id text chunks) a
                           ∩ docs_of (add_document set_iter self doc_id text chunks) b)) /\
       doc_id ∈ docs_of (add_document set_iter self doc_id text chunks) a
                ∩ docs_of (add_document set_iter self doc_id text chunks) b /\
       1 <= w) /\
    (forall a b, a ∈ _extract_entities text -> b ∈ _extract_entities text ->
       a <> b -> length (filter (joins a b) new) = 1%nat)) /\
  (forall (g : t) (v : view) (nodes : list node) (es : list edge),
     NoDup (map fst (entity_frequencies g)) ->
     build_graph g = Some v -> nodes_of v nodes -> edges_of v es ->
     NoDup (map key_of es) /\
     (exists kept, sublist kept (relationships g) /\
                   Forall2 (drawn nodes) kept es) /\
     (forall e, e ∈ es ->
        exists pre a b post,
          relationships g = pre ++ (a, b, e_weight e) :: post /\
          node_for nodes a (e_source e) /\ node_for nodes b (e_target e) /\
          1 <= e_weight e /\
          forall r, r ∈ pre -> joins a b r -> r.2 < 1) /\
     (forall a b w i j,
        (a, b, w) ∈ relationships g -> 1 <= w ->
        node_for nodes a i -> node_for nodes b j ->
        exists e, e ∈ es /\ key_of e = edge_key i j)) /\
  (forall docs : list (list ascii * list ascii * list str),
     NoDup (map fst (entity_frequencies (ingest set_iter init docs))) /\
     exists v nodes es,
       build_graph (ingest set_iter init docs) = Some v /\
       nodes_of v nodes /\ edges_of v es).
Proof using set_iter_perm.
  split; [apply add_document_triples, set_iter_perm|]. split.
  - intros g v nodes es. apply build_graph_edges_first.
  - apply ingest_view.
Qed.

End AddDocument.
End EdgeProofs.


(* ===================================================================== *)
(** * The statements at work on the scenarios                              *)
(* ===================================================================== *)

Module Scenarios.
Import Py.

(** The statement of C2 at the bound, [chunk_size = 10] and
    [chunk_overlap = 6], on a text whose first window is snapped back to
    the terminator at index 6: the next window starts at 1, and the loop
    ends. *)
Lemma chunk_text_progress_terminates_witness :
  let self := {| RAGEngine.chunk_size := 10; RAGEngine.chunk_overlap := 6 |} in
  let text := lit "aaaaaa. aaaaaaaaaaaa" in
  (RAGEngine.chunk_overlap self < RAGEngine.chunk_size self) /\
  (2 * RAGEngine.chunk_overlap self <= RAGEngine.chunk_size self + 2) /\
  RAGEngine.window_end self (RAGEngine.clean text) 0 = 7 /\
  RAGEngine.next_start self (RAGEngine.clean text) 0 = 1 /\
  (forall start,
     start < RAGEngine.next_start self (RAGEngine.clean text) start) /\
  exists chunks, forall fuel,
    (length (RAGEngine.clean text) <= fuel)%nat ->
    RAGEngine.chunk_text fuel self text = Some chunks.
Proof.
  intros self text.
  assert (H1 : RAGEngine.chunk_overlap self < RAGEngine.chunk_size self)
    by reflexivity.
  assert (H2 : 2 * RAGEngine.chunk_overlap self
               <= RAGEngine.chunk_size self + 2)
    by (vm_compute; discriminate).
  split; [exact H1|]. split; [exact H2|].
  split; [vm_compute; reflexivity|]. split; [vm_compute; reflexivity|].
  exact (ChunkerProofs.chunk_text_progress_terminates self text H1 H2).
Defined.

Section Store.
Import VectorStore StoreVocabulary.

(** The sample store satisfies the invariant. *)
Lemma sample_store_well_formed : well_formed sample_store.
Proof. split; reflexivity. Defined.



(** The statement of C4 on the sample store: the passages of document
    [A] go, the passage of [B] stays. *)
Lemma delete_document_spec_witness :
  well_formed sample_store /\
  Exists (owned_by (lit "A")) (chunks_metadata sample_store) /\
  exists self',
    delete_document unit_encoder sample_store (lit "A") = Some self' /\
    passages self' = [(lit "y", tag "B")] /\
    get_size self' = 1.
Proof.
  assert (Hex : Exists (owned_by (lit "A")) (chunks_metadata sample_store))
    by (apply Exists_cons_hd; vm_compute; reflexivity).
  split; [exact sample_store_well_formed|]. split; [exact Hex|].
  destruct (StoreProofs.delete_document_spec (lit "A") unit_encoder sample_store)
    as (_ & H & _).
  destruct (H sample_store_well_formed (fun _ => eq_refl) Hex)
    as (self' & Hd & Hp & _ & _ & Hs & _).
  exists self'. split; [exact Hd|]. split.
  - rewrite Hp. vm_compute. reflexivity.
  - rewrite Hs. vm_compute. reflexivity.
Defined.

End Store.

Section Graph.
Import KnowledgeGraphBuilder Vocabulary ViewTerms.

(** [in_order] is an order of iteration. *)
Lemma in_order_perm (X : gset (list ascii)) : in_order X ≡ₚ elements X.
Proof. reflexivity. Defined.

(** The statement of C7 on the scenario: the triples of the first
    document, the triple that the second document appends for a pair that
    was joined before, and the edges of the view, where the later triple
    of that pair has no edge of its own. *)
Lemma add_document_relationships_witness :
  let first := add_document in_order init (lit "A") doc_a [doc_a] in
  (forall X, in_order X ≡ₚ elements X) /\
  relationships first
  = [(lit "Paris", lit "Alice", 1); (lit "Paris", lit "Bob", 1);
     (lit "Alice", lit "Bob", 1)] /\
  (exists new,
     relationships (add_document in_order first (lit "B") doc_b [doc_b])
     = relationships first ++ new /\
     new = [(lit "Paris", lit "Bob", 2)] /\
     length (filter (joins (lit "Bob") (lit "Paris")) new) = 1%nat) /\
  exists v nodes es,
    build_graph scenario_graph = Some v /\
    nodes_of v nodes /\ edges_of v es /\
    map (fun n => (n_id n, n_label n)) nodes
    = [(0, lit "Paris"); (1, lit "Bob"); (2, lit "Alice")] /\
    es = [{| e_source := 0; e_target := 2; e_weight := 1 |};
          {| e_source := 0; e_target := 1; e_weight := 1 |};
          {| e_source := 2; e_target := 1; e_weight := 1 |}] /\
    NoDup (map key_of es) /\
    exists e, e ∈ es /\ key_of e = edge_key 0 1.
Proof.
  intros first. split; [exact in_order_perm|].
  split; [vm_compute; reflexivity|].
  destruct (EdgeProofs.add_document_relationships in_order in_order_perm
              first (lit "B") doc_b [doc_b]) as ((new & Hr & _ & Hone) & Hview & Hfed).
  split.
  - exists new. split; [exact Hr|].
    assert (Hnew : new = [(lit "Paris", lit "Bob", 2)]).
    { apply (app_inv_head (relationships first)). rewrite <- Hr.
      vm_compute. reflexivity. }
    split; [exact Hnew|]. apply Hone.
    + apply elem_of_union_l, elem_of_list_to_set, list_elem_of_In.
      vm_compute. auto.
    + apply elem_of_union_l, elem_of_list_to_set, list_elem_of_In.
      vm_compute. auto.
    + discriminate.
  - destruct (Hfed scenario) as (Hnd & _). fold scenario_graph in Hnd.
    destruct (build_graph scenario_graph) as [v|] eqn:Hb;
      [|vm_compute in Hb; discriminate].
    pose proof Hb as E. vm_compute in E. injection E as <-.
    eexists. eexists. eexists.
    split; [reflexivity|].
    assert (Hn : forall nodes es more,
              nodes_of (("nodes"%string, Nodes nodes)
                          :: ("edges"%string, Edges es) :: more) nodes /\
              edges_of (("nodes"%string, Nodes nodes)
                          :: ("edges"%string, Edges es) :: more) es).
    { intros nodes es more. split; [left | right; left]; reflexivity. }
    split; [apply Hn|]. split; [apply Hn|].
    split; [reflexivity|]. split; [reflexivity|].
    destruct (Hview scenario_graph _ _ _ Hnd Hb (proj1 (Hn _ _ _)) (proj2 (Hn _ _ _)))
      as (Hkeys & _ & _ & Hall).
    split; [exact Hkeys|].
    apply (Hall (lit "Paris") (lit "Bob") 2 0 1).
    + vm_compute. right. right. right. left.
    + lia.
    + eexists. split; [left|]. split; reflexivity.
    + eexists. split; [right; left|]. split; reflexivity.
Defined.

(** The two documents of the scenario have different ids. *)
Lemma scenario_ids_distinct : NoDup (map (fun d => d.1.1) scenario).
Proof.
  apply NoDup_cons. split.
  - intros H. apply list_elem_of_singleton in H. discriminate.
  - apply NoDup_singleton.
Defined.

(** The statement of C8 on the scenario: [Bob] is in both documents,
    [Alice] in one. *)
Lemma entity_frequency_counts_witness :
  (forall X, in_order X ≡ₚ elements X) /\
  NoDup (map (fun d => d.1.1) scenario) /\
  Counter.get (entity_frequencies scenario_graph) (lit "Bob") = 2 /\
  Counter.get (entity_frequencies scenario_graph) (lit "Alice") = 1.
Proof.
  split; [exact in_order_perm|]. split; [exact scenario_ids_distinct|].
  destruct (GraphProofs.entity_frequency_counts in_order in_order_perm)
    as [_ H].
  split.
  - destruct (H scenario (lit "Bob") scenario_ids_distinct) as [-> _].
    vm_compute. reflexivity.
  - destruct (H scenario (lit "Alice") scenario_ids_distinct) as [-> _].
    vm_compute. reflexivity.
Defined.

(** The statement of C9 on the scenario, for an entity that is not
    tracked and for one that three triples name, two of them with the
    same other entity. *)
Lemma get_entity_details_spec_witness :
  (forall X, in_order X ≡ₚ elements X) /\
  get_entity_details in_order scenario_graph (lit "Zed") = None /\
  relationships scenario_graph
  = [(lit "Paris", lit "Alice", 1); (lit "Paris", lit "Bob", 1);
     (lit "Alice", lit "Bob", 1); (lit "Paris", lit "Bob", 2)] /\
  exists det rows,
    get_entity_details in_order scenario_graph (lit "Bob") = Some det /\
    det_frequency det = 2 /\
    det_related det = firstn 5 rows /\
    det_related det
    = [(lit "Paris", 2); (lit "Paris", 1); (lit "Alice", 1)] /\
    (lit "Paris", 2) ∈ rows /\ (lit "Paris", 1) ∈ rows /\
    (lit "Alice", 1) ∈ rows.
Proof.
  split; [exact in_order_perm|]. split; [|split; [vm_compute; reflexivity|]].
  - apply (GraphProofs.get_entity_details_spec in_order in_order_perm
             scenario_graph (lit "Zed")).
    vm_compute. reflexivity.
  - destruct (entities scenario_graph !! lit "Bob") as [doc_ids|] eqn:E;
      [|vm_compute in E; discriminate].
    destruct (proj2 (GraphProofs.get_entity_details_spec in_order in_order_perm
                       scenario_graph (lit "Bob")) doc_ids E)
      as (det & unsorted & rows & Hd & _ & Hf & _ & _ & _ & _ & Hr & _ & _ & Hin).
    exists det, rows. split; [exact Hd|].
    split; [rewrite Hf; vm_compute; reflexivity|]. split; [exact Hr|].
    split.
    { assert (Hc : option_map det_related
                     (get_entity_details in_order scenario_graph (lit "Bob"))
                   = Some [(lit "Paris", 2); (lit "Paris", 1); (lit "Alice", 1)])
        by (vm_compute; reflexivity).
      rewrite Hd in Hc. injection Hc as Hc. exact Hc. }
    split; [|split]; apply Hin; vm_compute.
    + right. right. right. left.
    + right. left.
    + right. right. left.
Defined.
(** The statement of C10 on the scenario. *)
Lemma nodes_are_proper_nouns_witness :
  (forall X, in_order X ≡ₚ elements X) /\
  exists v, build_graph scenario_graph = Some v /\
    forall nodes, In ("nodes"%string, Nodes nodes) v ->
      Forall (fun n => n_type n = "Proper Noun"%string) nodes.
Proof.
  split; [exact in_order_perm|].
  exact (proj2 (GraphProofs.nodes_are_proper_nouns in_order in_order_perm)
               scenario).
Defined.

End Graph.

End Scenarios.
(* ===================================================================== *)
(** * The further statements at work on the scenarios                      *)
(* ===================================================================== *)

Module MoreScenarios.
Import Py.

Section Chunker.
Import RAGEngine ChunkerVocabulary CleanVocabulary Cases.

(** The statement of X1 for short chunks over the second document. *)
Lemma chunk_text_chunks_shape_witness :
  exists chunks,
    chunk_text 40 short_engine Vocabulary.doc_b = Some chunks /\
    (1 < length chunks)%nat /\
    Forall (good_chunk short_engine (clean Vocabulary.doc_b)) chunks.
Proof.
  destruct (chunk_text 40 short_engine Vocabulary.doc_b) as [chunks|] eqn:E;
    [|vm_compute in E; discriminate].
  exists chunks. split; [reflexivity|]. split.
  - vm_compute in E. injection E as <-. simpl. lia.
  - exact (ChunkerExtras.chunk_text_chunks_shape 40 short_engine
             Vocabulary.doc_b chunks E).
Defined.

(** The statement of X3 on a blank text and on the second document. *)
Lemma chunk_text_blank_witness :
  blank (lit "  ") /\
  (forall fuel, chunk_text fuel init (lit "  ") = Some []) /\
  ~ blank Vocabulary.doc_b /\
  (forall fuel chunks,
     chunk_text fuel init Vocabulary.doc_b = Some chunks -> chunks <> []).
Proof.
  assert (Hb : blank (lit "  ")) by (repeat constructor).
  assert (Hn : ~ blank Vocabulary.doc_b).
  { intros H. apply Forall_inv in H. vm_compute in H. discriminate. }
  split; [exact Hb|]. split.
  - exact (proj1 (CoverExtras.chunk_text_blank init (lit "  ")) Hb).
  - split; [exact Hn|].
    apply (proj2 (CoverExtras.chunk_text_blank init Vocabulary.doc_b) Hn).
    vm_compute. discriminate.
Defined.

(** The statement of X4 for short chunks over the second document. *)
Lemma chunk_text_covers_witness :
  exists chunks,
    chunk_text 40 short_engine Vocabulary.doc_b = Some chunks /\
    forall i c, nth_error (clean Vocabulary.doc_b) i = Some c ->
                isspace c = false ->
                covered (clean Vocabulary.doc_b) chunks i.
Proof.
  apply (CoverExtras.chunk_text_covers short_engine Vocabulary.doc_b 40).
  - vm_compute. split; [discriminate|reflexivity].
  - vm_compute. discriminate.
  - vm_compute. lia.
Defined.

End Chunker.

Section Store.
Import VectorStore StoreVocabulary StoreTerms Cases.

(** A tag of another document. *)
Lemma tag_not_owned (a b : string) :
  lit a <> lit b -> ~ owned_by (lit a) (tag b).
Proof.
  intros Hne Ho. unfold owned_by, tag in Ho.
  rewrite lookup_singleton_eq in Ho. injection Ho as Ho. congruence.
Defined.


(** The statement of X6 on the sample store. *)
Lemma delete_document_twice_witness :
  exists self',
    delete_document unit_encoder sample_store (lit "A") = Some self' /\
    delete_document unit_encoder self' (lit "A") = Some self'.
Proof.
  destruct (StoreExtras.delete_document_twice unit_encoder (lit "A") sample_store
              Scenarios.sample_store_well_formed (fun _ => eq_refl)) as (self' & H1 & _ & H2).
  exists self'. split; [exact H1|exact H2].
Defined.


(** The statement of X7 on the sample store, for a document [C]. *)
Lemma add_then_delete_witness :
  exists self1 ids self2,
    add_chunks unit_encoder sample_store [lit "w"] [tag "C"] None
    = Some (self1, ids) /\
    delete_document unit_encoder self1 (lit "C") = Some self2 /\
    passages self2 = passages sample_store.
Proof.
  destruct (add_chunks unit_encoder sample_store [lit "w"] [tag "C"] None)
    as [[self1 ids]|] eqn:E; [|vm_compute in E; discriminate].
  destruct (StoreExtras.add_then_delete unit_encoder (lit "C") sample_store self1
              [lit "w"] [tag "C"] None ids Scenarios.sample_store_well_formed (fun _ => eq_refl))
    as (self2 & Hd & Hp & _).
  - repeat (apply Forall_cons; split; [apply tag_not_owned; discriminate|]).
    apply Forall_nil_2.
  - apply Forall_cons. split; [reflexivity|apply Forall_nil_2].
  - reflexivity.
  - intros e He. discriminate He.
  - intros _. discriminate.
  - exact E.
  - exists self1, ids, self2. split; [reflexivity|]. split; [exact Hd|exact Hp].
Defined.


End Store.

Section Graph.
Import KnowledgeGraphBuilder Vocabulary GraphInvariants ViewTerms RegexTerms.

(** [Alice] is an entity of the first document. *)
Lemma alice_extracted : lit "Alice" ∈ _extract_entities doc_a.
Proof.
  unfold _extract_entities. apply elem_of_union_l, elem_of_list_to_set.
  apply list_elem_of_In. vm_compute. auto.
Defined.

(** The statement of X14 for [Alice] in the first document. *)
Lemma extract_entities_shape_witness :
  lit "Alice" ∈ _extract_entities doc_a /\
  3 <= len (lit "Alice") /\
  (lower (lit "Alice") ∉ stopwords) /\
  Forall (fun c => letter_or_space c = true) (lit "Alice").
Proof.
  split; [exact alice_extracted|].
  exact (EntityExtras.extract_entities_shape doc_a (lit "Alice") alice_extracted).
Defined.

(** The statement of X15 on the scenario. *)
Lemma ingest_tables_agree_witness :
  tables_agree scenario_graph /\
  get_node_count scenario_graph
  = Z.of_nat (length (entity_frequencies scenario_graph)).
Proof.
  exact (InvariantProofs.ingest_tables_agree in_order Scenarios.in_order_perm scenario).
Defined.

(** The statement of X16 on the first document of the scenario. *)
Lemma add_document_record_witness :
  documents (add_document in_order init (lit "A") doc_a [doc_a]) !! lit "A"
  = Some {| doc_text := doc_a; doc_chunks := [doc_a];
            doc_entities := _extract_entities doc_a |}.
Proof.
  exact (proj1 (InvariantProofs.add_document_record in_order Scenarios.in_order_perm
                  init (lit "A") doc_a [doc_a])).
Defined.

(** The statement of X17 on the scenario. *)
Lemma ingest_relationships_sound_witness :
  relationships scenario_graph <> [] /\ relationships_sound scenario_graph.
Proof.
  split; [vm_compute; discriminate|].
  exact (InvariantProofs.ingest_relationships_sound in_order Scenarios.in_order_perm
           scenario).
Defined.

(** The view of the scenario has nodes and edges. *)
Lemma scenario_view :
  exists v nodes es,
    build_graph scenario_graph = Some v /\ nodes_of v nodes /\ edges_of v es /\
    nodes <> [] /\ es <> [].
Proof.
  destruct (build_graph scenario_graph) as [v|] eqn:E;
    [|vm_compute in E; discriminate].
  vm_compute in E. injection E as <-.
  eexists. eexists. eexists. split; [reflexivity|].
  split; [left; reflexivity|]. split; [right; left; reflexivity|].
  split; discriminate.
Defined.

(** The statement of X18 on the scenario. *)
Lemma build_graph_nodes_ranked_witness :
  exists v nodes,
    build_graph scenario_graph = Some v /\ nodes_of v nodes /\
    Z.of_nat (length nodes) = Z.min 30 (get_node_count scenario_graph) /\
    NoDup (map n_label nodes) /\
    StronglySorted (fun a b => n_frequency b <= n_frequency a) nodes.
Proof.
  destruct scenario_view as (v & nodes & es & Hv & Hn & _).
  destruct (ViewProofs.build_graph_nodes_ranked in_order Scenarios.in_order_perm
              scenario v nodes Hv Hn) as (H1 & _ & H3 & H4 & _).
  exists v, nodes. auto.
Defined.

(** The statement of X19 on the scenario. *)
Lemma build_graph_edges_join_nodes_witness :
  exists v nodes es,
    build_graph scenario_graph = Some v /\ nodes_of v nodes /\ edges_of v es /\
    es <> [] /\
    forall e, e ∈ es -> e_source e <> e_target e /\ 1 <= e_weight e.
Proof.
  destruct scenario_view as (v & nodes & es & Hv & Hn & He & _ & Hes).
  exists v, nodes, es. split; [exact Hv|]. split; [exact Hn|].
  split; [exact He|]. split; [exact Hes|]. intros e Hin.
  destruct (ViewProofs.build_graph_edges_join_nodes in_order Scenarios.in_order_perm
              scenario v nodes es Hv Hn He e Hin) as (H1 & H2 & _).
  auto.
Defined.

(** The statement of X20 on the scenario. *)
Lemma build_graph_edge_weights_witness :
  NoDup (map (fun d => d.1.1) scenario) /\
  exists v,
    build_graph scenario_graph = Some v /\
    forall es, edges_of v es -> Forall (fun e => e_weight e = 1) es.
Proof.
  split; [exact Scenarios.scenario_ids_distinct|].
  exact (ViewProofs.build_graph_edge_weights in_order Scenarios.in_order_perm scenario
           Scenarios.scenario_ids_distinct).
Defined.

(** The statement of X11 on the scenario. *)
Lemma entity_details_reachable_witness :
  get_entity_details in_order scenario_graph (lit "Zed") = None /\
  exists det,
    get_entity_details in_order scenario_graph (lit "Bob") = Some det /\
    1 <= det_frequency det /\ det_documents det <> [].
Proof.
  destruct (ViewProofs.entity_details_reachable in_order Scenarios.in_order_perm
              scenario (lit "Bob")) as [_ Hsome].
  split; [vm_compute; reflexivity|].
  destruct (get_entity_details in_order scenario_graph (lit "Bob"))
    as [det|] eqn:E; [|vm_compute in E; discriminate].
  exists det. split; [reflexivity|].
  destruct (Hsome det E) as (H1 & H2 & _). auto.
Defined.

End Graph.

Section Answers.
Import VectorStore Response Cases.

(** The statement of X21 for one chunk that names its document. *)
Lemma generate_response_shape_witness :
  exists lines,
    generate_response (lit "Who met Bob?") [shown]
    = Some (header ++ join [nl] lines ++ closing (lit "Who met Bob?")) /\
    (length lines <= 3)%nat.
Proof.
  destruct (ResponseProofs.generate_response_shape (lit "Who met Bob?") [shown])
    as (lines & H1 & H2 & _).
  - discriminate.
  - repeat constructor. vm_compute. eexists. reflexivity.
  - exists lines. auto.
Defined.

(** The statement of X22 without chunks and for a chunk without a name. *)
Lemma generate_response_edges_witness :
  generate_response (lit "Who met Bob?") [] = Some (header ++ apology) /\
  generate_response (lit "Who met Bob?")
    [{| r_text := lit "x"; r_metadata := ∅; r_score := F32.one; r_rank := 1 |}]
  = None.
Proof.
  split.
  - apply (proj2 (ResponseProofs.generate_response_edges (lit "Who met Bob?") [])).
    reflexivity.
  - apply (proj1 (ResponseProofs.generate_response_edges (lit "Who met Bob?") _)).
    apply Exists_cons_hd. reflexivity.
Defined.

End Answers.

Section Served.
Import VectorStore StoreVocabulary Main MainTerms Cases.

(** The encoder has the dimension of the store. *)
Lemma wide_encoder_dimension (text : str) :
  Z.of_nat (length (wide_encoder text)) = 384.
Proof. reflexivity. Defined.

(** The upload goes through, and its state is a reached one. *)
Lemma uploaded_reachable :
  exists a, uploaded = Some a /\
            reachable wide_encoder Vocabulary.in_order a /\
            documents_db a <> [].
Proof.
  destruct uploaded as [a|] eqn:E; [|vm_compute in E; discriminate].
  exists a. split; [reflexivity|]. split.
  - eapply reach_upload; [apply reach_start| |exact E].
    simpl. apply not_elem_of_nil.
  - unfold uploaded, upload_one in E.
    destruct (decide _); [|discriminate].
    destruct (RAGEngine.chunk_text _ _ _); [|discriminate].
    destruct (add_chunks _ _ _ _ _) as [[store ids]|]; [|discriminate].
    injection E as <-. simpl. discriminate.
Defined.

(** The statement of X23 after one upload. *)
Lemma stats_agree_witness :
  exists a, uploaded = Some a /\
            total_chunks a = get_size (vector_store a).
Proof.
  destruct uploaded_reachable as (a & Ha & Hr & _).
  exists a. split; [exact Ha|].
  exact (proj1 (MainProofs.stats_agree wide_encoder Vocabulary.in_order
                  Scenarios.in_order_perm wide_encoder_dimension a Hr)).
Defined.

(** The statement of X24 after one upload. *)
Lemma query_answers_witness :
  exists a results response,
    uploaded = Some a /\
    similarity_search wide_encoder (vector_store a) (lit "Who met Bob?") 5
    = Some results /\
    Response.generate_response (lit "Who met Bob?") results = Some response.
Proof.
  destruct uploaded_reachable as (a & Ha & Hr & _).
  destruct (MainProofs.query_answers wide_encoder Vocabulary.in_order
              Scenarios.in_order_perm wide_encoder_dimension a (lit "Who met Bob?") 5 Hr)
    as (results & response & H1 & H2 & _); [lia|].
  exists a, results, response. auto.
Defined.

(** The statement of X25 after one upload. *)
Lemma delete_endpoint_effect_witness :
  exists a,
    uploaded = Some a /\
    delete_endpoint wide_encoder a (lit "B") = None /\
    forall a', delete_endpoint wide_encoder a (lit "A") = Some a' ->
               kg_builder a' = kg_builder a.
Proof.
  destruct uploaded_reachable as (a & Ha & Hr & _).
  destruct (MainProofs.delete_endpoint_effect wide_encoder Vocabulary.in_order
              Scenarios.in_order_perm wide_encoder_dimension a (lit "B") Hr) as [Hnone _].
  destruct (MainProofs.delete_endpoint_effect wide_encoder Vocabulary.in_order
              Scenarios.in_order_perm wide_encoder_dimension a (lit "A") Hr) as [_ Hsome].
  exists a. split; [exact Ha|]. split.
  - apply Hnone. unfold uploaded, upload_one in Ha.
    destruct (decide _); [|discriminate].
    destruct (RAGEngine.chunk_text _ _ _); [|discriminate].
    destruct (add_chunks _ _ _ _ _) as [[store ids]|]; [|discriminate].
    injection Ha as <-. simpl. intros H.
    apply list_elem_of_singleton in H. discriminate.
  - intros a' Hd. apply (Hsome a' Hd).
Defined.

End Served.

Section Data.
Import DataUtils.

(** The statement of X27 on the second document, with the default size
    of the vocabulary. *)
Lemma preprocess_encoding_witness :
  exists ids,
    preprocess Vocabulary.doc_b (create_vocab Vocabulary.doc_b 10000) = Some ids /\
    length ids = length (split Vocabulary.doc_b) /\
    Forall (fun id => 2 <= id) ids.
Proof.
  destruct (DataProofs.preprocess_encoding Vocabulary.doc_b 10000)
    as (ids & H1 & H2 & H3 & _).
  - vm_compute. discriminate.
  - exists ids. auto.
Defined.

(** The statement of X28 on a list of three ids, the last of them
    [2^63]: index 0 is answered, index 1 is below [__len__] and raises in
    [torch.tensor], index 2 is not below [__len__]. *)
Lemma dataset_indices_witness :
  dataset_len [5; 6; 2 ^ 63] = 2 /\
  dataset_getitem [5; 6; 2 ^ 63] 0 = Some (5, 6) /\
  ~ is_Some (dataset_getitem [5; 6; 2 ^ 63] 1) /\
  ~ is_Some (dataset_getitem [5; 6; 2 ^ 63] 2).
Proof.
  split; [reflexivity|]. split; [|split].
  - destruct (proj2 (proj1 (DataProofs.dataset_indices [5; 6; 2 ^ 63] 0
                              ltac:(lia)))) as [[x y] H].
    + split; [vm_compute; reflexivity|].
      intros j x [->| ->] [= <-]; lia.
    + rewrite H.
      destruct (proj2 (DataProofs.dataset_indices [5; 6; 2 ^ 63] 0 ltac:(lia))
                  x y H) as [[= <-] [= <-]].
      reflexivity.
  - intros H.
    apply (proj1 (DataProofs.dataset_indices [5; 6; 2 ^ 63] 1 ltac:(lia))) in H.
    destruct H as [_ H]. specialize (H 2%nat (2 ^ 63) (or_intror eq_refl) eq_refl).
    lia.
  - intros H.
    apply (proj1 (DataProofs.dataset_indices [5; 6; 2 ^ 63] 2 ltac:(lia))) in H.
    destruct H as [H _]. vm_compute in H. discriminate.
Defined.

End Data.

End MoreScenarios.
